(** * cocotb-ahb: the AHB protocol engine, embedded and verified

    A shallow embedding of the behavioural AHB model:
    - [AHB_common/AHB_types.py]: the enumerations, the command and
      response records and [hProt_to_int];
    - [drivers/SimMem1PSubordinate.py]: the memory subordinate with its
      burst tracker, exclusive monitor, secure filter and write path;
    - [drivers/SimDefaultSubordinate.py]: the error-responding subordinate;
    - [interconnect/SimInterconnect.py]: the arbiter queue, the
      registration methods, the address decode, the master-id tagging, and
      [do_reset], [proc_rsp], [proc_cmd] and [process].

    Python integers are unbounded, so they are [Z]; [//] and [%] with a
    positive divisor are [Z.div] and [Z.modulo]; [&], [|], [~], [<<] and
    [>>] are [Z.land], [Z.lor], [Z.lnot], [Z.shiftl] and [Z.shiftr].
    A [dict] is a [gmap], a [set] a [gset].  A raised exception ends the
    simulation and is the [Raise] case of [result]. *)

From Stdlib Require Import ZArith Lia List Bool.
From stdpp Require Import base decidable countable gmap sets list.

Local Open Scope Z_scope.

(** ** AHB_types.py *)

Module HREADY.
Inductive t := WaitState | Working.
#[global] Instance eq_dec : EqDecision t.
Proof. solve_decision. Defined.
End HREADY.

Module HRESP.
Inductive t := Successful | Failed.
#[global] Instance eq_dec : EqDecision t.
Proof. solve_decision. Defined.
End HRESP.

Module HEXOKAY.
Inductive t := Failed | Successful.
#[global] Instance eq_dec : EqDecision t.
Proof. solve_decision. Defined.
End HEXOKAY.

Module HBURST.
Inductive t := Single | Incr | Wrap4 | Incr4 | Wrap8 | Incr8 | Wrap16 | Incr16.
#[global] Instance eq_dec : EqDecision t.
Proof. solve_decision. Defined.
Definition val (b : t) : Z :=
  match b with
  | Single => 0 | Incr => 1 | Wrap4 => 2 | Incr4 => 3
  | Wrap8 => 4 | Incr8 => 5 | Wrap16 => 6 | Incr16 => 7
  end.
Definition of_val (z : Z) : option t :=
  match z with
  | 0 => Some Single | 1 => Some Incr | 2 => Some Wrap4 | 3 => Some Incr4
  | 4 => Some Wrap8 | 5 => Some Incr8 | 6 => Some Wrap16 | 7 => Some Incr16
  | _ => None
  end.
#[global] Instance countable : Countable t.
Proof. by apply (inj_countable val of_val); intros []. Defined.
End HBURST.

Module HMASTLOCK.
Inductive t := UnLocked | Locked.
#[global] Instance eq_dec : EqDecision t.
Proof. solve_decision. Defined.
End HMASTLOCK.

Module HPROT.
Record t := mk {
  width : Z;
  data : bool;
  privileged : bool;
  bufferable : bool;
  modifiable : bool;
  lookup : bool;
  allocate : bool;
  shareable : bool
}.
Definition default : t := mk 7 true true false false false false false.
#[global] Instance eq_dec : EqDecision t.
Proof. solve_decision. Defined.
End HPROT.

Module HSIZE.
Inductive t :=
  Byte | Halfword | Word | Doubleword | Quadword | Octupleword | Bit512 | Bit1024.
#[global] Instance eq_dec : EqDecision t.
Proof. solve_decision. Defined.
Definition val (sz : t) : Z :=
  match sz with
  | Byte => 0 | Halfword => 1 | Word => 2 | Doubleword => 3
  | Quadword => 4 | Octupleword => 5 | Bit512 => 6 | Bit1024 => 7
  end.
Definition of_val (z : Z) : option t :=
  match z with
  | 0 => Some Byte | 1 => Some Halfword | 2 => Some Word | 3 => Some Doubleword
  | 4 => Some Quadword | 5 => Some Octupleword | 6 => Some Bit512
  | 7 => Some Bit1024
  | _ => None
  end.
#[global] Instance countable : Countable t.
Proof. by apply (inj_countable val of_val); intros []. Defined.
(** [2**hSize], the number of bytes of a transfer. *)
Definition bytes (sz : t) : Z := 2 ^ val sz.
End HSIZE.

Module HNONSEC.
Inductive t := Secure | NonSecure.
#[global] Instance eq_dec : EqDecision t.
Proof. solve_decision. Defined.
Definition val (n : t) : Z := match n with Secure => 0 | NonSecure => 1 end.
Definition of_val (z : Z) : option t :=
  match z with 0 => Some Secure | 1 => Some NonSecure | _ => None end.
#[global] Instance countable : Countable t.
Proof. by apply (inj_countable val of_val); intros []. Defined.
End HNONSEC.

Module HEXCL.
Inductive t := NonExcl | Excl.
#[global] Instance eq_dec : EqDecision t.
Proof. solve_decision. Defined.
End HEXCL.

Module HTRANS.
Inductive t := Idle | Busy | NonSeq | Seq.
#[global] Instance eq_dec : EqDecision t.
Proof. solve_decision. Defined.
(** [hTrans in [HTRANS.Idle, HTRANS.Busy]] *)
Definition idle_or_busy (x : t) : bool :=
  match x with Idle | Busy => true | _ => false end.
End HTRANS.

Module HWRITE.
Inductive t := Read | Write.
#[global] Instance eq_dec : EqDecision t.
Proof. solve_decision. Defined.
End HWRITE.

Module HSEL.
Inductive t := NotSel | Sel.
#[global] Instance eq_dec : EqDecision t.
Proof. solve_decision. Defined.
End HSEL.

Module HREADYOUT.
Inductive t := NotReady | Ready.
#[global] Instance eq_dec : EqDecision t.
Proof. solve_decision. Defined.
End HREADYOUT.

(** [class MCMD(NamedTuple)] with its field defaults. *)
Module MCMD.
Record t := mk {
  hAddr : Z;
  hBurst : HBURST.t;
  hMastlock : HMASTLOCK.t;
  hProt : HPROT.t;
  hSize : HSIZE.t;
  hNonsec : HNONSEC.t;
  hExcl : HEXCL.t;
  hMaster : Z;
  hTrans : HTRANS.t;
  hWstrb : Z;
  hWrite : HWRITE.t
}.
(** [MCMD()] *)
Definition default : t :=
  mk 0 HBURST.Incr HMASTLOCK.UnLocked HPROT.default HSIZE.Byte HNONSEC.Secure
     HEXCL.NonExcl 0 HTRANS.Idle 0 HWRITE.Read.
#[global] Instance eq_dec : EqDecision t.
Proof. solve_decision. Defined.
End MCMD.

(** [class ICMD(NamedTuple)]: the fields of [MCMD] and [hSel]. *)
Module ICMD.
Record t := mk {
  hAddr : Z;
  hBurst : HBURST.t;
  hMastlock : HMASTLOCK.t;
  hProt : HPROT.t;
  hSize : HSIZE.t;
  hNonsec : HNONSEC.t;
  hExcl : HEXCL.t;
  hMaster : Z;
  hTrans : HTRANS.t;
  hWstrb : Z;
  hWrite : HWRITE.t;
  hSel : HSEL.t
}.
(** [ICMD()] *)
Definition default : t :=
  mk 0 HBURST.Incr HMASTLOCK.UnLocked HPROT.default HSIZE.Byte HNONSEC.Secure
     HEXCL.NonExcl 0 HTRANS.Idle 0 HWRITE.Read HSEL.NotSel.
#[global] Instance eq_dec : EqDecision t.
Proof. solve_decision. Defined.
(** [ICMD] built from the unpacked fields of an [MCMD] followed by the
    select flag, as [proc_cmd] does with [HSEL.Sel]. *)
Definition of_mcmd (c : MCMD.t) (sel : HSEL.t) : t :=
  mk (MCMD.hAddr c) (MCMD.hBurst c) (MCMD.hMastlock c) (MCMD.hProt c)
     (MCMD.hSize c) (MCMD.hNonsec c) (MCMD.hExcl c) (MCMD.hMaster c)
     (MCMD.hTrans c) (MCMD.hWstrb c) (MCMD.hWrite c) sel.
End ICMD.

Module IDATA.
Record t := mk { hWData : Z }.
End IDATA.

Module SRESP.
Record t := mk {
  hResp : HRESP.t;
  hReadyOut : HREADYOUT.t;
  hExOkay : HEXOKAY.t;
  hRData : Z
}.
(** [SRESP()], the subordinates' [_reset_value]. *)
Definition default : t := mk HRESP.Successful HREADYOUT.NotReady HEXOKAY.Failed 0.
#[global] Instance eq_dec : EqDecision t.
Proof. solve_decision. Defined.
End SRESP.

Module IRESP.
Record t := mk {
  hResp : HRESP.t;
  hExOkay : HEXOKAY.t;
  hRData : Z
}.
Definition default : t := mk HRESP.Successful HEXOKAY.Failed 0.
End IRESP.

(** The exceptions the drivers raise. *)
Inductive exn :=
| Unaligned_address
| HSIZE_greater_than_bus_width
| Incrementing_burst_crosses_1KB_boundry
| Incorrect_burst_address
| Incorrect_burst_size
| Incorrect_burst_type
| Incorrect_burst_operation
| Incorrect_burst_protection
| Not_in_burst_context
| Exclusive_must_be_single_beat
| Exclusive_cannot_have_BUSY
| Exclusive_read_after_exclusive_read
| Key_error
| Index_error
| Recursion_depth.

Inductive result (A : Type) :=
| Ok (a : A)
| Raise (e : exn).
Arguments Ok {A} a.
Arguments Raise {A} e.

#[global] Instance result_ret : MRet result := fun A a => Ok a.

#[global] Instance result_bind : MBind result := fun A B k r =>
  match r with
  | Ok a => k a
  | Raise e => Raise e
  end.

(** [for i in range(n)] over a state: the loop body applied to
    [0, 1, ..., n-1] in order. *)
Definition range (n : Z) : list Z := seqZ 0 n.

Definition for_range {S : Type} (n : Z) (body : Z -> S -> S) (s : S) : S :=
  fold_left (fun acc i => body i acc) (range n) s.

(** [for i in l] over a state, with a body that may raise. *)
Fixpoint for_each {S : Type} (l : list Z) (body : Z -> S -> result S) (s : S)
  : result S :=
  match l with
  | nil => Ok s
  | i :: rest => s ← body i s; for_each rest body s
  end.

(** [hProt[i]] for the positions [0..7] of the named tuple, the booleans as
    the integers they are; [None] is an index out of range.  (A negative
    index, which Python counts from the end, never occurs below.) *)
Definition HPROT_item (hProt : HPROT.t) (i : Z) : option Z :=
  match i with
  | 0 => Some (HPROT.width hProt)
  | 1 => Some (Z.b2z (HPROT.data hProt))
  | 2 => Some (Z.b2z (HPROT.privileged hProt))
  | 3 => Some (Z.b2z (HPROT.bufferable hProt))
  | 4 => Some (Z.b2z (HPROT.modifiable hProt))
  | 5 => Some (Z.b2z (HPROT.lookup hProt))
  | 6 => Some (Z.b2z (HPROT.allocate hProt))
  | 7 => Some (Z.b2z (HPROT.shareable hProt))
  | _ => None
  end.

(** [hProt_to_int].  The statement of the loop, [ret | hProt[i+1] << i],
    is an expression: its value is computed and dropped, and [ret] is not
    assigned. *)
Definition hProt_to_int (hProt : HPROT.t) : result Z :=
  for_each (range (HPROT.width hProt))
           (fun i ret =>
              match HPROT_item hProt (i + 1) with
              | Some bit => let _ := Z.lor ret (Z.shiftl bit i) in Ok ret
              | None => Raise Index_error
              end)
           0.


(** ** drivers/SimMem1PSubordinate.py *)

Module SimMem1PSubordinate.

(** The constructor's arguments.  [nonsec_read] and [nonsec_write] are only
    stored (and only read) when [secure_transfer] is set. *)
Record config := {
  length : Z;
  bus_width : Z;
  min_wait_cycles : Z;
  max_wait_cycles : Z;
  secure_transfer : bool;
  nonsec_read : bool;
  nonsec_write : bool;
  exclusive_transfers : bool;
  write_strobe : bool;
  burst : bool
}.

(** [bus_byte_width = bus_width//8] *)
Definition bus_byte_width (cfg : config) : Z := bus_width cfg / 8.

(** The assertions of [__init__]. *)
Definition valid_config (cfg : config) : Prop :=
  length cfg > 0 /\
  length cfg mod 1024 = 0 /\
  bus_byte_width cfg * 8 = bus_width cfg /\
  In (bus_byte_width cfg) (1 :: 2 :: 4 :: 8 :: 16 :: 32 :: 64 :: 128 :: nil).

(** A reservation tuple
    [(hAddr, hSize, hProt, hBurst, hMaster, hNonsec)], with its six
    positions named. *)
Record TransId := mkTransId {
  t_hAddr : Z;
  t_hSize : HSIZE.t;
  t_hProt : HPROT.t;
  t_hBurst : HBURST.t;
  t_hMaster : Z;
  t_hNonsec : HNONSEC.t
}.

#[global] Instance TransId_eq_dec : EqDecision TransId.
Proof. solve_decision. Defined.

(** The tuples are the elements of Python sets; they are counted through
    the list of the integers they hold. *)
Definition TransId_to_list (t : TransId) : list Z :=
  t_hAddr t :: HSIZE.val (t_hSize t) :: HPROT.width (t_hProt t)
  :: Z.b2z (HPROT.data (t_hProt t)) :: Z.b2z (HPROT.privileged (t_hProt t))
  :: Z.b2z (HPROT.bufferable (t_hProt t)) :: Z.b2z (HPROT.modifiable (t_hProt t))
  :: Z.b2z (HPROT.lookup (t_hProt t)) :: Z.b2z (HPROT.allocate (t_hProt t))
  :: Z.b2z (HPROT.shareable (t_hProt t)) :: HBURST.val (t_hBurst t)
  :: t_hMaster t :: HNONSEC.val (t_hNonsec t) :: nil.

Definition TransId_of_list (l : list Z) : option TransId :=
  match l with
  | a :: sz :: w :: d :: pr :: bf :: md :: lk :: al :: sh :: bu :: ma :: ns :: nil =>
      sz ← HSIZE.of_val sz;
      bu ← HBURST.of_val bu;
      ns ← HNONSEC.of_val ns;
      Some (mkTransId a sz
              (HPROT.mk w (Z.eqb d 1) (Z.eqb pr 1) (Z.eqb bf 1) (Z.eqb md 1)
                        (Z.eqb lk 1) (Z.eqb al 1) (Z.eqb sh 1))
              bu ma ns)
  | _ => None
  end.

#[global] Instance TransId_countable : Countable TransId.
Proof.
  refine (inj_countable TransId_to_list TransId_of_list _).
  intros [a sz [w d pr bf md lk al sh] bu ma ns].
  unfold TransId_to_list, TransId_of_list. cbn [t_hAddr t_hSize t_hProt t_hBurst
    t_hMaster t_hNonsec HPROT.width HPROT.data HPROT.privileged HPROT.bufferable
    HPROT.modifiable HPROT.lookup HPROT.allocate HPROT.shareable].
  assert (Hsz : HSIZE.of_val (HSIZE.val sz) = Some sz) by (destruct sz; reflexivity).
  assert (Hbu : HBURST.of_val (HBURST.val bu) = Some bu) by (destruct bu; reflexivity).
  assert (Hns : HNONSEC.of_val (HNONSEC.val ns) = Some ns)
    by (destruct ns; reflexivity).
  assert (Hb : forall b : bool, Z.eqb (Z.b2z b) 1 = b) by (intros []; reflexivity).
  rewrite Hsz, Hbu, Hns. cbn [mbind option_bind]. rewrite !Hb. reflexivity.
Defined.

(** The burst attributes of the object. *)
Record BurstTracker := {
  bursting : bool;
  bursting_addresses : list Z;
  incr_burst : bool;
  burst_size : HSIZE.t;
  burst_type : HBURST.t;
  burst_write : HWRITE.t;
  burst_prot : HPROT.t
}.

(** The exclusive-transfer attributes of the object.  [no_colision] is the
    attribute that [process_exclusive_transfer] assigns; no method reads
    it, [exclusive_trans_colision_check] reads [no_collision]. *)
Record ExclusiveMonitor := {
  watched_addresses : gset Z;
  transaction_set : gset TransId;
  failed_transaction_set : gset TransId;
  no_collision : bool;
  no_colision : option bool
}.

(** The dictionary [self.temp]; a key that is absent is [None]. *)
Record Temp := {
  t_hRData : option Z;
  t_hResp : option HRESP.t;
  t_hReadyOut : option HREADYOUT.t;
  t_hExOkay : option HEXOKAY.t
}.

Record state := {
  mem : gmap Z Z;
  resp : SRESP.t;
  old_resp : SRESP.t;
  wait_cycles : Z;
  error : bool;
  wdata : Z;
  process_wdata_next_cycle : bool;
  wcommand : ICMD.t;
  tracker : BurstTracker;
  monitor : ExclusiveMonitor;
  command : ICMD.t;
  input : ICMD.t;
  temp : Temp;
  hready : HREADY.t
}.

Definition set_bursting (v : bool) (s : BurstTracker) : BurstTracker :=
  {| bursting := v; bursting_addresses := bursting_addresses s;
     incr_burst := incr_burst s; burst_size := burst_size s;
     burst_type := burst_type s; burst_write := burst_write s;
     burst_prot := burst_prot s |}.
Definition set_bursting_addresses (v : list Z) (s : BurstTracker) : BurstTracker :=
  {| bursting := bursting s; bursting_addresses := v; incr_burst := incr_burst s;
     burst_size := burst_size s; burst_type := burst_type s;
     burst_write := burst_write s; burst_prot := burst_prot s |}.

Definition set_watched_addresses (v : gset Z) (s : ExclusiveMonitor) : ExclusiveMonitor :=
  {| watched_addresses := v; transaction_set := transaction_set s;
     failed_transaction_set := failed_transaction_set s;
     no_collision := no_collision s; no_colision := no_colision s |}.
Definition set_transaction_set (v : gset TransId) (s : ExclusiveMonitor) : ExclusiveMonitor :=
  {| watched_addresses := watched_addresses s; transaction_set := v;
     failed_transaction_set := failed_transaction_set s;
     no_collision := no_collision s; no_colision := no_colision s |}.
Definition set_failed_transaction_set (v : gset TransId) (s : ExclusiveMonitor) : ExclusiveMonitor :=
  {| watched_addresses := watched_addresses s; transaction_set := transaction_set s;
     failed_transaction_set := v; no_collision := no_collision s;
     no_colision := no_colision s |}.
Definition set_no_collision (v : bool) (s : ExclusiveMonitor) : ExclusiveMonitor :=
  {| watched_addresses := watched_addresses s; transaction_set := transaction_set s;
     failed_transaction_set := failed_transaction_set s; no_collision := v;
     no_colision := no_colision s |}.
Definition set_no_colision (v : option bool) (s : ExclusiveMonitor) : ExclusiveMonitor :=
  {| watched_addresses := watched_addresses s; transaction_set := transaction_set s;
     failed_transaction_set := failed_transaction_set s;
     no_collision := no_collision s; no_colision := v |}.

Definition set_t_hRData (v : option Z) (s : Temp) : Temp :=
  {| t_hRData := v; t_hResp := t_hResp s; t_hReadyOut := t_hReadyOut s;
     t_hExOkay := t_hExOkay s |}.
Definition set_t_hResp (v : option HRESP.t) (s : Temp) : Temp :=
  {| t_hRData := t_hRData s; t_hResp := v; t_hReadyOut := t_hReadyOut s;
     t_hExOkay := t_hExOkay s |}.
Definition set_t_hReadyOut (v : option HREADYOUT.t) (s : Temp) : Temp :=
  {| t_hRData := t_hRData s; t_hResp := t_hResp s; t_hReadyOut := v;
     t_hExOkay := t_hExOkay s |}.
Definition set_t_hExOkay (v : option HEXOKAY.t) (s : Temp) : Temp :=
  {| t_hRData := t_hRData s; t_hResp := t_hResp s; t_hReadyOut := t_hReadyOut s;
     t_hExOkay := v |}.

Definition set_mem (v : gmap Z Z) (s : state) : state :=
  {| mem := v; resp := resp s; old_resp := old_resp s; wait_cycles := wait_cycles s;
     error := error s; wdata := wdata s;
     process_wdata_next_cycle := process_wdata_next_cycle s; wcommand := wcommand s;
     tracker := tracker s; monitor := monitor s; command := command s;
     input := input s; temp := temp s; hready := hready s |}.
Definition set_resp (v : SRESP.t) (s : state) : state :=
  {| mem := mem s; resp := v; old_resp := old_resp s; wait_cycles := wait_cycles s;
     error := error s; wdata := wdata s;
     process_wdata_next_cycle := process_wdata_next_cycle s; wcommand := wcommand s;
     tracker := tracker s; monitor := monitor s; command := command s;
     input := input s; temp := temp s; hready := hready s |}.
Definition set_old_resp (v : SRESP.t) (s : state) : state :=
  {| mem := mem s; resp := resp s; old_resp := v; wait_cycles := wait_cycles s;
     error := error s; wdata := wdata s;
     process_wdata_next_cycle := process_wdata_next_cycle s; wcommand := wcommand s;
     tracker := tracker s; monitor := monitor s; command := command s;
     input := input s; temp := temp s; hready := hready s |}.
Definition set_wait_cycles (v : Z) (s : state) : state :=
  {| mem := mem s; resp := resp s; old_resp := old_resp s; wait_cycles := v;
     error := error s; wdata := wdata s;
     process_wdata_next_cycle := process_wdata_next_cycle s; wcommand := wcommand s;
     tracker := tracker s; monitor := monitor s; command := command s;
     input := input s; temp := temp s; hready := hready s |}.
Definition set_error (v : bool) (s : state) : state :=
  {| mem := mem s; resp := resp s; old_resp := old_resp s;
     wait_cycles := wait_cycles s; error := v; wdata := wdata s;
     process_wdata_next_cycle := process_wdata_next_cycle s; wcommand := wcommand s;
     tracker := tracker s; monitor := monitor s; command := command s;
     input := input s; temp := temp s; hready := hready s |}.
Definition set_wdata (v : Z) (s : state) : state :=
  {| mem := mem s; resp := resp s; old_resp := old_resp s;
     wait_cycles := wait_cycles s; error := error s; wdata := v;
     process_wdata_next_cycle := process_wdata_next_cycle s; wcommand := wcommand s;
     tracker := tracker s; monitor := monitor s; command := command s;
     input := input s; temp := temp s; hready := hready s |}.
Definition set_process_wdata_next_cycle (v : bool) (s : state) : state :=
  {| mem := mem s; resp := resp s; old_resp := old_resp s;
     wait_cycles := wait_cycles s; error := error s; wdata := wdata s;
     process_wdata_next_cycle := v; wcommand := wcommand s; tracker := tracker s;
     monitor := monitor s; command := command s; input := input s; temp := temp s;
     hready := hready s |}.
Definition set_wcommand (v : ICMD.t) (s : state) : state :=
  {| mem := mem s; resp := resp s; old_resp := old_resp s;
     wait_cycles := wait_cycles s; error := error s; wdata := wdata s;
     process_wdata_next_cycle := process_wdata_next_cycle s; wcommand := v;
     tracker := tracker s; monitor := monitor s; command := command s;
     input := input s; temp := temp s; hready := hready s |}.
Definition set_tracker (v : BurstTracker) (s : state) : state :=
  {| mem := mem s; resp := resp s; old_resp := old_resp s;
     wait_cycles := wait_cycles s; error := error s; wdata := wdata s;
     process_wdata_next_cycle := process_wdata_next_cycle s; wcommand := wcommand s;
     tracker := v; monitor := monitor s; command := command s; input := input s;
     temp := temp s; hready := hready s |}.
Definition set_monitor (v : ExclusiveMonitor) (s : state) : state :=
  {| mem := mem s; resp := resp s; old_resp := old_resp s;
     wait_cycles := wait_cycles s; error := error s; wdata := wdata s;
     process_wdata_next_cycle := process_wdata_next_cycle s; wcommand := wcommand s;
     tracker := tracker s; monitor := v; command := command s; input := input s;
     temp := temp s; hready := hready s |}.
Definition set_command (v : ICMD.t) (s : state) : state :=
  {| mem := mem s; resp := resp s; old_resp := old_resp s;
     wait_cycles := wait_cycles s; error := error s; wdata := wdata s;
     process_wdata_next_cycle := process_wdata_next_cycle s; wcommand := wcommand s;
     tracker := tracker s; monitor := monitor s; command := v; input := input s;
     temp := temp s; hready := hready s |}.
Definition set_input (v : ICMD.t) (s : state) : state :=
  {| mem := mem s; resp := resp s; old_resp := old_resp s;
     wait_cycles := wait_cycles s; error := error s; wdata := wdata s;
     process_wdata_next_cycle := process_wdata_next_cycle s; wcommand := wcommand s;
     tracker := tracker s; monitor := monitor s; command := command s; input := v;
     temp := temp s; hready := hready s |}.
Definition set_temp (v : Temp) (s : state) : state :=
  {| mem := mem s; resp := resp s; old_resp := old_resp s;
     wait_cycles := wait_cycles s; error := error s; wdata := wdata s;
     process_wdata_next_cycle := process_wdata_next_cycle s; wcommand := wcommand s;
     tracker := tracker s; monitor := monitor s; command := command s;
     input := input s; temp := v; hready := hready s |}.
Definition set_hready (v : HREADY.t) (s : state) : state :=
  {| mem := mem s; resp := resp s; old_resp := old_resp s;
     wait_cycles := wait_cycles s; error := error s; wdata := wdata s;
     process_wdata_next_cycle := process_wdata_next_cycle s; wcommand := wcommand s;
     tracker := tracker s; monitor := monitor s; command := command s;
     input := input s; temp := temp s; hready := v |}.

(** [SRESP] built from the keywords of [self.temp]: a missing key takes the
    field's default. *)
Definition SRESP_of_temp (t : Temp) : SRESP.t :=
  SRESP.mk (default (SRESP.hResp SRESP.default) (t_hResp t))
           (default (SRESP.hReadyOut SRESP.default) (t_hReadyOut t))
           (default (SRESP.hExOkay SRESP.default) (t_hExOkay t))
           (default (SRESP.hRData SRESP.default) (t_hRData t)).

(** The object after [__init__].  [hready] is first assigned by
    [set_ready], which the interconnect calls with [WaitState] when the
    subordinate is registered. *)
Definition init : state :=
  {| mem := ∅; resp := SRESP.default; old_resp := SRESP.default; wait_cycles := 0;
     error := false; wdata := 0; process_wdata_next_cycle := false;
     wcommand := ICMD.default;
     tracker := {| bursting := false; bursting_addresses := nil; incr_burst := false;
                   burst_size := HSIZE.Byte; burst_type := HBURST.Single;
                   burst_write := HWRITE.Read; burst_prot := HPROT.default |};
     monitor := {| watched_addresses := ∅; transaction_set := ∅;
                   failed_transaction_set := ∅; no_collision := true;
                   no_colision := None |};
     command := ICMD.default; input := ICMD.default;
     temp := {| t_hRData := None; t_hResp := None; t_hReadyOut := None;
                t_hExOkay := None |};
     hready := HREADY.WaitState |}.

(** [self.mem[a] if a in self.mem else 0] *)
Definition mem_read (m : gmap Z Z) (a : Z) : Z := default 0 (m !! a).

Definition init_memory (init_array : list Z) (start_address : Z) (s : state) : state :=
  set_mem (fold_left (fun m '(i, d) => <[start_address + Z.of_nat i := d]> m)
                     (imap (fun i d => (i, d)) init_array) (mem s)) s.

Definition memory_dump (cfg : config) (s : state) : list Z :=
  map (mem_read (mem s)) (range (length cfg)).

Definition set_ready (hReady : HREADY.t) (s : state) : state := set_hready hReady s.

Definition is_ready (s : state) : bool := bool_decide (hready s = HREADY.Working).

Definition get_rsp (s : state) : SRESP.t := resp s.

Definition _check_fix_incr (hAddr : Z) (hBurst : HBURST.t) (hSize : HSIZE.t)
  : result unit :=
  let _first := hAddr / 1024 in
  let _last :=
    if decide (hBurst = HBURST.Incr4) then hAddr + 4 * 2 ^ HSIZE.val hSize
    else if decide (hBurst = HBURST.Incr4) then hAddr + 8 * 2 ^ HSIZE.val hSize
    else hAddr + 16 * 2 ^ HSIZE.val hSize in
  let _last := _last / 1024 in
  if decide (_first <> _last) then Raise Incrementing_burst_crosses_1KB_boundry
  else Ok tt.

(** [hBurst in [HBURST.Incr4, HBURST.Incr8, HBURST.Incr16]] *)
Definition is_fix_incr (hBurst : HBURST.t) : bool :=
  match hBurst with
  | HBURST.Incr4 | HBURST.Incr8 | HBURST.Incr16 => true
  | _ => false
  end.

(** The dictionary of burst lengths in [_check_not_bursting]. *)
Definition _size_of (hBurst : HBURST.t) : option Z :=
  match hBurst with
  | HBURST.Incr4 | HBURST.Wrap4 => Some 4
  | HBURST.Incr8 | HBURST.Wrap8 => Some 8
  | HBURST.Incr16 | HBURST.Wrap16 => Some 16
  | _ => None
  end.

(** The list the comprehensions of [_check_not_bursting] build for a burst
    of [_size] beats, before the first element is sliced off. *)
Definition beat_addresses (_incr : bool) (_size : Z) (hAddr : Z) (hSize : HSIZE.t)
  : list Z :=
  if _incr then
    map (fun i => hAddr + i * 2 ^ HSIZE.val hSize) (range _size)
  else
    let _mod := _size * 2 ^ HSIZE.val hSize in
    let _base_addr := Z.land hAddr (Z.lnot (_mod - 1)) in
    let _offset := hAddr mod _mod in
    map (fun i => _base_addr + (_offset + i * 2 ^ HSIZE.val hSize) mod _mod)
        (range _size).

Definition _check_not_bursting (b : BurstTracker) (hAddr : Z) (hBurst : HBURST.t)
    (hSize : HSIZE.t) (hTrans : HTRANS.t) (hWrite : HWRITE.t) (hProt : HPROT.t)
  : result BurstTracker :=
  _ ← (if is_fix_incr hBurst then _check_fix_incr hAddr hBurst hSize else Ok tt);
  if decide (hBurst <> HBURST.Single) then
    let b := {| bursting := true; bursting_addresses := nil; incr_burst := false;
                burst_size := hSize; burst_type := hBurst; burst_write := hWrite;
                burst_prot := hProt |} in
    if decide (hBurst <> HBURST.Incr) then
      let _incr := is_fix_incr hBurst in
      match _size_of hBurst with
      | Some _size =>
          Ok (set_bursting_addresses
                (drop 1 (beat_addresses _incr _size hAddr hSize)) b)
      | None => Raise Key_error
      end
    else
      Ok {| bursting := true;
            bursting_addresses := (hAddr + 2 ^ HSIZE.val hSize) :: nil;
            incr_burst := true; burst_size := hSize; burst_type := hBurst;
            burst_write := hWrite; burst_prot := hProt |}
  else Ok (set_bursting false b).

(** [burst_check] calls itself once, after it has cleared [bursting]; the
    argument [depth] bounds the nesting of calls. *)
Fixpoint burst_check_rec (depth : nat) (b : BurstTracker) (hAddr : Z)
    (hBurst : HBURST.t) (hSize : HSIZE.t) (hTrans : HTRANS.t) (hWrite : HWRITE.t)
    (hProt : HPROT.t) : result BurstTracker :=
  match depth with
  | O => Raise Recursion_depth
  | S depth =>
    if negb (bursting b) && bool_decide (hTrans = HTRANS.NonSeq) then
      _check_not_bursting b hAddr hBurst hSize hTrans hWrite hProt
    else if bursting b then
      if bool_decide (hTrans = HTRANS.Idle) || bool_decide (hTrans = HTRANS.NonSeq)
      then
        burst_check_rec depth (set_bursting false b) hAddr hBurst hSize hTrans
                        hWrite hProt
      else if negb (bool_decide (List.length (bursting_addresses b) = 0%nat))
              && negb (bool_decide (Some hAddr = head (bursting_addresses b)))
      then Raise Incorrect_burst_address
      else if decide (hSize <> burst_size b) then Raise Incorrect_burst_size
      else if decide (hBurst <> burst_type b) then Raise Incorrect_burst_type
      else if decide (hWrite <> burst_write b) then Raise Incorrect_burst_operation
      else if decide (hProt <> burst_prot b) then Raise Incorrect_burst_protection
      else if decide (hTrans = HTRANS.Seq) then
        if incr_burst b then
          match bursting_addresses b with
          | _ :: rest =>
              Ok (set_bursting_addresses ((hAddr + 2 ^ HSIZE.val hSize) :: rest) b)
          | nil => Raise Index_error
          end
        else
          let b := set_bursting_addresses (drop 1 (bursting_addresses b)) b in
          if bool_decide (List.length (bursting_addresses b) = 0%nat)
          then Ok (set_bursting false b)
          else Ok b
      else Ok b
    else if bool_decide (hTrans = HTRANS.Seq) || bool_decide (hTrans = HTRANS.Busy)
    then Raise Not_in_burst_context
    else Ok b
  end.

Definition burst_check := burst_check_rec 2.

Definition exclusive_check (cfg : config) (s : state) (hAddr : Z) (hSize : HSIZE.t)
    (hProt : HPROT.t) (hBurst : HBURST.t) (hMaster : Z) (hNonsec : HNONSEC.t)
    (hExcl : HEXCL.t) (hTrans : HTRANS.t) (hWrite : HWRITE.t) : result unit :=
  let _trans_id := mkTransId hAddr hSize hProt hBurst hMaster hNonsec in
  if decide (hExcl = HEXCL.Excl) then
    if burst cfg && negb (bool_decide (hBurst = HBURST.Single)
                          || bool_decide (hBurst = HBURST.Incr))
    then Raise Exclusive_must_be_single_beat
    else if decide (hTrans = HTRANS.Busy) then Raise Exclusive_cannot_have_BUSY
    else if decide (hWrite = HWRITE.Read) then
      if decide (_trans_id ∈ transaction_set (monitor s))
      then Raise Exclusive_read_after_exclusive_read
      else Ok tt
    else Ok tt
  else Ok tt.

(** The command [put_cmd] builds from the keys it copies into its local
    dictionary; the other fields take the defaults of [ICMD]. *)
Definition latch (cfg : config) (cmd : ICMD.t) : ICMD.t :=
  {| ICMD.hAddr := ICMD.hAddr cmd;
     ICMD.hBurst := if burst cfg then ICMD.hBurst cmd else ICMD.hBurst ICMD.default;
     ICMD.hMastlock := ICMD.hMastlock ICMD.default;
     ICMD.hProt := ICMD.hProt cmd;
     ICMD.hSize := ICMD.hSize cmd;
     ICMD.hNonsec := if secure_transfer cfg then ICMD.hNonsec cmd
                     else ICMD.hNonsec ICMD.default;
     ICMD.hExcl := if exclusive_transfers cfg then ICMD.hExcl cmd
                   else ICMD.hExcl ICMD.default;
     ICMD.hMaster := if exclusive_transfers cfg then ICMD.hMaster cmd
                     else ICMD.hMaster ICMD.default;
     ICMD.hTrans := ICMD.hTrans cmd;
     ICMD.hWstrb := if write_strobe cfg then ICMD.hWstrb cmd
                    else ICMD.hWstrb ICMD.default;
     ICMD.hWrite := ICMD.hWrite cmd;
     ICMD.hSel := ICMD.hSel cmd |}.

(** [put_cmd].  The assignment [temp['hAddr'] %= self.length] comes after
    [self.input] was built from [temp], so the latched address is the
    command's own. *)
Definition put_cmd (cfg : config) (cmd : ICMD.t) (s : state) : result state :=
  let s := set_input (latch cfg cmd) s in
  if negb (is_ready s) then Ok s
  else
    let s := set_command (input s) s in
    if decide (ICMD.hSel cmd = HSEL.Sel) then
      if decide (ICMD.hAddr cmd mod 2 ^ HSIZE.val (ICMD.hSize cmd) <> 0)
      then Raise Unaligned_address
      else if decide (bus_byte_width cfg < 2 ^ HSIZE.val (ICMD.hSize cmd))
      then Raise HSIZE_greater_than_bus_width
      else
        s ← (if burst cfg then
               b ← burst_check (tracker s) (ICMD.hAddr (command s)) (ICMD.hBurst cmd)
                     (ICMD.hSize cmd) (ICMD.hTrans cmd) (ICMD.hWrite cmd)
                     (ICMD.hProt cmd);
               Ok (set_tracker b s)
             else Ok s);
        if exclusive_transfers cfg then
          _ ← exclusive_check cfg s (ICMD.hAddr (command s)) (ICMD.hSize cmd)
                (ICMD.hProt cmd)
                (if burst cfg then ICMD.hBurst cmd else HBURST.Single)
                (ICMD.hMaster cmd) (ICMD.hNonsec cmd) (ICMD.hExcl cmd)
                (ICMD.hTrans cmd) (ICMD.hWrite cmd);
          Ok s
        else Ok s
    else Ok s.

Definition put_data (data : IDATA.t) (s : state) : state :=
  set_wdata (IDATA.hWData data) s.

Definition do_reset (cfg : config) (s : state) : state :=
  let s := set_error false s in
  let s := set_mem ∅ s in
  let s := set_wait_cycles 0 s in
  let s :=
    if exclusive_transfers cfg then
      set_monitor (set_no_collision true
                     (set_transaction_set ∅
                        (set_watched_addresses ∅ (monitor s)))) s
    else s in
  set_resp SRESP.default s.

Definition process_secure_transfer (cfg : config) (s : state) : state :=
  if secure_transfer cfg then
    if negb (HTRANS.idle_or_busy (ICMD.hTrans (command s)))
       && bool_decide (ICMD.hNonsec (command s) = HNONSEC.NonSecure)
    then
      if bool_decide (ICMD.hWrite (command s) = HWRITE.Read) && negb (nonsec_read cfg)
      then set_error true s
      else if bool_decide (ICMD.hWrite (command s) = HWRITE.Write)
              && negb (nonsec_write cfg)
      then set_error true s
      else s
    else s
  else s.

(** The tuple [process_exclusive_transfer] builds from the latched command. *)
Definition trans_id_of (cfg : config) (c : ICMD.t) : TransId :=
  mkTransId (ICMD.hAddr c) (ICMD.hSize c) (ICMD.hProt c)
            (if burst cfg then ICMD.hBurst c else HBURST.Single)
            (ICMD.hMaster c) (ICMD.hNonsec c).

(** [for addr in range(lo, lo + n): watched.add(addr)] *)
Definition watch_range (lo n : Z) (w : gset Z) : gset Z :=
  fold_left (fun acc addr => {[ addr ]} ∪ acc) (seqZ lo n) w.

Definition process_exclusive_transfer (cfg : config) (s : state) : state :=
  if exclusive_transfers cfg then
    let s := set_monitor (set_no_colision (Some true) (monitor s)) s in
    if decide (ICMD.hExcl (command s) = HEXCL.Excl) then
      let _trans_id := trans_id_of cfg (command s) in
      let s :=
        if decide (ICMD.hWrite (command s) = HWRITE.Read) then
          let m := monitor s in
          let m := set_transaction_set ({[ _trans_id ]} ∪ transaction_set m) m in
          let _addr := ICMD.hAddr (command s) in
          let m := set_watched_addresses
                     (watch_range _addr (2 ^ HSIZE.val (ICMD.hSize (command s)))
                                  (watched_addresses m)) m in
          set_temp (set_t_hExOkay (Some HEXOKAY.Successful) (temp s))
                   (set_monitor m s)
        else s in
      if decide (ICMD.hWrite (command s) = HWRITE.Write) then
        let m := monitor s in
        if bool_decide (_trans_id ∉ transaction_set m)
           || bool_decide (_trans_id ∈ failed_transaction_set m)
        then
          let m := set_failed_transaction_set
                     (failed_transaction_set m ∖ {[ _trans_id ]}) m in
          set_monitor (set_no_collision false m) s
        else
          set_temp (set_t_hExOkay (Some HEXOKAY.Successful) (temp s)) s
      else s
    else s
  else s.

Definition exclusive_trans_colision_check (s : state) (_addr : Z) : bool :=
  no_collision (monitor s).

(** [_addr in range(addr, addr + 2**size)] for the address and size of a
    reservation tuple. *)
Definition covers (t : TransId) (_addr : Z) : Prop :=
  let addr := t_hAddr t in
  let size := t_hSize t in
  addr <= _addr < addr + 2 ^ HSIZE.val size.

#[global] Instance covers_dec t a : Decision (covers t a).
Proof. unfold covers. apply _. Defined.

Definition exclusive_trans_colision_update (_addr : Z) (m : ExclusiveMonitor)
  : ExclusiveMonitor :=
  let m := set_watched_addresses (watched_addresses m ∖ {[ _addr ]}) m in
  let rm := filter (fun t => covers t _addr) (transaction_set m) in
  let m := set_failed_transaction_set (failed_transaction_set m ∪ rm) m in
  set_transaction_set (transaction_set m ∖ rm) m.

(** The body of the loop of [process_write] for the byte index [i]. *)
Definition process_write_byte (cfg : config) (_offset : Z) (i : Z) (s : state)
  : state :=
  let _addr := i + ICMD.hAddr (wcommand s) in
  let _modify := if exclusive_transfers cfg
                 then exclusive_trans_colision_check s _addr else true in
  let s :=
    if exclusive_transfers cfg then
      if decide (_addr ∈ watched_addresses (monitor s))
      then set_monitor (exclusive_trans_colision_update _addr (monitor s)) s
      else s
    else s in
  if _modify then
    let _mask := 2 ^ 8 - 1 in
    let _mask :=
      if write_strobe cfg then
        _mask * (if decide (Z.land (ICMD.hWstrb (wcommand s))
                                   (Z.shiftl 1 (i + _offset)) <> 0)
                 then 1 else 0)
      else _mask in
    if bool_decide (mem s !! _addr = None) || bool_decide (_mask <> 0) then
      set_mem (<[ _addr := Z.land (Z.shiftr (wdata s) (8 * (i + _offset))) _mask ]>
                 (mem s)) s
    else s
  else s.

Definition process_write (cfg : config) (s : state) : state :=
  let s := set_process_wdata_next_cycle false s in
  let _offset := ICMD.hAddr (wcommand s) mod bus_byte_width cfg in
  for_range (2 ^ HSIZE.val (ICMD.hSize (wcommand s)))
            (process_write_byte cfg _offset) s.

(** [process].  [poisson1] and [poisson2] are the two samples the method
    may draw from the random generator, in this order. *)
Definition process (cfg : config) (poisson1 poisson2 : Z) (s : state) : state :=
  let s := set_error false s in
  let s := set_wait_cycles (Z.min poisson1 (max_wait_cycles cfg)) s in
  let t := temp s in
  let t := set_t_hRData (Some 0) t in
  let t := set_t_hResp (Some HRESP.Successful) t in
  let t := set_t_hReadyOut (Some HREADYOUT.NotReady) t in
  let t := if exclusive_transfers cfg then set_t_hExOkay (Some HEXOKAY.Failed) t
           else t in
  let s := set_temp t s in
  let s := process_secure_transfer cfg s in
  if error s then s
  else
    let s := process_exclusive_transfer cfg s in
    if HTRANS.idle_or_busy (ICMD.hTrans (command s)) then set_wait_cycles 0 s
    else if burst cfg && bool_decide (ICMD.hTrans (command s) = HTRANS.Seq)
    then set_wait_cycles (Z.min poisson2 (max_wait_cycles cfg)) s
    else s.

(** The read loop of [start]: [hRData |= data << 8*(i + offset)] for the
    bytes of the latched command. *)
Definition read_byte (cfg : config) (s : state) (i : Z) (hRData : Z) : Z :=
  let _offset := ICMD.hAddr (command s) mod bus_byte_width cfg in
  let _addr := i + ICMD.hAddr (command s) in
  let _data := mem_read (mem s) _addr in
  Z.lor hRData (Z.shiftl _data (8 * (i + _offset))).

(** One iteration of the loop of [start], from [await readonly] to
    [await clock_edge], in its four steps; [is_reset] is the value of the
    reset line.  First [hRData] is cleared and the response is copied to
    [old_resp]. *)
Definition cycle_sample (s : state) : state :=
  let s := set_temp (set_t_hRData (Some 0) (temp s)) s in
  set_old_resp (resp s) s.

(** Then the reset, or the evaluation of the latched command. *)
Definition cycle_evaluate (cfg : config) (is_reset : bool) (poisson1 poisson2 : Z)
    (s : state) : state :=
  if is_reset then do_reset cfg s
  else if is_ready s && bool_decide (ICMD.hSel (command s) = HSEL.Sel) then
    let s := if process_wdata_next_cycle s then process_write cfg s else s in
    let s := process cfg poisson1 poisson2 s in
    if error s then
      let s := set_wait_cycles 1 s in
      set_temp (set_t_hResp (Some HRESP.Failed) (set_t_hRData (Some 0) (temp s))) s
    else s
  else s.

(** Then, when the wait is over, the read data is composed or the write is
    scheduled for the next cycle. *)
Definition cycle_prepare (cfg : config) (is_reset : bool) (s : state) : state :=
  if negb is_reset && bool_decide (wait_cycles s = 0) && negb (error s)
     && negb (HTRANS.idle_or_busy (ICMD.hTrans (command s)))
  then
    if decide (ICMD.hWrite (command s) = HWRITE.Read) then
      let hRData :=
        for_range (2 ^ HSIZE.val (ICMD.hSize (command s))) (read_byte cfg s)
                  (default 0 (t_hRData (temp s))) in
      set_temp (set_t_hRData (Some hRData) (temp s)) s
    else
      set_wcommand (command s) (set_process_wdata_next_cycle true s)
  else s.

(** Last, the response is marked valid and latched, and the wait counter
    decremented. *)
Definition cycle_commit (s : state) : state :=
  let s :=
    if decide (wait_cycles s = 0)
    then set_temp (set_t_hReadyOut (Some HREADYOUT.Ready) (temp s)) s
    else s in
  let s := set_resp (SRESP_of_temp (temp s)) s in
  set_wait_cycles (wait_cycles s - 1) s.

Definition cycle (cfg : config) (is_reset : bool) (poisson1 poisson2 : Z) (s : state)
  : state :=
  cycle_commit
    (cycle_prepare cfg is_reset
       (cycle_evaluate cfg is_reset poisson1 poisson2 (cycle_sample s))).

End SimMem1PSubordinate.

(** ** drivers/SimDefaultSubordinate.py *)

Module SimDefaultSubordinate.

(** The dictionary [self.temp] of the default subordinate. *)
Record Temp := {
  t_hRData : option Z;
  t_hResp : option HRESP.t;
  t_hReadyOut : option HREADYOUT.t
}.

Record state := {
  temp : Temp;
  resp : SRESP.t;
  old_resp : SRESP.t;
  wait_cycles : Z;
  error : bool;
  input : ICMD.t;
  command : ICMD.t;
  wdata : Z;
  hready : HREADY.t
}.

Definition SRESP_of_temp (t : Temp) : SRESP.t :=
  SRESP.mk (default (SRESP.hResp SRESP.default) (t_hResp t))
           (default (SRESP.hReadyOut SRESP.default) (t_hReadyOut t))
           (SRESP.hExOkay SRESP.default)
           (default (SRESP.hRData SRESP.default) (t_hRData t)).

Definition init : state :=
  {| temp := {| t_hRData := None; t_hResp := None; t_hReadyOut := None |};
     resp := SRESP.default; old_resp := SRESP.default; wait_cycles := 0;
     error := false; input := ICMD.default; command := ICMD.default; wdata := 0;
     hready := HREADY.WaitState |}.

Definition set_ready (hReady : HREADY.t) (s : state) : state :=
  {| temp := temp s; resp := resp s; old_resp := old_resp s;
     wait_cycles := wait_cycles s; error := error s; input := input s;
     command := command s; wdata := wdata s; hready := hReady |}.

Definition is_ready (s : state) : bool := bool_decide (hready s = HREADY.Working).

Definition get_rsp (s : state) : SRESP.t := resp s.

(** The command [put_cmd] builds from the five keys it copies. *)
Definition latch (cmd : ICMD.t) : ICMD.t :=
  {| ICMD.hAddr := ICMD.hAddr cmd;
     ICMD.hBurst := ICMD.hBurst ICMD.default;
     ICMD.hMastlock := ICMD.hMastlock ICMD.default;
     ICMD.hProt := ICMD.hProt ICMD.default;
     ICMD.hSize := ICMD.hSize cmd;
     ICMD.hNonsec := ICMD.hNonsec ICMD.default;
     ICMD.hExcl := ICMD.hExcl ICMD.default;
     ICMD.hMaster := ICMD.hMaster ICMD.default;
     ICMD.hTrans := ICMD.hTrans cmd;
     ICMD.hWstrb := ICMD.hWstrb ICMD.default;
     ICMD.hWrite := ICMD.hWrite cmd;
     ICMD.hSel := ICMD.hSel cmd |}.

Definition put_cmd (bus_byte_width : Z) (cmd : ICMD.t) (s : state) : result state :=
  let s := {| temp := temp s; resp := resp s; old_resp := old_resp s;
              wait_cycles := wait_cycles s; error := error s; input := latch cmd;
              command := command s; wdata := wdata s; hready := hready s |} in
  if negb (is_ready s) then Ok s
  else
    let s := {| temp := temp s; resp := resp s; old_resp := old_resp s;
                wait_cycles := wait_cycles s; error := error s; input := input s;
                command := input s; wdata := wdata s; hready := hready s |} in
    if decide (ICMD.hSel cmd = HSEL.Sel) then
      if decide (ICMD.hAddr cmd mod 2 ^ HSIZE.val (ICMD.hSize cmd) <> 0)
      then Raise Unaligned_address
      else if decide (bus_byte_width < 2 ^ HSIZE.val (ICMD.hSize cmd))
      then Raise HSIZE_greater_than_bus_width
      else Ok s
    else Ok s.

Definition put_data (data : IDATA.t) (s : state) : state :=
  {| temp := temp s; resp := resp s; old_resp := old_resp s;
     wait_cycles := wait_cycles s; error := error s; input := input s;
     command := command s; wdata := IDATA.hWData data; hready := hready s |}.

Definition do_reset (s : state) : state :=
  {| temp := temp s; resp := SRESP.default; old_resp := old_resp s;
     wait_cycles := 0; error := false; input := input s;
     command := command s; wdata := wdata s; hready := hready s |}.

Definition process (s : state) : state :=
  let t := {| t_hRData := Some 0; t_hResp := Some HRESP.Successful;
              t_hReadyOut := t_hReadyOut (temp s) |} in
  if HTRANS.idle_or_busy (ICMD.hTrans (command s)) then
    {| temp := t; resp := resp s; old_resp := old_resp s;
       wait_cycles := 0; error := false; input := input s;
       command := command s; wdata := wdata s; hready := hready s |}
  else
    {| temp := {| t_hRData := Some 0; t_hResp := Some HRESP.Failed;
                  t_hReadyOut := t_hReadyOut (temp s) |};
       resp := resp s; old_resp := old_resp s;
       wait_cycles := 1; error := false; input := input s;
       command := command s; wdata := wdata s; hready := hready s |}.

(** One iteration of the loop of [start]. *)
Definition cycle (is_reset : bool) (s : state) : state :=
  let old := resp s in
  let s :=
    if is_reset then do_reset s
    else if is_ready s && bool_decide (ICMD.hSel (command s) = HSEL.Sel)
    then process s
    else s in
  let ready_out :=
    if decide (wait_cycles s = 0) then HREADYOUT.Ready else HREADYOUT.NotReady in
  let t := {| t_hRData := t_hRData (temp s); t_hResp := t_hResp (temp s);
              t_hReadyOut := Some ready_out |} in
  {| temp := t; resp := SRESP_of_temp t; old_resp := old;
     wait_cycles := wait_cycles s - 1; error := error s; input := input s;
     command := command s; wdata := wdata s; hready := hready s |}.

End SimDefaultSubordinate.

(** ** interconnect/SimInterconnect.py *)

Module SimInterconnect.

(** Managers and subordinates are objects used as dictionary keys; here
    they are numbered. *)
Definition manager := nat.
Definition subordinate := nat.

Module Arbiter.
Record t := {
  command_queue : list (ICMD.t * manager);
  interface : option manager
}.
Definition init : t := {| command_queue := nil; interface := None |}.
Definition queue_cmd (cmd : ICMD.t) (m : manager) (a : t) : t :=
  {| command_queue := command_queue a ++ (cmd, m) :: nil;
     interface := interface a |}.
Definition get_cmd (a : t) : (ICMD.t * option manager) * t :=
  match command_queue a with
  | (cmd, m) :: rest =>
      ((cmd, Some m), {| command_queue := rest; interface := Some m |})
  | nil =>
      ((ICMD.mk 0 HBURST.Incr HMASTLOCK.UnLocked HPROT.default HSIZE.Byte
                HNONSEC.Secure HEXCL.NonExcl 0 HTRANS.Idle 0 HWRITE.Read
                HSEL.NotSel, None),
       {| command_queue := nil; interface := None |})
  end.
(** [get_data]; [data m] is the word [hWData] that [m.get_data()] returns. *)
Definition get_data (data : manager -> Z) (a : t) : IDATA.t :=
  match interface a with
  | None => IDATA.mk 0
  | Some m => IDATA.mk (data m)
  end.
End Arbiter.

(** The part of the interconnect that [proc_cmd] reads and writes while it
    serves the ready managers. *)
Record state := {
  managers_ready : gset manager;
  managers_waiting : gset manager;
  manager_to_id : gmap manager Z;
  manager_address_map : gmap manager (list (Z * Z));
  manager_id_subordinate_map : gmap (manager * nat) subordinate;
  manager_default_subordinate : gmap manager subordinate;
  arbiters : gmap subordinate Arbiter.t
}.

(** A failed dictionary lookup. *)
Definition lookup_or_raise {A : Type} (o : option A) : result A :=
  match o with
  | Some a => Ok a
  | None => Raise Key_error
  end.

(** The scan of [get_subordinate_from_manager_cmd] over the regions from
    index [i] on. *)
Fixpoint first_region (hAddr : Z) (i : nat) (regions : list (Z * Z)) : option nat :=
  match regions with
  | nil => None
  | (addr, len) :: rest =>
      if decide (addr <= hAddr < addr + len) then Some i
      else first_region hAddr (S i) rest
  end.

Definition get_subordinate_from_manager_cmd (st : state) (m : manager) (cmd : MCMD.t)
  : result subordinate :=
  regions ← lookup_or_raise (manager_address_map st !! m);
  match first_region (MCMD.hAddr cmd) 0 regions with
  | Some i => lookup_or_raise (manager_id_subordinate_map st !! (m, i))
  | None => lookup_or_raise (manager_default_subordinate st !! m)
  end.

Definition change_manager_id (st : state) (cmd : MCMD.t) (m : manager)
  : result MCMD.t :=
  m_id ← lookup_or_raise (manager_to_id st !! m);
  let new_id := Z.lor (Z.shiftl m_id 4) (MCMD.hMaster cmd) in
  Ok (MCMD.mk (MCMD.hAddr cmd) (MCMD.hBurst cmd) (MCMD.hMastlock cmd)
              (MCMD.hProt cmd) (MCMD.hSize cmd) (MCMD.hNonsec cmd)
              (MCMD.hExcl cmd) new_id (MCMD.hTrans cmd) (MCMD.hWstrb cmd)
              (MCMD.hWrite cmd)).

(** The body of the first loop of [proc_cmd] for the manager [m], whose
    [get_cmd] returned [cmd]. *)
Definition proc_cmd_manager (cmd : MCMD.t) (m : manager) (st : state)
  : result state :=
  sub ← get_subordinate_from_manager_cmd st m cmd;
  cmd ← change_manager_id st cmd m;
  let sub_cmd := ICMD.of_mcmd cmd HSEL.Sel in
  arbiter ← lookup_or_raise (arbiters st !! sub);
  Ok {| managers_ready := managers_ready st;
        managers_waiting := {[ m ]} ∪ managers_waiting st;
        manager_to_id := manager_to_id st;
        manager_address_map := manager_address_map st;
        manager_id_subordinate_map := manager_id_subordinate_map st;
        manager_default_subordinate := manager_default_subordinate st;
        arbiters := <[ sub := Arbiter.queue_cmd sub_cmd m arbiter ]> (arbiters st) |}.

(** The first half of [proc_cmd]: the loop over the ready managers, in the
    order [order] in which the set is iterated, then
    [managers_ready -= managers_waiting].  [get_cmd m] is the command the
    manager [m] presents. *)
Fixpoint proc_cmd_loop (get_cmd : manager -> MCMD.t) (order : list manager)
    (st : state) : result state :=
  match order with
  | nil => Ok st
  | m :: rest =>
      st ← proc_cmd_manager (get_cmd m) m st;
      proc_cmd_loop get_cmd rest st
  end.

Definition proc_cmd_managers (get_cmd : manager -> MCMD.t) (order : list manager)
    (st : state) : result state :=
  st ← proc_cmd_loop get_cmd order st;
  Ok {| managers_ready := managers_ready st ∖ managers_waiting st;
        managers_waiting := managers_waiting st;
        manager_to_id := manager_to_id st;
        manager_address_map := manager_address_map st;
        manager_id_subordinate_map := manager_id_subordinate_map st;
        manager_default_subordinate := manager_default_subordinate st;
        arbiters := arbiters st |}.


(** The outcome of a method that asserts: the new state, or the assertion
    that failed. *)
Inductive assertion :=
| Manager_already_registered
| Same_interconnect_id
| Bus_width_mismatch
| Default_subordinate_bus_width
| Subordinate_already_registered
| Manager_not_registered
| Subordinate_not_registered
| Base_not_aligned_to_1KiB
| Regions_overlap
| Response_without_manager
| Loop_bound.

Inductive checked (A : Type) :=
| Done (a : A)
| AssertionError (e : assertion)
| KeyError.
Arguments Done {A} a.
Arguments AssertionError {A} e.
Arguments KeyError {A}.

#[global] Instance checked_ret : MRet checked := fun A a => Done a.

#[global] Instance checked_bind : MBind checked := fun A B k c =>
  match c with
  | Done a => k a
  | AssertionError e => AssertionError e
  | KeyError => KeyError
  end.

(** The interconnect as the registration methods see it: the part
    [proc_cmd] uses, and the identifiers, the waiting subordinates and the
    bus width besides. *)
Record registry := {
  fabric_of : state;
  manager_used_id : gset Z;
  id_to_manager : gmap Z manager;
  subordinates_waiting : gset subordinate;
  bus_width : option Z
}.

(** The interconnect after [__init__]. *)
Definition init : registry :=
  {| fabric_of := {| managers_ready := ∅; managers_waiting := ∅;
                     manager_to_id := ∅; manager_address_map := ∅;
                     manager_id_subordinate_map := ∅;
                     manager_default_subordinate := ∅; arbiters := ∅ |};
     manager_used_id := ∅; id_to_manager := ∅; subordinates_waiting := ∅;
     bus_width := None |}.

(** [while next_valid in self.id_to_manager: next_valid += 1], for at most
    [bound] tests. *)
Fixpoint next_valid_from (bound : nat) (ids : gmap Z manager) (next_valid : Z)
  : option Z :=
  match bound with
  | O => None
  | S bound =>
      if decide (is_Some (ids !! next_valid))
      then next_valid_from bound ids (next_valid + 1)
      else Some next_valid
  end.

(** The assertions of the constructor of [SimDefaultSubordinate] on the
    bus width (its length, 0x400, passes the others). *)
Definition default_subordinate_accepts (bus_width : Z) : bool :=
  bool_decide (bus_width / 8 * 8 = bus_width)
  && bool_decide (bus_width / 8 ∈ [1; 2; 4; 8; 16; 32; 64; 128]).

(** [register_manager].  [m_bus_width] is [manager.bus_width];
    [default_sub] is the [SimDefaultSubordinate] object the method
    constructs.  The call [manager.set_ready] acts on the manager. *)
Definition register_manager (m : manager) (m_bus_width : Z)
    (interconnect_id : option Z) (default_sub : subordinate) (r : registry)
  : checked registry :=
  let f := fabric_of r in
  if decide (is_Some (manager_address_map f !! m))
  then AssertionError Manager_already_registered
  else if match interconnect_id with
          | Some i => bool_decide (i ∈ manager_used_id r)
          | None => false
          end
  then AssertionError Same_interconnect_id
  else
    let used := match interconnect_id with
                | Some i => {[ i ]} ∪ manager_used_id r
                | None => manager_used_id r
                end in
    let waiting := {[ m ]} ∪ managers_waiting f in
    let regions := <[ m := nil ]> (manager_address_map f) in
    match next_valid_from (S (size (id_to_manager r))) (id_to_manager r) 0 with
    | None => AssertionError Loop_bound
    | Some next_valid =>
        let '(to_id, to_manager) :=
          match interconnect_id ≫= fun i => id_to_manager r !! i with
          | Some _manager =>
              (<[ _manager := next_valid ]> (manager_to_id f),
               <[ next_valid := _manager ]> (id_to_manager r))
          | None => (manager_to_id f, id_to_manager r)
          end in
        let next_valid := match interconnect_id with
                          | Some i => i
                          | None => next_valid
                          end in
        let to_id := <[ m := next_valid ]> to_id in
        let to_manager := <[ next_valid := m ]> to_manager in
        match (match bus_width r with
               | None => Done m_bus_width
               | Some w => if decide (w = m_bus_width) then Done w
                           else AssertionError Bus_width_mismatch
               end) with
        | AssertionError e => AssertionError e
        | KeyError => KeyError
        | Done w =>
            if default_subordinate_accepts w then
              Done {| fabric_of :=
                        {| managers_ready := managers_ready f;
                           managers_waiting := waiting;
                           manager_to_id := to_id;
                           manager_address_map := regions;
                           manager_id_subordinate_map :=
                             manager_id_subordinate_map f;
                           manager_default_subordinate :=
                             <[ m := default_sub ]> (manager_default_subordinate f);
                           arbiters := arbiters f |};
                      manager_used_id := used;
                      id_to_manager := to_manager;
                      subordinates_waiting := subordinates_waiting r;
                      bus_width := Some w |}
            else AssertionError Default_subordinate_bus_width
        end
    end.

(** [register_subordinate]; [s_bus_width] is [subordinate.bus_width]. *)
Definition register_subordinate (sub : subordinate) (s_bus_width : Z) (r : registry)
  : checked registry :=
  let f := fabric_of r in
  if decide (is_Some (arbiters f !! sub))
  then AssertionError Subordinate_already_registered
  else
    match (match bus_width r with
           | None => Done s_bus_width
           | Some w => if decide (w = s_bus_width) then Done w
                       else AssertionError Bus_width_mismatch
           end) with
    | AssertionError e => AssertionError e
    | KeyError => KeyError
    | Done w =>
        Done {| fabric_of :=
                  {| managers_ready := managers_ready f;
                     managers_waiting := managers_waiting f;
                     manager_to_id := manager_to_id f;
                     manager_address_map := manager_address_map f;
                     manager_id_subordinate_map := manager_id_subordinate_map f;
                     manager_default_subordinate := manager_default_subordinate f;
                     arbiters := <[ sub := Arbiter.init ]> (arbiters f) |};
                manager_used_id := manager_used_id r;
                id_to_manager := id_to_manager r;
                subordinates_waiting := {[ sub ]} ∪ subordinates_waiting r;
                bus_width := Some w |}
    end.

(** The test of the loop of [register_manager_subordinate_addr] for one
    registered region: neither start lies in the other range. *)
Definition apart (address size : Z) (region : Z * Z) : bool :=
  let '(_address, _size) := region in
  negb (bool_decide (_address <= address < _address + _size))
  && negb (bool_decide (address <= _address < address + size)).

Definition register_manager_subordinate_addr (m : manager) (sub : subordinate)
    (address size : Z) (r : registry) : checked registry :=
  let f := fabric_of r in
  match manager_address_map f !! m with
  | None => AssertionError Manager_not_registered
  | Some regions =>
      if decide (arbiters f !! sub = None)
      then AssertionError Subordinate_not_registered
      else if decide (address mod 1024 <> 0)
      then AssertionError Base_not_aligned_to_1KiB
      else
        let cnt := List.length regions in
        if forallb (apart address size) regions then
          Done {| fabric_of :=
                    {| managers_ready := managers_ready f;
                       managers_waiting := managers_waiting f;
                       manager_to_id := manager_to_id f;
                       manager_address_map :=
                         <[ m := regions ++ (address, size) :: nil ]>
                           (manager_address_map f);
                       manager_id_subordinate_map :=
                         <[ (m, cnt) := sub ]> (manager_id_subordinate_map f);
                       manager_default_subordinate := manager_default_subordinate f;
                       arbiters := arbiters f |};
                  manager_used_id := manager_used_id r;
                  id_to_manager := id_to_manager r;
                  subordinates_waiting := subordinates_waiting r;
                  bus_width := bus_width r |}
        else AssertionError Regions_overlap
  end.

(** [prep_default]: every default subordinate joins the waiting
    subordinates and gets an arbiter.  (Starting its coroutine and setting
    its ready flag act on the subordinate.)  [order] is the order in which
    the dictionary is iterated. *)
Definition prep_default (order : list subordinate) (r : registry) : registry :=
  fold_left
    (fun r sub =>
       let f := fabric_of r in
       {| fabric_of :=
            {| managers_ready := managers_ready f;
               managers_waiting := managers_waiting f;
               manager_to_id := manager_to_id f;
               manager_address_map := manager_address_map f;
               manager_id_subordinate_map := manager_id_subordinate_map f;
               manager_default_subordinate := manager_default_subordinate f;
               arbiters := <[ sub := Arbiter.init ]> (arbiters f) |};
          manager_used_id := manager_used_id r;
          id_to_manager := id_to_manager r;
          subordinates_waiting := {[ sub ]} ∪ subordinates_waiting r;
          bus_width := bus_width r |})
    order r.


(** The interconnect with what its [process] uses besides: the ready
    subordinates, the manager each subordinate answers to, and the
    responses collected for the managers. *)
Record interconnect := {
  registry_of : registry;
  subordinates_ready : gset subordinate;
  subordinates_manager_resp : gmap subordinate (option manager);
  rsp : gmap manager (IRESP.t * HREADY.t)
}.

Definition with_managers (ready waiting : gset manager) (f : state) : state :=
  {| managers_ready := ready; managers_waiting := waiting;
     manager_to_id := manager_to_id f;
     manager_address_map := manager_address_map f;
     manager_id_subordinate_map := manager_id_subordinate_map f;
     manager_default_subordinate := manager_default_subordinate f;
     arbiters := arbiters f |}.

Definition with_arbiters (a : gmap subordinate Arbiter.t) (f : state) : state :=
  {| managers_ready := managers_ready f; managers_waiting := managers_waiting f;
     manager_to_id := manager_to_id f;
     manager_address_map := manager_address_map f;
     manager_id_subordinate_map := manager_id_subordinate_map f;
     manager_default_subordinate := manager_default_subordinate f;
     arbiters := a |}.

Definition with_fabric (f : state) (waiting : gset subordinate) (r : registry)
  : registry :=
  {| fabric_of := f; manager_used_id := manager_used_id r;
     id_to_manager := id_to_manager r; subordinates_waiting := waiting;
     bus_width := bus_width r |}.

(** The registered interconnect when its first [process] starts. *)
Definition started (r : registry) : interconnect :=
  {| registry_of := r; subordinates_ready := ∅; subordinates_manager_resp := ∅;
     rsp := ∅ |}.

(** [do_reset]: every waiting manager and subordinate becomes ready and the
    pending responses are forgotten.  (The calls [put_rsp(IRESP())],
    [put_cmd(ICMD())] and [set_ready] act on the managers and
    subordinates.) *)
Definition do_reset (i : interconnect) : interconnect :=
  let r := registry_of i in
  let f := fabric_of r in
  let mr := managers_waiting f ∪ managers_ready f in
  let sr := subordinates_waiting r ∪ subordinates_ready i in
  {| registry_of :=
       with_fabric (with_managers mr (managers_waiting f ∖ mr) f)
                   (subordinates_waiting r ∖ sr) r;
     subordinates_ready := sr;
     subordinates_manager_resp := ∅;
     rsp := ∅ |}.

(** The first call of [process]: [prep_default], then the reset if the
    line is up. *)
Definition first_process (order : list subordinate) (is_reset : bool) (r : registry)
  : interconnect :=
  let i := started (prep_default order r) in
  if is_reset then do_reset i else i.

(** [proc_data]: the data [put_data] hands to each subordinate. *)
Definition proc_data (data : manager -> Z) (i : interconnect)
  : gmap subordinate IDATA.t :=
  Arbiter.get_data data <$> arbiters (fabric_of (registry_of i)).

(** The body of the first loop of [proc_rsp] for the subordinate [sub];
    [get_rsp sub] is what [sub.get_rsp()] returns. *)
Definition proc_rsp_subordinate (get_rsp : subordinate -> SRESP.t) (sub : subordinate)
    (i : interconnect) : checked interconnect :=
  let r := get_rsp sub in
  match subordinates_manager_resp i !! sub with
  | None => KeyError
  | Some None => AssertionError Response_without_manager
  | Some (Some m) =>
      let ready := if decide (SRESP.hReadyOut r = HREADYOUT.Ready)
                   then HREADY.Working else HREADY.WaitState in
      let collected :=
        <[ m := (IRESP.mk (SRESP.hResp r) (SRESP.hExOkay r) (SRESP.hRData r), ready) ]>
          (rsp i) in
      if decide (SRESP.hReadyOut r = HREADYOUT.Ready) then
        Done {| registry_of := registry_of i;
                subordinates_ready := {[ sub ]} ∪ subordinates_ready i;
                subordinates_manager_resp :=
                  <[ sub := None ]> (subordinates_manager_resp i);
                rsp := collected |}
      else
        Done {| registry_of := registry_of i;
                subordinates_ready := subordinates_ready i;
                subordinates_manager_resp := subordinates_manager_resp i;
                rsp := collected |}
  end.

Fixpoint proc_rsp_loop (get_rsp : subordinate -> SRESP.t) (order : list subordinate)
    (i : interconnect) : checked interconnect :=
  match order with
  | nil => Done i
  | sub :: rest =>
      i ← proc_rsp_subordinate get_rsp sub i;
      proc_rsp_loop get_rsp rest i
  end.

(** [proc_rsp], the waiting subordinates visited in the order [order]: the
    interconnect it leaves, and the dictionary [self.rsp] whose entries
    it puts to the managers ([put_rsp], and [set_ready] for the entries that
    are [Working]) before it clears it. *)
Definition proc_rsp (get_rsp : subordinate -> SRESP.t) (order : list subordinate)
    (i : interconnect) : checked (interconnect * gmap manager (IRESP.t * HREADY.t)) :=
  i ← proc_rsp_loop get_rsp order i;
  let r := registry_of i in
  let f := fabric_of r in
  let mr := dom (filter (fun e => e.2.2 = HREADY.Working) (rsp i)) ∪ managers_ready f in
  Done ({| registry_of :=
             with_fabric (with_managers mr (managers_waiting f ∖ mr) f)
                         (subordinates_waiting r ∖ subordinates_ready i) r;
           subordinates_ready := subordinates_ready i;
           subordinates_manager_resp := subordinates_manager_resp i;
           rsp := ∅ |},
        rsp i).

(** The body of the second loop of [proc_cmd] for the subordinate [sub];
    [put] collects the commands handed to the subordinates by
    [put_cmd]. *)
Definition proc_cmd_subordinate (sub : subordinate)
    (st : interconnect * gmap subordinate ICMD.t)
  : checked (interconnect * gmap subordinate ICMD.t) :=
  let i := st.1 in
  let r := registry_of i in
  let f := fabric_of r in
  match arbiters f !! sub with
  | None => KeyError
  | Some arbiter =>
      let f := with_arbiters (<[ sub := (Arbiter.get_cmd arbiter).2 ]> (arbiters f)) f in
      let put := <[ sub := (Arbiter.get_cmd arbiter).1.1 ]> st.2 in
      match (Arbiter.get_cmd arbiter).1.2 with
      | Some imanager =>
          Done ({| registry_of :=
                     with_fabric f ({[ sub ]} ∪ subordinates_waiting r) r;
                   subordinates_ready := subordinates_ready i;
                   subordinates_manager_resp :=
                     <[ sub := Some imanager ]> (subordinates_manager_resp i);
                   rsp := rsp i |}, put)
      | None =>
          Done ({| registry_of := with_fabric f (subordinates_waiting r) r;
                   subordinates_ready := subordinates_ready i;
                   subordinates_manager_resp := subordinates_manager_resp i;
                   rsp := rsp i |}, put)
      end
  end.

Fixpoint proc_cmd_subordinates (order : list subordinate)
    (st : interconnect * gmap subordinate ICMD.t)
  : checked (interconnect * gmap subordinate ICMD.t) :=
  match order with
  | nil => Done st
  | sub :: rest =>
      st ← proc_cmd_subordinate sub st;
      proc_cmd_subordinates rest st
  end.

(** [proc_cmd]: the ready managers visited in the order [managers], then
    the ready subordinates in the order [subordinates]; with the
    interconnect, the commands handed to the subordinates. *)
Definition proc_cmd (get_cmd : manager -> MCMD.t) (managers : list manager)
    (subordinates : list subordinate) (i : interconnect)
  : checked (interconnect * gmap subordinate ICMD.t) :=
  match proc_cmd_managers get_cmd managers (fabric_of (registry_of i)) with
  | Raise _ => KeyError
  | Ok f =>
      st ← proc_cmd_subordinates subordinates
             ({| registry_of :=
                   with_fabric f (subordinates_waiting (registry_of i)) (registry_of i);
                 subordinates_ready := subordinates_ready i;
                 subordinates_manager_resp := subordinates_manager_resp i;
                 rsp := rsp i |}, ∅);
      let i := st.1 in
      Done ({| registry_of := registry_of i;
               subordinates_ready :=
                 subordinates_ready i ∖ subordinates_waiting (registry_of i);
               subordinates_manager_resp := subordinates_manager_resp i;
               rsp := rsp i |}, st.2)
  end.

(** A later call of [process].  [pick_m] and [pick_s] give the order in
    which a set of managers or subordinates is iterated. *)
Definition process (pick_m : gset manager -> list manager)
    (pick_s : gset subordinate -> list subordinate)
    (get_rsp : subordinate -> SRESP.t) (get_cmd : manager -> MCMD.t)
    (is_reset : bool) (i : interconnect) : checked interconnect :=
  if is_reset then Done (do_reset i)
  else
    st ← proc_rsp get_rsp (pick_s (subordinates_waiting (registry_of i))) i;
    let i := st.1 in
    st ← proc_cmd get_cmd (pick_m (managers_ready (fabric_of (registry_of i))))
           (pick_s (subordinates_ready i)) i;
    Done st.1.

End SimInterconnect.

(** ** Specification-level definitions *)

Section Specification.

Import SimMem1PSubordinate.

(** The number of beats of a fixed-length burst, as the burst kind names it. *)
Definition beats_of (hBurst : HBURST.t) : Z :=
  match hBurst with
  | HBURST.Incr4 | HBURST.Wrap4 => 4
  | HBURST.Incr8 | HBURST.Wrap8 => 8
  | HBURST.Incr16 | HBURST.Wrap16 => 16
  | _ => 1
  end.

(** The burst address law in the words of the specification: the address of
    beat [k] of a burst that starts at [addr] with size [S]. *)
Definition incr_law (addr : Z) (S : HSIZE.t) (k : Z) : Z :=
  addr + k * 2 ^ HSIZE.val S.

Definition wrap_law (N : Z) (addr : Z) (S : HSIZE.t) (k : Z) : Z :=
  Z.land addr (Z.lnot (N * 2 ^ HSIZE.val S - 1))
  + ((addr mod (N * 2 ^ HSIZE.val S)) + k * 2 ^ HSIZE.val S) mod (N * 2 ^ HSIZE.val S).

(** The law by burst kind: the wrapping formula for Wrap4, Wrap8 and
    Wrap16, with the length the kind names, and the incrementing one for
    every other kind. *)
Definition burst_law (hBurst : HBURST.t) (addr : Z) (S : HSIZE.t) (k : Z) : Z :=
  match hBurst with
  | HBURST.Wrap4 => wrap_law 4 addr S k
  | HBURST.Wrap8 => wrap_law 8 addr S k
  | HBURST.Wrap16 => wrap_law 16 addr S k
  | HBURST.Incr4 | HBURST.Incr8 | HBURST.Incr16 => incr_law addr S k
  | HBURST.Single | HBURST.Incr => incr_law addr S k
  end.

(** The 1 KiB rule in the words of the specification: the last beat of an
    Incr-N burst lies in another 1024-byte region than the first. *)
Definition crosses_1KiB (hAddr : Z) (hBurst : HBURST.t) (hSize : HSIZE.t) : Prop :=
  (hAddr + (beats_of hBurst - 1) * 2 ^ HSIZE.val hSize) / 1024 <> hAddr / 1024.

(** The command [proc_cmd] enqueues for a manager with interconnect id
    [m_id] that presents [cmd]. *)
Definition tagged (m_id : Z) (cmd : MCMD.t) : ICMD.t :=
  {| ICMD.hAddr := MCMD.hAddr cmd;
     ICMD.hBurst := MCMD.hBurst cmd;
     ICMD.hMastlock := MCMD.hMastlock cmd;
     ICMD.hProt := MCMD.hProt cmd;
     ICMD.hSize := MCMD.hSize cmd;
     ICMD.hNonsec := MCMD.hNonsec cmd;
     ICMD.hExcl := MCMD.hExcl cmd;
     ICMD.hMaster := Z.lor (Z.shiftl m_id 4) (MCMD.hMaster cmd);
     ICMD.hTrans := MCMD.hTrans cmd;
     ICMD.hWstrb := MCMD.hWstrb cmd;
     ICMD.hWrite := MCMD.hWrite cmd;
     ICMD.hSel := HSEL.Sel |}.

(** A fabric with one manager (interconnect id 1), one subordinate mapped at
    [0x4000, 0x8000) and the manager's default subordinate. *)
Definition fabric : SimInterconnect.state :=
  {| SimInterconnect.managers_ready := {[ 0%nat ]};
     SimInterconnect.managers_waiting := ∅;
     SimInterconnect.manager_to_id := {[ 0%nat := 1 ]};
     SimInterconnect.manager_address_map := {[ 0%nat := (0x4000, 0x4000) :: nil ]};
     SimInterconnect.manager_id_subordinate_map := {[ (0%nat, 0%nat) := 0%nat ]};
     SimInterconnect.manager_default_subordinate := {[ 0%nat := 1%nat ]};
     SimInterconnect.arbiters := {[ 0%nat := SimInterconnect.Arbiter.init; 1%nat := SimInterconnect.Arbiter.init ]} |}.

Definition word_write (hAddr hMaster : Z) : MCMD.t :=
  MCMD.mk hAddr HBURST.Incr HMASTLOCK.UnLocked HPROT.default HSIZE.Word
          HNONSEC.Secure HEXCL.NonExcl hMaster HTRANS.NonSeq 15 HWRITE.Write.

(** What the interconnect and the simulator drive between two iterations of
    the loop of [start] while the latched command is held: the reset line,
    the ready flag ([set_ready]), the write data ([put_data]) and the two
    samples of the random generator. *)
Record drive := {
  d_reset : bool;
  d_hready : HREADY.t;
  d_wdata : Z;
  d_poisson1 : Z;
  d_poisson2 : Z
}.

Definition held_cycle (cfg : config) (d : drive)
    (s : state) : state :=
  cycle cfg (d_reset d) (d_poisson1 d) (d_poisson2 d)
    (put_data (IDATA.mk (d_wdata d))
       (set_ready (d_hready d) s)).

Definition run_held (cfg : config) (ds : list drive)
    (s : state) : state :=
  fold_left (fun s d => held_cycle cfg d s) ds s.

(** The secure filter denies the latched command: it is a transfer, it is
    non-secure, and its direction is not permitted. *)
Definition denied (cfg : config) (c : ICMD.t) : Prop :=
  HTRANS.idle_or_busy (ICMD.hTrans c) = false
  /\ ICMD.hNonsec c = HNONSEC.NonSecure
  /\ ((ICMD.hWrite c = HWRITE.Read /\ nonsec_read cfg = false)
      \/ (ICMD.hWrite c = HWRITE.Write
          /\ nonsec_write cfg = false)).

(** A 1 KiB memory on a 32-bit bus with the given feature switches and no
    wait states. *)
Definition mem32 (secure excl strobe bursts : bool) : config :=
  {| length := 1024;
     bus_width := 32;
     min_wait_cycles := 0;
     max_wait_cycles := 0;
     secure_transfer := secure;
     nonsec_read := false;
     nonsec_write := false;
     exclusive_transfers := excl;
     write_strobe := strobe;
     burst := bursts |}.

(** A selected NonSeq command with the default burst kind and protection. *)
Definition transfer (hAddr : Z) (hSize : HSIZE.t) (hWrite : HWRITE.t)
    (hNonsec : HNONSEC.t) (hExcl : HEXCL.t) (hWstrb : Z) : ICMD.t :=
  ICMD.mk hAddr HBURST.Incr HMASTLOCK.UnLocked HPROT.default hSize hNonsec hExcl 0
          HTRANS.NonSeq hWstrb hWrite HSEL.Sel.

(** A selected Idle command. *)
Definition idle_sel : ICMD.t :=
  ICMD.mk 0 HBURST.Incr HMASTLOCK.UnLocked HPROT.default HSIZE.Byte HNONSEC.Secure
          HEXCL.NonExcl 0 HTRANS.Idle 0 HWRITE.Read HSEL.Sel.

(** The fields a write leaves alone. *)
Definition same_control (s s' : state) : Prop :=
  resp s' = resp s /\ old_resp s' = old_resp s /\ wait_cycles s' = wait_cycles s
  /\ error s' = error s /\ wdata s' = wdata s /\ wcommand s' = wcommand s
  /\ tracker s' = tracker s /\ command s' = command s /\ input s' = input s
  /\ temp s' = temp s /\ hready s' = hready s
  /\ no_collision (monitor s') = no_collision (monitor s).

(** The fields the write path reads and writes. *)
Definition same_data (s s' : state) : Prop :=
  mem s' = mem s /\ monitor s' = monitor s /\ wcommand s' = wcommand s
  /\ wdata s' = wdata s.

(** The state of a subordinate that holds the denied command [c] after the
    cycle that denied it: no write is scheduled, the error flag is up or
    the wait counter has run below zero, and the memory is [m0] or was
    cleared by a reset. *)
Definition denial_stands (c : ICMD.t) (m0 : gmap Z Z) (s : state) : Prop :=
  command s = c
  /\ process_wdata_next_cycle s = false
  /\ (error s = true \/ wait_cycles s < 0)
  /\ (mem s = m0 \/ mem s = ∅).

(** A subordinate that is ready and holds the selected command [c]. *)
Definition holding (c : ICMD.t) (w : Z) : state :=
  set_command c (set_wdata w (set_ready HREADY.Working init)).

(** A default subordinate that is ready and holds the command [c]. *)
Definition default_holding (c : ICMD.t) : SimDefaultSubordinate.state :=
  {| SimDefaultSubordinate.temp :=
       SimDefaultSubordinate.temp SimDefaultSubordinate.init;
     SimDefaultSubordinate.resp := SRESP.default;
     SimDefaultSubordinate.old_resp := SRESP.default;
     SimDefaultSubordinate.wait_cycles := 0;
     SimDefaultSubordinate.error := false;
     SimDefaultSubordinate.input := c;
     SimDefaultSubordinate.command := c;
     SimDefaultSubordinate.wdata := 0;
     SimDefaultSubordinate.hready := HREADY.Working |}.

(** The byte lane of byte [i] of a transfer at [hAddr]: its bit offset in
    the data word. *)
Definition lane (cfg : config) (hAddr i : Z) : Z :=
  8 * (hAddr mod bus_byte_width cfg + i).

(** Whether byte [i] of the write [W] is strobed: always when the
    subordinate has no write strobes, else when bit
    [i + hAddr mod bus_byte_width] of [hWstrb] is set. *)
Definition strobed (cfg : config) (W : ICMD.t) (i : Z) : bool :=
  if write_strobe cfg then
    bool_decide (Z.land (ICMD.hWstrb W)
                        (Z.shiftl 1 (i + ICMD.hAddr W mod bus_byte_width cfg)) <> 0)
  else true.

(** Whether the write path may modify the memory: always without exclusive
    transfers, else when [no_collision] is set. *)
Definition may_modify (cfg : config) (s : state) : bool :=
  if exclusive_transfers cfg then no_collision (monitor s) else true.

(** [(hWData >> 8*(hAddr mod bus_byte_width + i)) & 0xFF] *)
Definition written_byte (cfg : config) (hWData hAddr i : Z) : Z :=
  Z.land (Z.shiftr hWData (lane cfg hAddr i)) 0xFF.

(** The bitwise or of [f i] over the indices of [l]. *)
Definition lor_sum (f : Z -> Z) (l : list Z) : Z :=
  fold_left (fun acc i => Z.lor acc (f i)) l 0.

(** The lanes of the data word that the write [W] strobes. *)
Definition strobe_mask (cfg : config) (W : ICMD.t) : Z :=
  lor_sum (fun i => if strobed cfg W i
                    then Z.shiftl 0xFF (lane cfg (ICMD.hAddr W) i) else 0)
          (range (2 ^ HSIZE.val (ICMD.hSize W))).

(** The bytes of the memory [m] under the write [W] that it does not
    strobe, each in its lane. *)
Definition kept_bytes (cfg : config) (W : ICMD.t) (m : gmap Z Z) : Z :=
  lor_sum (fun i => if strobed cfg W i then 0
                    else Z.shiftl (mem_read m (ICMD.hAddr W + i))
                                  (lane cfg (ICMD.hAddr W) i))
          (range (2 ^ HSIZE.val (ICMD.hSize W))).

(** The secure filter lets the command pass. *)
Definition permitted (cfg : config) (c : ICMD.t) : Prop :=
  secure_transfer cfg = false
  \/ ICMD.hNonsec c = HNONSEC.Secure
  \/ (ICMD.hWrite c = HWRITE.Read /\ nonsec_read cfg = true)
  \/ (ICMD.hWrite c = HWRITE.Write /\ nonsec_write cfg = true).

(** A cycle in which the subordinate is held in the wait state, without
    reset. *)
Definition waiting (d : drive) : Prop :=
  d_reset d = false /\ d_hready d = HREADY.WaitState.

(** The memory after the loop body of [process_write] for byte [i], as a
    function of the memory before. *)
Definition store_byte (cfg : config) (W : ICMD.t) (wd : Z) (modify : bool) (i : Z)
    (m : gmap Z Z) : gmap Z Z :=
  let _offset := ICMD.hAddr W mod bus_byte_width cfg in
  let _addr := i + ICMD.hAddr W in
  if modify then
    let _mask := if strobed cfg W i then 2 ^ 8 - 1 else 0 in
    if bool_decide (m !! _addr = None) || bool_decide (_mask <> 0)
    then <[ _addr := Z.land (Z.shiftr wd (8 * (i + _offset))) _mask ]> m
    else m
  else m.

(** A run on a 32-bit memory with exclusive transfers: an exclusive byte
    write at 0 for which no reservation was taken, then a non-exclusive
    byte write of 0xBB at 1, then a selected Idle, then a word read at 0.
    Every sample of the wait-state generator is 0.  The data of a write
    are put after its command was evaluated, with the next command. *)
Definition stale_flag_run : result state :=
  let cfg := mem32 false true false false in
  s ← put_cmd cfg (transfer 0 HSIZE.Byte HWRITE.Write HNONSEC.Secure HEXCL.Excl 0)
        (set_ready HREADY.Working init);
  let s := cycle cfg false 0 0 s in
  s ← put_cmd cfg (transfer 1 HSIZE.Byte HWRITE.Write HNONSEC.Secure HEXCL.NonExcl 0)
        (put_data (IDATA.mk 0xAA) s);
  let s := cycle cfg false 0 0 s in
  s ← put_cmd cfg idle_sel (put_data (IDATA.mk 0xBB00) s);
  let s := cycle cfg false 0 0 s in
  s ← put_cmd cfg (transfer 0 HSIZE.Word HWRITE.Read HNONSEC.Secure HEXCL.NonExcl 0) s;
  Ok (cycle cfg false 0 0 s).

(** The word the read loop of [start] composes for the command [c] from the
    memory [m]. *)
Definition read_word (cfg : config) (c : ICMD.t) (m : gmap Z Z) : Z :=
  lor_sum (fun i => Z.shiftl (mem_read m (i + ICMD.hAddr c))
                             (8 * (i + ICMD.hAddr c mod bus_byte_width cfg)))
          (range (2 ^ HSIZE.val (ICMD.hSize c))).

(** The wait [process] leaves in [wait_cycles] for a transfer [c] that is
    neither Idle nor Busy, from the two samples. *)
Definition sampled_wait (cfg : config) (c : ICMD.t) (poisson1 poisson2 : Z) : Z :=
  if burst cfg && bool_decide (ICMD.hTrans c = HTRANS.Seq)
  then Z.min poisson2 (max_wait_cycles cfg)
  else Z.min poisson1 (max_wait_cycles cfg).

(** A subordinate that waits [k] more cycles before it answers the command
    [c] from the memory [m]. *)
Definition answering (m : gmap Z Z) (c : ICMD.t) (k : Z) (s : state) : Prop :=
  mem s = m /\ command s = c /\ error s = false /\ wait_cycles s = k
  /\ t_hResp (temp s) = Some HRESP.Successful.

(** A 32-bit memory with write strobes and up to 25 wait states. *)
Definition strobe_mem : config :=
  {| length := 1024; bus_width := 32; min_wait_cycles := 5; max_wait_cycles := 25;
     secure_transfer := false; nonsec_read := false; nonsec_write := false;
     exclusive_transfers := false; write_strobe := true; burst := false |}.

(** A ready subordinate that has scheduled the write [W], has received
    its data [w], and holds the command [c]. *)
Definition write_pending (W : ICMD.t) (w : Z) (c : ICMD.t) : state :=
  set_wcommand W (set_process_wdata_next_cycle true (holding c w)).

(** A drive that holds the subordinate in the wait state. *)
Definition wait_state : drive :=
  {| d_reset := false; d_hready := HREADY.WaitState; d_wdata := 0;
     d_poisson1 := 0; d_poisson2 := 0 |}.

(** The reverse index, in the direction the code keeps: every address in
    the byte range of a reservation is watched. *)
Definition indexed (m : ExclusiveMonitor) : Prop :=
  forall (t : TransId) (a : Z),
    t ∈ transaction_set m -> covers t a -> a ∈ watched_addresses m.

(** The reverse index as invariant I6 words it: an address is watched if
    and only if some reservation covers it. *)
Definition exactly_indexed (m : ExclusiveMonitor) : Prop :=
  forall a : Z,
    a ∈ watched_addresses m <-> exists t, t ∈ transaction_set m /\ covers t a.

(** The states of a memory subordinate: the object after [__init__], and
    what the calls of its interface and the iterations of [start] make of
    it.  A [put_cmd] that raises ends the simulation. *)
Inductive reachable (cfg : config) : state -> Prop :=
| reach_init : reachable cfg init
| reach_init_memory (init_array : list Z) (start_address : Z) (s : state) :
    reachable cfg s -> reachable cfg (init_memory init_array start_address s)
| reach_set_ready (hReady : HREADY.t) (s : state) :
    reachable cfg s -> reachable cfg (set_ready hReady s)
| reach_put_data (data : IDATA.t) (s : state) :
    reachable cfg s -> reachable cfg (put_data data s)
| reach_put_cmd (cmd : ICMD.t) (s s' : state) :
    reachable cfg s -> put_cmd cfg cmd s = Ok s' -> reachable cfg s'
| reach_do_reset (s : state) :
    reachable cfg s -> reachable cfg (do_reset cfg s)
| reach_process (poisson1 poisson2 : Z) (s : state) :
    reachable cfg s -> reachable cfg (process cfg poisson1 poisson2 s)
| reach_process_write (s : state) :
    reachable cfg s -> reachable cfg (process_write cfg s)
| reach_cycle (is_reset : bool) (poisson1 poisson2 : Z) (s : state) :
    reachable cfg s -> reachable cfg (cycle cfg is_reset poisson1 poisson2 s).

(** The state after a [put_cmd] that returns; the state before when it
    raises. *)
Definition accept (cfg : config) (cmd : ICMD.t) (s : state) : state :=
  match put_cmd cfg cmd s with
  | Ok s' => s'
  | Raise _ => s
  end.

(** A run on a 32-bit memory with exclusive transfers: an exclusive
    halfword read at 4, then a non-exclusive byte write of 0x11 at 4, then
    a selected Idle, in whose cycle the write is applied. *)
Definition after_exclusive_read : state :=
  let cfg := mem32 false true false false in
  cycle cfg false 0 0
    (accept cfg (transfer 4 HSIZE.Halfword HWRITE.Read HNONSEC.Secure HEXCL.Excl 0)
       (set_ready HREADY.Working init)).

Definition after_colliding_write : state :=
  let cfg := mem32 false true false false in
  let s := cycle cfg false 0 0
             (accept cfg (transfer 4 HSIZE.Byte HWRITE.Write HNONSEC.Secure
                                   HEXCL.NonExcl 0)
                after_exclusive_read) in
  cycle cfg false 0 0 (accept cfg idle_sel (put_data (IDATA.mk 0x11) s)).

(** The same run with the calls of [put_cmd] as they return. *)
Definition colliding_write_run : result state :=
  let cfg := mem32 false true false false in
  s ← put_cmd cfg (transfer 4 HSIZE.Halfword HWRITE.Read HNONSEC.Secure HEXCL.Excl 0)
        (set_ready HREADY.Working init);
  let s := cycle cfg false 0 0 s in
  s ← put_cmd cfg (transfer 4 HSIZE.Byte HWRITE.Write HNONSEC.Secure HEXCL.NonExcl 0)
        s;
  let s := cycle cfg false 0 0 s in
  s ← put_cmd cfg idle_sel (put_data (IDATA.mk 0x11) s);
  Ok (cycle cfg false 0 0 s).

(** Whether a call returned rather than raised. *)
Definition returns {A : Type} (r : result A) : bool :=
  match r with
  | Ok _ => true
  | Raise _ => false
  end.

(** The Seq beats of a burst in progress, presented at the addresses
    [addrs] in order with the attributes the tracker recorded. *)
Fixpoint seq_beats (b : BurstTracker) (addrs : list Z) : result BurstTracker :=
  match addrs with
  | nil => Ok b
  | a :: rest =>
      b' ← burst_check b a (burst_type b) (burst_size b) HTRANS.Seq (burst_write b)
             (burst_prot b);
      seq_beats b' rest
  end.

(** The state in which the loop of [start] evaluates: the pending write,
    if any, has been applied. *)
Definition flushed (cfg : config) (s : state) : state :=
  if process_wdata_next_cycle s then process_write cfg s else s.

(** The reservation of the latched command is live: taken and not failed. *)
Definition live (cfg : config) (s : state) : Prop :=
  trans_id_of cfg (command s) ∈ transaction_set (monitor s)
  /\ trans_id_of cfg (command s) ∉ failed_transaction_set (monitor s).

(** The write [W] touches the address [a]. *)
Definition touches (W : ICMD.t) (a : Z) : Prop :=
  ICMD.hAddr W <= a < ICMD.hAddr W + 2 ^ HSIZE.val (ICMD.hSize W).

(** The run of [after_colliding_write] up to the cycle that schedules the
    byte write at 4. *)
Definition colliding_write_scheduled : state :=
  let cfg := mem32 false true false false in
  cycle cfg false 0 0
    (accept cfg (transfer 4 HSIZE.Byte HWRITE.Write HNONSEC.Secure HEXCL.NonExcl 0)
       after_exclusive_read).

(** [n] calls of [get_cmd] in a row: what they return, in order, and the
    arbiter they leave. *)
Fixpoint drain (n : nat) (a : SimInterconnect.Arbiter.t)
  : list (ICMD.t * option SimInterconnect.manager) * SimInterconnect.Arbiter.t :=
  match n with
  | O => (nil, a)
  | S n =>
      let '(out, a) := SimInterconnect.Arbiter.get_cmd a in
      let '(outs, a) := drain n a in
      (out :: outs, a)
  end.

(** The calls [queue_cmd(cmd, manager)] for the pairs of [l], in order. *)
Definition queue_all (l : list (ICMD.t * SimInterconnect.manager))
    (a : SimInterconnect.Arbiter.t) : SimInterconnect.Arbiter.t :=
  fold_left (fun a p => SimInterconnect.Arbiter.queue_cmd p.1 p.2 a) l a.

(** The command [get_cmd] returns on an empty queue. *)
Definition no_command : ICMD.t :=
  ICMD.mk 0 HBURST.Incr HMASTLOCK.UnLocked HPROT.default HSIZE.Byte
          HNONSEC.Secure HEXCL.NonExcl 0 HTRANS.Idle 0 HWRITE.Read HSEL.NotSel.

(** The states of a default subordinate with a bus of [bus_byte_width]
    bytes: the new object, and what the interconnect's calls and the
    iterations of the loop of [start] make of it. *)
Inductive default_reachable (bus_byte_width : Z)
  : SimDefaultSubordinate.state -> Prop :=
| default_reachable_init :
    default_reachable bus_byte_width SimDefaultSubordinate.init
| default_reachable_set_ready hReady s :
    default_reachable bus_byte_width s ->
    default_reachable bus_byte_width (SimDefaultSubordinate.set_ready hReady s)
| default_reachable_put_cmd cmd s s' :
    default_reachable bus_byte_width s ->
    SimDefaultSubordinate.put_cmd bus_byte_width cmd s = Ok s' ->
    default_reachable bus_byte_width s'
| default_reachable_put_data data s :
    default_reachable bus_byte_width s ->
    default_reachable bus_byte_width (SimDefaultSubordinate.put_data data s)
| default_reachable_cycle is_reset s :
    default_reachable bus_byte_width s ->
    default_reachable bus_byte_width (SimDefaultSubordinate.cycle is_reset s).

(** The interconnects that the registration methods build from a new
    one. *)
Inductive built : SimInterconnect.registry -> Prop :=
| built_init : built SimInterconnect.init
| built_manager m m_bus_width interconnect_id default_sub r r' :
    built r ->
    SimInterconnect.register_manager m m_bus_width interconnect_id default_sub r
    = SimInterconnect.Done r' ->
    built r'
| built_subordinate sub s_bus_width r r' :
    built r ->
    SimInterconnect.register_subordinate sub s_bus_width r = SimInterconnect.Done r' ->
    built r'
| built_region m sub address size r r' :
    built r ->
    SimInterconnect.register_manager_subordinate_addr m sub address size r
    = SimInterconnect.Done r' ->
    built r'.

(** The default subordinates of an interconnect, in the order of the
    dictionary. *)
Definition default_subordinates (r : SimInterconnect.registry)
  : list SimInterconnect.subordinate :=
  (map_to_list (SimInterconnect.manager_default_subordinate
                  (SimInterconnect.fabric_of r))).*2.

(** The registry of a registration that succeeded. *)
Definition the (c : SimInterconnect.checked SimInterconnect.registry)
  : SimInterconnect.registry :=
  match c with
  | SimInterconnect.Done r => r
  | SimInterconnect.AssertionError _ => SimInterconnect.init
  | SimInterconnect.KeyError => SimInterconnect.init
  end.

(** Two 32-bit managers 0 and 1, the second with the requested id 0, and a
    subordinate 0 mapped for manager 0 at [0x4000, 0x8000). *)
Definition one_manager : SimInterconnect.registry :=
  the (SimInterconnect.register_manager 0%nat 32 None 10%nat SimInterconnect.init).

Definition two_managers : SimInterconnect.registry :=
  the (SimInterconnect.register_manager 1%nat 32 (Some 0) 11%nat one_manager).

Definition with_subordinate : SimInterconnect.registry :=
  the (SimInterconnect.register_subordinate 0%nat 32 two_managers).

Definition with_region : SimInterconnect.registry :=
  the (SimInterconnect.register_manager_subordinate_addr 0%nat 0%nat 0x4000 0x4000
         with_subordinate).

(** The default subordinate of a 32-bit bus after a [put_cmd] that
    returns. *)
Definition default_accept (cmd : ICMD.t) (s : SimDefaultSubordinate.state)
  : SimDefaultSubordinate.state :=
  match SimDefaultSubordinate.put_cmd 4 cmd s with
  | Ok s' => s'
  | Raise _ => s
  end.

(** A fabric in which [proc_cmd] finds what it looks up: every registered
    manager has an identifier and a default subordinate with an arbiter,
    and every region of a manager has a subordinate with an arbiter. *)
Definition routable (st : SimInterconnect.state) : Prop :=
  forall m regions,
    SimInterconnect.manager_address_map st !! m = Some regions ->
    is_Some (SimInterconnect.manager_to_id st !! m)
    /\ (exists d, SimInterconnect.manager_default_subordinate st !! m = Some d
                  /\ is_Some (SimInterconnect.arbiters st !! d))
    /\ (forall i, (i < List.length regions)%nat ->
          exists sub,
            SimInterconnect.manager_id_subordinate_map st !! (m, i) = Some sub
            /\ is_Some (SimInterconnect.arbiters st !! sub)).

(** The managers with a command in the queue of an arbiter, oldest
    first. *)
Definition owners (a : SimInterconnect.Arbiter.t) : list SimInterconnect.manager :=
  (SimInterconnect.Arbiter.command_queue a).*2.

(** The response a subordinate's answer [r] becomes in [self.rsp]. *)
Definition collected (r : SRESP.t) : IRESP.t * HREADY.t :=
  (IRESP.mk (SRESP.hResp r) (SRESP.hExOkay r) (SRESP.hRData r),
   if decide (SRESP.hReadyOut r = HREADYOUT.Ready)
   then HREADY.Working else HREADY.WaitState).

(** Every waiting manager has one command outstanding.  A waiting
    subordinate serves a waiting manager, and no two serve the same one; a
    manager with a command in a queue waits, is served by no subordinate
    and has no second command in any queue; and the command of a waiting
    manager is in a queue or is being served. *)
Definition outstanding (mw : gset SimInterconnect.manager)
    (sw : gset SimInterconnect.subordinate)
    (resp : gmap SimInterconnect.subordinate (option SimInterconnect.manager))
    (arbs : gmap SimInterconnect.subordinate SimInterconnect.Arbiter.t) : Prop :=
  (forall sub, sub ∈ sw -> exists m, resp !! sub = Some (Some m) /\ m ∈ mw)
  /\ (forall sub1 sub2 m,
        sub1 ∈ sw -> sub2 ∈ sw ->
        resp !! sub1 = Some (Some m) -> resp !! sub2 = Some (Some m) -> sub1 = sub2)
  /\ (forall sub a m,
        arbs !! sub = Some a -> m ∈ owners a ->
        m ∈ mw /\ forall sub', sub' ∈ sw -> resp !! sub' <> Some (Some m))
  /\ (forall sub a, arbs !! sub = Some a -> NoDup (owners a))
  /\ (forall sub1 sub2 a1 a2 m,
        arbs !! sub1 = Some a1 -> arbs !! sub2 = Some a2 ->
        m ∈ owners a1 -> m ∈ owners a2 -> sub1 = sub2)
  /\ (forall m, m ∈ mw ->
        (exists sub a, arbs !! sub = Some a /\ m ∈ owners a)
        \/ (exists sub, sub ∈ sw /\ resp !! sub = Some (Some m))).

(** The invariant of the interconnect between two calls of [process]. *)
Definition sound (i : SimInterconnect.interconnect) : Prop :=
  let r := SimInterconnect.registry_of i in
  let f := SimInterconnect.fabric_of r in
  routable f
  /\ (forall m, m ∈ SimInterconnect.managers_ready f
                \/ m ∈ SimInterconnect.managers_waiting f ->
                is_Some (SimInterconnect.manager_address_map f !! m))
  /\ (forall sub, sub ∈ SimInterconnect.subordinates_ready i
                  \/ sub ∈ SimInterconnect.subordinates_waiting r ->
                  is_Some (SimInterconnect.arbiters f !! sub))
  /\ SimInterconnect.rsp i = ∅
  /\ SimInterconnect.managers_ready f ## SimInterconnect.managers_waiting f
  /\ SimInterconnect.subordinates_ready i ## SimInterconnect.subordinates_waiting r
  /\ outstanding (SimInterconnect.managers_waiting f)
                 (SimInterconnect.subordinates_waiting r)
                 (SimInterconnect.subordinates_manager_resp i)
                 (SimInterconnect.arbiters f).

(** The interconnect in service: it was built, its first [process] found
    the reset line up, and every later [process], whatever the managers
    and subordinates answer and in whatever order the sets are iterated,
    found it down. *)
Inductive serving : SimInterconnect.interconnect -> Prop :=
| serving_first r order :
    built r ->
    order ≡ₚ default_subordinates r ->
    serving (SimInterconnect.first_process order true r)
| serving_process pick_m pick_s get_rsp get_cmd i i' :
    (forall X, pick_m X ≡ₚ elements X) ->
    (forall X, pick_s X ≡ₚ elements X) ->
    serving i ->
    SimInterconnect.process pick_m pick_s get_rsp get_cmd false i
    = SimInterconnect.Done i' ->
    serving i'.

(** Two fabrics with the same registrations. *)
Definition same_maps (f f' : SimInterconnect.state) : Prop :=
  SimInterconnect.manager_to_id f' = SimInterconnect.manager_to_id f
  /\ SimInterconnect.manager_address_map f' = SimInterconnect.manager_address_map f
  /\ SimInterconnect.manager_id_subordinate_map f'
     = SimInterconnect.manager_id_subordinate_map f
  /\ SimInterconnect.manager_default_subordinate f'
     = SimInterconnect.manager_default_subordinate f
  /\ forall sub, is_Some (SimInterconnect.arbiters f' !! sub)
                 <-> is_Some (SimInterconnect.arbiters f !! sub).

(** The interconnect a call of [process] that returned has left. *)
Definition left_by (c : SimInterconnect.checked SimInterconnect.interconnect)
  : SimInterconnect.interconnect :=
  match c with
  | SimInterconnect.Done i => i
  | SimInterconnect.AssertionError _ => SimInterconnect.started SimInterconnect.init
  | SimInterconnect.KeyError => SimInterconnect.started SimInterconnect.init
  end.

(** The example interconnect after its first [process], which found the
    reset line up, and after one more, in which both managers present a
    word write at 0x4010 and the subordinates have nothing to answer. *)
Definition in_reset : SimInterconnect.interconnect :=
  SimInterconnect.first_process (default_subordinates with_region) true with_region.

Definition after_one_cycle : SimInterconnect.interconnect :=
  left_by (SimInterconnect.process elements elements (fun _ => SRESP.default)
             (fun _ => word_write 0x4010 3) false in_reset).

End Specification.

(** ** Theorems *)

Section Types.

(** C9, as amended: the all-defaults command records [MCMD()] and [ICMD()]
    carry the write-strobe mask 0, whatever the bus width; no strobe bit is
    set. *)
Theorem default_hWstrb_is_zero :
  MCMD.hWstrb MCMD.default = 0 /\ ICMD.hWstrb ICMD.default = 0.
Proof. split; reflexivity. Qed.

(** C9, as stated, fails: on a 32-bit bus (four byte lanes) the all-ones
    mask is 15, and the default record holds 0. *)
Lemma default_hWstrb_not_all_ones :
  let cfg := {| SimMem1PSubordinate.length := 1024;
                SimMem1PSubordinate.bus_width := 32;
                SimMem1PSubordinate.min_wait_cycles := 5;
                SimMem1PSubordinate.max_wait_cycles := 25;
                SimMem1PSubordinate.secure_transfer := false;
                SimMem1PSubordinate.nonsec_read := false;
                SimMem1PSubordinate.nonsec_write := false;
                SimMem1PSubordinate.exclusive_transfers := false;
                SimMem1PSubordinate.write_strobe := true;
                SimMem1PSubordinate.burst := false |} in
  MCMD.hWstrb MCMD.default <> 2 ^ SimMem1PSubordinate.bus_byte_width cfg - 1
  /\ ICMD.hWstrb ICMD.default <> 2 ^ SimMem1PSubordinate.bus_byte_width cfg - 1.
Proof. intros cfg. split; intros H; vm_compute in H; discriminate H. Qed.

End Types.

Section BurstTracker.

Import SimMem1PSubordinate.

Lemma pow2_size_pos (S : HSIZE.t) : 0 < 2 ^ HSIZE.val S.
Proof. destruct S; reflexivity. Qed.

Lemma range_lookup (n k : Z) :
  0 <= k < n -> range n !! Z.to_nat k = Some k.
Proof.
  intros Hk. unfold range.
  rewrite lookup_seqZ_lt by lia. f_equal. lia.
Qed.

Lemma range_length (n : Z) : List.length (range n) = Z.to_nat n.
Proof. unfold range. apply length_seqZ. Qed.

Lemma map_range_lookup (f : Z -> Z) (n k : Z) :
  0 <= k < n -> map f (range n) !! Z.to_nat k = Some (f k).
Proof.
  intros Hk. change (map f (range n)) with (f <$> range n).
  rewrite list_lookup_fmap, range_lookup by lia. reflexivity.
Qed.

(** The list the comprehension builds holds the law's address at every
    beat index. *)
Lemma beat_addresses_lookup (hBurst : HBURST.t) (N hAddr : Z) (hSize : HSIZE.t)
    (k : Z) :
  _size_of hBurst = Some N ->
  0 <= k < N ->
  beat_addresses (is_fix_incr hBurst) N hAddr hSize !! Z.to_nat k
  = Some (burst_law hBurst hAddr hSize k).
Proof.
  intros HN Hk.
  destruct hBurst; simpl in HN; try discriminate; inversion HN; subst N;
    unfold beat_addresses, burst_law, incr_law, wrap_law; cbn [is_fix_incr];
    cbv zeta; rewrite map_range_lookup by lia; reflexivity.
Qed.

Lemma beat_addresses_length (_incr : bool) (N hAddr : Z) (hSize : HSIZE.t) :
  List.length (beat_addresses _incr N hAddr hSize) = Z.to_nat N.
Proof.
  unfold beat_addresses. destruct _incr; cbv zeta;
    rewrite length_map, range_length; reflexivity.
Qed.

(** For a power of two [M], clearing the low bits and adding them back gives
    the address: beat 0 of a wrapping burst is the first address. *)
Lemma land_lnot_mod (a n : Z) :
  0 <= n -> Z.land a (Z.lnot (2 ^ n - 1)) + a mod 2 ^ n = a.
Proof.
  intros Hn.
  replace (2 ^ n - 1) with (Z.ones n) by (rewrite Z.ones_equiv; lia).
  rewrite <- Z.ldiff_land.
  rewrite Z.ldiff_ones_r by lia.
  rewrite Z.shiftr_div_pow2, Z.shiftl_mul_pow2 by lia.
  pose proof (Z.div_mod a (2 ^ n)) as H.
  assert (2 ^ n <> 0) by (apply Z.pow_nonzero; lia). lia.
Qed.

Lemma size_of_beats (hBurst : HBURST.t) (N : Z) :
  _size_of hBurst = Some N -> beats_of hBurst = N.
Proof. destruct hBurst; simpl; congruence. Qed.

Lemma burst_law_first (hBurst : HBURST.t) (hAddr : Z) (hSize : HSIZE.t) :
  burst_law hBurst hAddr hSize 0 = hAddr.
Proof.
  assert (forall N, (N = 4 \/ N = 8 \/ N = 16) -> wrap_law N hAddr hSize 0 = hAddr)
    as Hwrap.
  { intros N HN. unfold wrap_law.
    assert (exists n, 0 <= n /\ N * 2 ^ HSIZE.val hSize = 2 ^ n) as (n & Hn & ->).
    { destruct HN as [-> | [-> | ->]]; destruct hSize; simpl;
        first [ by exists 2 | by exists 3 | by exists 4 | by exists 5
              | by exists 6 | by exists 7 | by exists 8 | by exists 9
              | by exists 10 | by exists 11 ]. }
    rewrite Z.mul_0_l, Z.add_0_r, Z.mod_mod by (apply Z.pow_nonzero; lia).
    apply land_lnot_mod; lia. }
  unfold burst_law, incr_law.
  destruct hBurst; try lia; apply Hwrap; auto.
Qed.

(** What [burst_check] does on a NonSeq beat, whatever the tracker held. *)
Lemma burst_check_NonSeq (b : BurstTracker) hAddr hBurst hSize hWrite hProt :
  burst_check b hAddr hBurst hSize HTRANS.NonSeq hWrite hProt
  = _check_not_bursting (set_bursting false b) hAddr hBurst hSize HTRANS.NonSeq
                        hWrite hProt
  \/ (bursting b = false /\
      burst_check b hAddr hBurst hSize HTRANS.NonSeq hWrite hProt
      = _check_not_bursting b hAddr hBurst hSize HTRANS.NonSeq hWrite hProt).
Proof.
  unfold burst_check. destruct b as [[] ? ? ? ? ? ?]; simpl.
  - left. reflexivity.
  - right. split; reflexivity.
Qed.

(** The nested call never exceeds the depth [burst_check] allows. *)
Lemma burst_check_depth (n : nat) (b : BurstTracker) hAddr hBurst hSize hTrans
    hWrite hProt :
  burst_check_rec (S (S n)) b hAddr hBurst hSize hTrans hWrite hProt
  = burst_check b hAddr hBurst hSize hTrans hWrite hProt.
Proof.
  unfold burst_check.
  destruct b as [[] ? ? ? ? ? ?], hTrans; simpl; try reflexivity.
Qed.

End BurstTracker.

Section BurstTheorems.

Import SimMem1PSubordinate.




(** What the boundary check of the source compares: the region of the
    address 4 transfers (Incr4) or 16 transfers (any other kind) above the
    first, against the region of the first. *)
Lemma check_fix_incr_spec (hAddr : Z) (hBurst : HBURST.t) (hSize : HSIZE.t) :
  _check_fix_incr hAddr hBurst hSize = Raise Incrementing_burst_crosses_1KB_boundry
  <-> hAddr / 1024
      <> (hAddr + (if decide (hBurst = HBURST.Incr4) then 4 else 16)
                  * 2 ^ HSIZE.val hSize) / 1024.
Proof.
  unfold _check_fix_incr.
  destruct (decide (hBurst = HBURST.Incr4)); cbv zeta;
    destruct (decide _) as [H | H]; split; intros; try done.
Qed.

(** C4 fails on the code: an Incr8 word burst from 0x3C0 has its last beat
    at 0x3DC, inside the first 1 KiB region, yet [_check_fix_incr] raises,
    and so does [put_cmd] on a ready subordinate with burst tracking,
    because the second test of the chain repeats [Incr4] and the length 16
    is used for Incr8. *)
Theorem check_fix_incr_Incr8_raises_within_region :
  let cmd := ICMD.mk 0x3C0 HBURST.Incr8 HMASTLOCK.UnLocked HPROT.default
                     HSIZE.Word HNONSEC.Secure HEXCL.NonExcl 0 HTRANS.NonSeq 0
                     HWRITE.Write HSEL.Sel in
  let cfg := {| length := 1024; bus_width := 32; min_wait_cycles := 5;
                max_wait_cycles := 25; secure_transfer := false;
                nonsec_read := false; nonsec_write := false;
                exclusive_transfers := false; write_strobe := false;
                burst := true |} in
  ~ crosses_1KiB 0x3C0 HBURST.Incr8 HSIZE.Word
  /\ _check_fix_incr 0x3C0 HBURST.Incr8 HSIZE.Word
     = Raise Incrementing_burst_crosses_1KB_boundry
  /\ put_cmd cfg cmd (set_ready HREADY.Working init)
     = Raise Incrementing_burst_crosses_1KB_boundry.
Proof.
  intros cmd cfg. split; [|split].
  - unfold crosses_1KiB. intros H. apply H. reflexivity.
  - reflexivity.
  - reflexivity.
Qed.

End BurstTheorems.

Section Reset.

Import SimMem1PSubordinate.

(** C10.  With exclusive transfers enabled, [do_reset] empties the memory,
    zeroes the wait counter, empties the watched set and the reservation
    set, sets the collision flag and the response latch back to their reset
    values, and leaves the failed-reservation set as it was. *)
Theorem do_reset_frames_failed_set (cfg : config) (s : state) :
  exclusive_transfers cfg = true ->
  let s' := do_reset cfg s in
  mem s' = ∅
  /\ wait_cycles s' = 0
  /\ error s' = false
  /\ watched_addresses (monitor s') = ∅
  /\ transaction_set (monitor s') = ∅
  /\ no_collision (monitor s') = true
  /\ resp s' = SRESP.default
  /\ failed_transaction_set (monitor s') = failed_transaction_set (monitor s)
  /\ (forall t, t ∈ failed_transaction_set (monitor s) ->
                t ∈ failed_transaction_set (monitor s')).
Proof.
  intros Hex. unfold do_reset. rewrite Hex. simpl. repeat split; auto.
Qed.

(** A subordinate whose failed set holds one halfword reservation at 4
    keeps it through a reset. *)
Lemma do_reset_frames_failed_set_witness :
  let cfg := {| length := 1024; bus_width := 32; min_wait_cycles := 5;
                max_wait_cycles := 25; secure_transfer := false;
                nonsec_read := false; nonsec_write := false;
                exclusive_transfers := true; write_strobe := false;
                burst := false |} in
  let R := mkTransId 4 HSIZE.Halfword HPROT.default HBURST.Single 0
                     HNONSEC.Secure in
  let s := set_monitor (set_failed_transaction_set {[ R ]} (monitor init))
                       (set_mem (<[ 4 := 7 ]> ∅) init) in
  mem (do_reset cfg s) = ∅
  /\ failed_transaction_set (monitor (do_reset cfg s)) = {[ R ]}.
Proof.
  intros cfg R s.
  destruct (do_reset_frames_failed_set cfg s eq_refl)
    as (Hm & _ & _ & _ & _ & _ & _ & Hf & _).
  split; [exact Hm | exact Hf].
Defined.

End Reset.

Section MasterIdTagging.

Import SimInterconnect.

Lemma land_15_small (x : Z) : 0 <= x < 16 -> Z.land x 15 = x.
Proof.
  intros Hx. change 15 with (Z.ones 4).
  rewrite Z.land_ones by lia. apply Z.mod_small. lia.
Qed.

(** C5, as amended.  For a registered manager [m] with interconnect id
    [m_id] whose command decodes to the subordinate [sub], the loop body of
    [proc_cmd] appends to the tail of [sub]'s arbiter queue, owned by [m],
    the command with every field of [cmd] unchanged, [hSel = Sel], and
    [hMaster = (m_id << 4) | hMaster]: the manager's whole [hMaster] is
    or-ed in.  When [0 <= hMaster < 16] this is
    [(m_id << 4) | (hMaster & 0xF)]. *)
Theorem proc_cmd_tags_master_id (st : state) (cmd : MCMD.t) (m : manager)
    (sub : subordinate) (m_id : Z) (arbiter : Arbiter.t) :
  get_subordinate_from_manager_cmd st m cmd = Ok sub ->
  manager_to_id st !! m = Some m_id ->
  arbiters st !! sub = Some arbiter ->
  exists st',
    proc_cmd_manager cmd m st = Ok st'
    /\ arbiters st'
       = <[ sub := {| Arbiter.command_queue :=
                        Arbiter.command_queue arbiter ++ (tagged m_id cmd, m) :: nil;
                      Arbiter.interface := Arbiter.interface arbiter |} ]>
           (arbiters st)
    /\ m ∈ managers_waiting st'
    /\ ICMD.hMaster (tagged m_id cmd) = Z.lor (Z.shiftl m_id 4) (MCMD.hMaster cmd)
    /\ (0 <= MCMD.hMaster cmd < 16 ->
        ICMD.hMaster (tagged m_id cmd)
        = Z.lor (Z.shiftl m_id 4) (Z.land (MCMD.hMaster cmd) 0xF)).
Proof.
  intros Hsub Hid Harb. unfold proc_cmd_manager.
  rewrite Hsub. simpl. unfold change_manager_id. rewrite Hid. simpl.
  rewrite Harb. simpl. eexists. split; [reflexivity|]. simpl.
  split; [reflexivity|]. split; [set_solver|]. split; [reflexivity|].
  intros Hm. rewrite land_15_small by lia. reflexivity.
Qed.

Lemma proc_cmd_tags_master_id_witness :
  exists st',
    proc_cmd_manager (word_write 0x4004 3) 0%nat fabric = Ok st'
    /\ arbiters st' !! 0%nat
       = Some {| Arbiter.command_queue :=
                   (tagged 1 (word_write 0x4004 3), 0%nat) :: nil;
                 Arbiter.interface := None |}
    /\ ICMD.hMaster (tagged 1 (word_write 0x4004 3)) = 0x13.
Proof.
  destruct (proc_cmd_tags_master_id fabric (word_write 0x4004 3) 0%nat 0%nat 1
              Arbiter.init eq_refl eq_refl eq_refl)
    as (st' & Hst & Harb & _ & _ & Hlow).
  exists st'. split; [exact Hst|]. split.
  - rewrite Harb. apply lookup_insert_eq.
  - reflexivity.
Defined.

(** C5, as stated, fails: a manager with interconnect id 1 that presents
    [hMaster = 0x20] is forwarded with [hMaster = 0x30], not with
    [(1 << 4) | (0x20 & 0xF) = 0x10]; the bits above the low nibble reach
    the subordinate. *)
Lemma master_id_high_bits_forwarded :
  exists st' sub_cmd,
    proc_cmd_manager (word_write 0x4004 0x20) 0%nat fabric = Ok st'
    /\ arbiters st' !! 0%nat
       = Some {| Arbiter.command_queue := (sub_cmd, 0%nat) :: nil;
                 Arbiter.interface := None |}
    /\ ICMD.hMaster sub_cmd = 0x30
    /\ ICMD.hMaster sub_cmd
       <> Z.lor (Z.shiftl 1 4) (Z.land (MCMD.hMaster (word_write 0x4004 0x20)) 0xF).
Proof.
  eexists. exists (tagged 1 (word_write 0x4004 0x20)).
  split; [reflexivity|]. split; [|split].
  - simpl. apply lookup_insert_eq.
  - reflexivity.
  - intros H. vm_compute in H. discriminate H.
Qed.

End MasterIdTagging.

Section WritePath.

Import SimMem1PSubordinate.

Lemma for_range_ind {S : Type} (P : S -> Prop) (n : Z) (body : Z -> S -> S) (s : S) :
  P s -> (forall i s, 0 <= i < n -> P s -> P (body i s)) -> P (for_range n body s).
Proof.
  intros Hs Hbody. unfold for_range, range.
  assert (Hin : forall i, i ∈ seqZ 0 n -> 0 <= i < n).
  { intros i Hi. apply elem_of_seqZ in Hi. lia. }
  revert s Hs. induction (seqZ 0 n) as [|i l IH]; intros s Hs; simpl; [exact Hs|].
  apply IH.
  - intros j Hj. apply Hin. by right.
  - apply Hbody; [apply Hin; by left | exact Hs].
Qed.

Lemma same_control_refl (s : state) : same_control s s.
Proof. unfold same_control. repeat split. Qed.

Lemma process_write_byte_control (cfg : config) (off i : Z) (s : state) :
  same_control s (process_write_byte cfg off i s)
  /\ process_wdata_next_cycle (process_write_byte cfg off i s)
     = process_wdata_next_cycle s.
Proof.
  unfold process_write_byte, exclusive_trans_colision_check, same_control.
  destruct (exclusive_transfers cfg); [destruct (no_collision (monitor s)) eqn:Hnc|];
    repeat (match goal with
            | |- context [decide ?P] => destruct (decide P)
            | |- context [if ?b then _ else _] => destruct b
            end; simpl); repeat split; auto.
Qed.

Lemma process_write_control (cfg : config) (s : state) :
  same_control s (process_write cfg s)
  /\ process_wdata_next_cycle (process_write cfg s) = false.
Proof.
  unfold process_write.
  apply (for_range_ind
           (fun s' => same_control s s' /\ process_wdata_next_cycle s' = false)).
  - split; [|reflexivity]. unfold same_control. simpl. repeat split.
  - intros i s' _ [Hc Hp].
    destruct (process_write_byte_control cfg
                (ICMD.hAddr (wcommand (set_process_wdata_next_cycle false s))
                 mod bus_byte_width cfg) i s') as [Hc' Hp'].
    split; [|congruence].
    unfold same_control in *.
    destruct Hc as (?&?&?&?&?&?&?&?&?&?&?&?), Hc' as (?&?&?&?&?&?&?&?&?&?&?&?).
    repeat split; congruence.
Qed.

End WritePath.

Section SecureFilter.

Import SimMem1PSubordinate.

Lemma for_range_rel {S : Type} (R : S -> S -> Prop) (n : Z) (body : Z -> S -> S)
    (s s' : S) :
  R s s' -> (forall i s s', R s s' -> R (body i s) (body i s')) ->
  R (for_range n body s) (for_range n body s').
Proof.
  intros Hs Hbody. unfold for_range. revert s s' Hs.
  induction (range n) as [|i l IH]; intros s s' Hs; simpl; [exact Hs|].
  apply IH, Hbody, Hs.
Qed.

Lemma process_write_byte_data (cfg : config) (off i : Z) (s s' : state) :
  same_data s s' ->
  same_data (process_write_byte cfg off i s) (process_write_byte cfg off i s').
Proof.
  intros (Hm & Hmo & Hwc & Hwd).
  unfold process_write_byte, exclusive_trans_colision_check.
  destruct s, s'; simpl in *; subst.
  unfold same_data.
  repeat (match goal with
          | |- context [decide ?P] => destruct (decide P)
          | |- context [if ?b then _ else _] => destruct b eqn:?
          end; simpl in *; try contradiction; try congruence);
    repeat split; auto; try congruence.
Qed.

Lemma process_write_data (cfg : config) (s s' : state) :
  same_data s s' -> same_data (process_write cfg s) (process_write cfg s').
Proof.
  intros H. unfold process_write.
  destruct H as (Hm & Hmo & Hwc & Hwd).
  replace (wcommand (set_process_wdata_next_cycle false s'))
    with (wcommand (set_process_wdata_next_cycle false s)) by (simpl; congruence).
  apply for_range_rel.
  - unfold same_data. simpl. auto.
  - intros. by apply process_write_byte_data.
Qed.

Lemma process_secure_transfer_denied (cfg : config) (s : state) :
  secure_transfer cfg = true -> denied cfg (command s) ->
  process_secure_transfer cfg s = set_error true s.
Proof.
  intros Hsec (Htr & Hns & Hdir). unfold process_secure_transfer.
  rewrite Hsec, Htr, Hns. simpl.
  destruct Hdir as [[-> ->] | [-> ->]]; simpl; reflexivity.
Qed.

Lemma process_denied (cfg : config) (p1 p2 : Z) (s : state) :
  secure_transfer cfg = true -> denied cfg (command s) ->
  let s' := process cfg p1 p2 s in
  error s' = true /\ mem s' = mem s /\ monitor s' = monitor s
  /\ command s' = command s /\ wcommand s' = wcommand s
  /\ process_wdata_next_cycle s' = process_wdata_next_cycle s
  /\ hready s' = hready s
  /\ t_hReadyOut (temp s') = Some HREADYOUT.NotReady.
Proof.
  intros Hsec Hden. unfold process. cbv zeta.
  rewrite process_secure_transfer_denied by (simpl; assumption).
  simpl. repeat split. destruct (exclusive_transfers cfg); reflexivity.
Qed.

Lemma cycle_denied (cfg : config) (p1 p2 : Z) (s : state) :
  secure_transfer cfg = true ->
  is_ready s = true ->
  ICMD.hSel (command s) = HSEL.Sel ->
  denied cfg (command s) ->
  let s0 := if process_wdata_next_cycle s then process_write cfg s else s in
  let s1 := cycle cfg false p1 p2 s in
  mem s1 = mem s0 /\ monitor s1 = monitor s0 /\ command s1 = command s
  /\ error s1 = true /\ wait_cycles s1 = 0
  /\ process_wdata_next_cycle s1 = false
  /\ SRESP.hResp (resp s1) = HRESP.Failed
  /\ SRESP.hReadyOut (resp s1) = HREADYOUT.NotReady
  /\ SRESP.hRData (resp s1) = 0
  /\ t_hResp (temp s1) = Some HRESP.Failed.
Proof.
  intros Hsec Hrdy Hsel Hden s0 s1.
  set (sb := cycle_sample s).
  set (sw := if process_wdata_next_cycle sb then process_write cfg sb else sb).
  assert (Hsw : same_data s0 sw /\ same_control sb sw
                /\ process_wdata_next_cycle sw = false).
  { subst sw s0. change (process_wdata_next_cycle sb) with (process_wdata_next_cycle s).
    destruct (process_wdata_next_cycle s) eqn:Hp.
    - split; [|apply process_write_control].
      apply process_write_data. unfold same_data. simpl. auto.
    - split; [unfold same_data; simpl; auto|].
      split; [apply same_control_refl | exact Hp]. }
  destruct Hsw as ((Hm & Hmo & Hwc & Hwd) &
                   (Hr&Ho&Hw&He&_&_&Htk&Hcm&Hin&Htm&Hhr&Hnc) & Hp0).
  assert (Hden' : denied cfg (command sw)) by (rewrite Hcm; exact Hden).
  destruct (process_denied cfg p1 p2 sw Hsec Hden')
    as (Pe & Pm & Pmo & Pc & Pwc & Pp & Ph & Pt).
  assert (Hev : cycle_evaluate cfg false p1 p2 sb
                = set_temp (set_t_hResp (Some HRESP.Failed)
                              (set_t_hRData (Some 0)
                                 (temp (set_wait_cycles 1 (process cfg p1 p2 sw)))))
                           (set_wait_cycles 1 (process cfg p1 p2 sw))).
  { unfold cycle_evaluate.
    change (is_ready sb) with (is_ready s). rewrite Hrdy.
    change (command sb) with (command s). rewrite Hsel.
    rewrite bool_decide_eq_true_2 by reflexivity. cbv zeta. simpl andb. cbv iota.
    fold sw. rewrite Pe. reflexivity. }
  subst s1. unfold cycle. fold sb. rewrite Hev.
  unfold cycle_prepare. simpl. rewrite Pe. simpl.
  unfold cycle_commit. simpl.
  rewrite Pm, Pmo, Pc, Pp, Pt, Hm, Hmo, Hcm. simpl. repeat split; auto.
Qed.

Lemma held_cycle_denial_stands (cfg : config) (c : ICMD.t) (m0 : gmap Z Z)
    (d : drive) (s : state) :
  secure_transfer cfg = true ->
  ICMD.hSel c = HSEL.Sel ->
  denied cfg c ->
  denial_stands c m0 s -> denial_stands c m0 (held_cycle cfg d s).
Proof.
  intros Hsec Hsel Hden (Hc & Hp & Hew & Hm).
  unfold held_cycle.
  set (s' := put_data (IDATA.mk (d_wdata d)) (set_ready (d_hready d) s)).
  assert (Hc' : command s' = c) by exact Hc.
  assert (Hp' : process_wdata_next_cycle s' = false) by exact Hp.
  assert (Hm' : mem s' = mem s) by reflexivity.
  assert (He' : error s' = error s) by reflexivity.
  assert (Hw' : wait_cycles s' = wait_cycles s) by reflexivity.
  destruct (d_reset d) eqn:Hreset.
  - (* reset *)
    unfold denial_stands, cycle, cycle_evaluate, cycle_prepare, cycle_commit,
      do_reset.
    destruct (exclusive_transfers cfg); simpl; rewrite Hc, Hp;
      (split; [reflexivity|]); (split; [reflexivity|]);
      (split; [right; lia | right; reflexivity]).
  - destruct (is_ready s' && bool_decide (ICMD.hSel (command s') = HSEL.Sel))
      eqn:Hacc.
    + (* the command is evaluated again, and denied again *)
      apply andb_true_iff in Hacc as [Hr Hs].
      apply bool_decide_eq_true_1 in Hs.
      assert (Hden' : denied cfg (command s')) by (rewrite Hc'; exact Hden).
      destruct (cycle_denied cfg (d_poisson1 d) (d_poisson2 d) s' Hsec Hr Hs Hden')
        as (Dm & _ & Dc & De & _ & Dp & _).
      rewrite Hp' in Dm.
      unfold denial_stands. rewrite Dm, Dc, De, Dp, Hm', Hc'.
      repeat split; auto.
    + (* the subordinate is not ready: nothing is evaluated *)
      assert (Hev : cycle_evaluate cfg false (d_poisson1 d) (d_poisson2 d)
                      (cycle_sample s') = cycle_sample s').
      { unfold cycle_evaluate.
        change (is_ready (cycle_sample s')) with (is_ready s').
        change (command (cycle_sample s')) with (command s').
        rewrite Hacc. reflexivity. }
      unfold cycle. rewrite Hev.
      assert (Hpr : cycle_prepare cfg false (cycle_sample s') = cycle_sample s').
      { unfold cycle_prepare.
        change (wait_cycles (cycle_sample s')) with (wait_cycles s).
        change (error (cycle_sample s')) with (error s).
        destruct Hew as [-> | Hneg].
        - rewrite andb_false_r. reflexivity.
        - rewrite (bool_decide_eq_false_2 (wait_cycles s = 0)) by lia.
          reflexivity. }
      rewrite Hpr. unfold denial_stands, cycle_commit.
      destruct (decide (wait_cycles (cycle_sample s') = 0)); simpl;
        rewrite Hc, Hp; repeat split; auto;
        destruct Hew as [-> | Hneg]; auto; right; lia.
Qed.

Lemma run_held_denial_stands (cfg : config) (c : ICMD.t) (m0 : gmap Z Z)
    (ds : list drive) (s : state) :
  secure_transfer cfg = true ->
  ICMD.hSel c = HSEL.Sel ->
  denied cfg c ->
  denial_stands c m0 s -> denial_stands c m0 (run_held cfg ds s).
Proof.
  intros Hsec Hsel Hden. unfold run_held. revert s.
  induction ds as [|d ds IH]; intros s Hs; simpl; [exact Hs|].
  apply IH. by apply held_cycle_denial_stands.
Qed.

(** C6 (P7, secure filter).  A ready memory subordinate with the secure
    filter that holds a selected non-secure transfer of a direction the
    filter does not permit answers [hResp = Failed]; the cycle leaves the
    memory as the pending write of the previous transfer (if any) left it,
    so unchanged when none is pending; it schedules no write; and however
    the ready flag, the reset line and the write data are driven afterwards
    while the command is held, no write is scheduled and the memory stays
    as it was or is cleared by a reset: the denied write data never
    reaches it. *)
Theorem secure_filter_denies (cfg : config) (p1 p2 : Z) (s : state)
    (ds : list drive) :
  secure_transfer cfg = true ->
  is_ready s = true ->
  ICMD.hSel (command s) = HSEL.Sel ->
  denied cfg (command s) ->
  let s0 := if process_wdata_next_cycle s then process_write cfg s else s in
  let s1 := cycle cfg false p1 p2 s in
  SRESP.hResp (resp s1) = HRESP.Failed
  /\ mem s1 = mem s0
  /\ (process_wdata_next_cycle s = false -> mem s1 = mem s)
  /\ process_wdata_next_cycle s1 = false
  /\ process_wdata_next_cycle (run_held cfg ds s1) = false
  /\ (mem (run_held cfg ds s1) = mem s0 \/ mem (run_held cfg ds s1) = ∅).
Proof.
  intros Hsec Hrdy Hsel Hden s0 s1.
  destruct (cycle_denied cfg p1 p2 s Hsec Hrdy Hsel Hden)
    as (Dm & _ & Dc & De & _ & Dp & Dr & _).
  fold s0 s1 in Dm, Dc, De, Dp, Dr.
  assert (Hst : denial_stands (command s) (mem s0) s1).
  { unfold denial_stands. auto. }
  pose proof (run_held_denial_stands cfg _ _ ds s1 Hsec Hsel Hden Hst)
    as (_ & Rp & _ & Rm).
  repeat split; auto.
  intros Hp. rewrite Dm. subst s0. rewrite Hp. reflexivity.
Qed.

(** A non-secure word write of 0xDEADBEEF at 4 to a secure memory that
    permits no non-secure transfer, followed by a wait cycle and a cycle in
    which the subordinate is ready again. *)
Lemma secure_filter_denies_witness :
  let cfg := mem32 true false false false in
  let s := holding (transfer 4 HSIZE.Word HWRITE.Write HNONSEC.NonSecure
                                  HEXCL.NonExcl 15) 0 in
  let ds := {| d_reset := false; d_hready := HREADY.WaitState;
               d_wdata := 0xDEADBEEF; d_poisson1 := 0; d_poisson2 := 0 |}
            :: {| d_reset := false; d_hready := HREADY.Working;
                  d_wdata := 0xDEADBEEF; d_poisson1 := 0; d_poisson2 := 0 |}
            :: nil in
  SRESP.hResp (resp (cycle cfg false 0 0 s)) = HRESP.Failed
  /\ mem (run_held cfg ds (cycle cfg false 0 0 s)) = ∅.
Proof.
  intros cfg s ds.
  assert (Hden : denied cfg (command s)).
  { split; [reflexivity|]. split; [reflexivity|]. right. split; reflexivity. }
  destruct (secure_filter_denies cfg 0 0 s ds eq_refl eq_refl eq_refl Hden)
    as (Hr & _ & _ & _ & _ & Hm).
  split; [exact Hr | destruct Hm as [Hm | Hm]; exact Hm].
Defined.

End SecureFilter.

Section ErrorTermination.

Import SimMem1PSubordinate.

Lemma default_cycle_failed (s : SimDefaultSubordinate.state) (r2 : bool)
    (w : IDATA.t) :
  SimDefaultSubordinate.is_ready s = true ->
  ICMD.hSel (SimDefaultSubordinate.command s) = HSEL.Sel ->
  HTRANS.idle_or_busy (ICMD.hTrans (SimDefaultSubordinate.command s)) = false ->
  let s1 := SimDefaultSubordinate.cycle false s in
  let s2 := SimDefaultSubordinate.cycle r2
              (SimDefaultSubordinate.put_data w
                 (SimDefaultSubordinate.set_ready HREADY.WaitState s1)) in
  SimDefaultSubordinate.wait_cycles (SimDefaultSubordinate.process s) = 1
  /\ SimDefaultSubordinate.resp s1
     = SRESP.mk HRESP.Failed HREADYOUT.NotReady HEXOKAY.Failed 0
  /\ SimDefaultSubordinate.resp s2
     = SRESP.mk HRESP.Failed HREADYOUT.Ready HEXOKAY.Failed 0.
Proof.
  intros Hr Hs Ht.
  unfold SimDefaultSubordinate.cycle, SimDefaultSubordinate.process.
  cbn -[SimDefaultSubordinate.is_ready]. rewrite Hr, Hs, Ht.
  cbn. destruct r2; cbn; auto.
Qed.

Lemma default_cycle_idle (s : SimDefaultSubordinate.state) :
  SimDefaultSubordinate.is_ready s = true ->
  ICMD.hSel (SimDefaultSubordinate.command s) = HSEL.Sel ->
  HTRANS.idle_or_busy (ICMD.hTrans (SimDefaultSubordinate.command s)) = true ->
  SimDefaultSubordinate.wait_cycles (SimDefaultSubordinate.process s) = 0
  /\ SimDefaultSubordinate.resp (SimDefaultSubordinate.cycle false s)
     = SRESP.mk HRESP.Successful HREADYOUT.Ready HEXOKAY.Failed 0.
Proof.
  intros Hr Hs Ht.
  unfold SimDefaultSubordinate.cycle, SimDefaultSubordinate.process.
  cbn -[SimDefaultSubordinate.is_ready]. rewrite Hr, Hs, Ht.
  cbn. auto.
Qed.

Lemma cycle_evaluate_waiting (cfg : config) (p1 p2 : Z) (s : state) :
  is_ready s = false -> cycle_evaluate cfg false p1 p2 s = s.
Proof. intros H. unfold cycle_evaluate. rewrite H. reflexivity. Qed.

Lemma memory_cycle_after_denial (cfg : config) (r2 : bool) (q1 q2 : Z) (w : IDATA.t)
    (s1 : state) :
  error s1 = true -> wait_cycles s1 = 0 ->
  t_hResp (temp s1) = Some HRESP.Failed ->
  let s2 := cycle cfg r2 q1 q2 (put_data w (set_ready HREADY.WaitState s1)) in
  SRESP.hResp (resp s2) = HRESP.Failed
  /\ SRESP.hReadyOut (resp s2) = HREADYOUT.Ready.
Proof.
  intros He Hw Ht. cbv zeta. unfold cycle. destruct r2.
  - unfold cycle_evaluate, cycle_prepare, cycle_commit, do_reset.
    destruct (exclusive_transfers cfg); cbn;
      (destruct (decide _) as [_ | Hne]; [|exfalso; apply Hne; reflexivity]);
      cbn; rewrite Ht; auto.
  - rewrite cycle_evaluate_waiting by reflexivity.
    unfold cycle_prepare. cbn. rewrite He, andb_false_r. cbn.
    unfold cycle_commit. cbn. rewrite Hw.
    destruct (decide _) as [_ | Hne]; [|exfalso; apply Hne; reflexivity].
    cbn. rewrite Ht. auto.
Qed.

(** C8 (two-cycle error termination).  The default subordinate, ready and
    selected with a NonSeq or Seq transfer, answers [Failed] with
    [NotReady] (one wait cycle); held in the wait state for the following
    cycle, it answers [Failed] with [Ready].  Selected with an Idle or Busy
    transfer it answers [Successful] with [Ready] at once, with zero wait
    cycles.  The memory subordinate whose secure filter denies the latched
    transfer answers [Failed] with [NotReady], and [Failed] with [Ready] in
    the following cycle, in which it is held in the wait state. *)
Theorem two_cycle_error_termination :
  (forall (s : SimDefaultSubordinate.state) (r2 : bool) (w : IDATA.t),
      SimDefaultSubordinate.is_ready s = true ->
      ICMD.hSel (SimDefaultSubordinate.command s) = HSEL.Sel ->
      HTRANS.idle_or_busy (ICMD.hTrans (SimDefaultSubordinate.command s)) = false ->
      let s1 := SimDefaultSubordinate.cycle false s in
      let s2 := SimDefaultSubordinate.cycle r2
                  (SimDefaultSubordinate.put_data w
                     (SimDefaultSubordinate.set_ready HREADY.WaitState s1)) in
      SimDefaultSubordinate.wait_cycles (SimDefaultSubordinate.process s) = 1
      /\ SRESP.hResp (SimDefaultSubordinate.resp s1) = HRESP.Failed
      /\ SRESP.hReadyOut (SimDefaultSubordinate.resp s1) = HREADYOUT.NotReady
      /\ SRESP.hResp (SimDefaultSubordinate.resp s2) = HRESP.Failed
      /\ SRESP.hReadyOut (SimDefaultSubordinate.resp s2) = HREADYOUT.Ready)
  /\ (forall (s : SimDefaultSubordinate.state),
      SimDefaultSubordinate.is_ready s = true ->
      ICMD.hSel (SimDefaultSubordinate.command s) = HSEL.Sel ->
      HTRANS.idle_or_busy (ICMD.hTrans (SimDefaultSubordinate.command s)) = true ->
      let s1 := SimDefaultSubordinate.cycle false s in
      SimDefaultSubordinate.wait_cycles (SimDefaultSubordinate.process s) = 0
      /\ SRESP.hResp (SimDefaultSubordinate.resp s1) = HRESP.Successful
      /\ SRESP.hReadyOut (SimDefaultSubordinate.resp s1) = HREADYOUT.Ready)
  /\ (forall (cfg : config) (p1 p2 q1 q2 : Z) (r2 : bool) (w : IDATA.t) (s : state),
      secure_transfer cfg = true ->
      is_ready s = true ->
      ICMD.hSel (command s) = HSEL.Sel ->
      denied cfg (command s) ->
      let s1 := cycle cfg false p1 p2 s in
      let s2 := cycle cfg r2 q1 q2 (put_data w (set_ready HREADY.WaitState s1)) in
      SRESP.hResp (resp s1) = HRESP.Failed
      /\ SRESP.hReadyOut (resp s1) = HREADYOUT.NotReady
      /\ SRESP.hResp (resp s2) = HRESP.Failed
      /\ SRESP.hReadyOut (resp s2) = HREADYOUT.Ready).
Proof.
  split; [|split].
  - intros s r2 w Hr Hs Ht.
    destruct (default_cycle_failed s r2 w Hr Hs Ht) as (Hw & H1 & H2).
    cbv zeta. rewrite H1, H2. auto.
  - intros s Hr Hs Ht.
    destruct (default_cycle_idle s Hr Hs Ht) as (Hw & H1).
    cbv zeta. rewrite H1. auto.
  - intros cfg p1 p2 q1 q2 r2 w s Hsec Hr Hs Hden.
    destruct (cycle_denied cfg p1 p2 s Hsec Hr Hs Hden)
      as (_ & _ & _ & De & Dw & _ & Dr & Dro & _ & Dt).
    destruct (memory_cycle_after_denial cfg r2 q1 q2 w _ De Dw Dt) as (H1 & H2).
    auto.
Qed.

(** The three cases at work: a byte write to the default subordinate, a
    selected Idle, and a non-secure word read denied by a secure memory. *)
Lemma two_cycle_error_termination_witness :
  let d1 := SimDefaultSubordinate.cycle false
              (default_holding (transfer 4 HSIZE.Byte HWRITE.Write HNONSEC.Secure
                                         HEXCL.NonExcl 1)) in
  let d2 := SimDefaultSubordinate.cycle false
              (SimDefaultSubordinate.put_data (IDATA.mk 0)
                 (SimDefaultSubordinate.set_ready HREADY.WaitState d1)) in
  let i1 := SimDefaultSubordinate.cycle false (default_holding idle_sel) in
  let cfg := mem32 true false false false in
  let m1 := cycle cfg false 0 0
              (holding (transfer 8 HSIZE.Word HWRITE.Read HNONSEC.NonSecure
                                 HEXCL.NonExcl 0) 0) in
  let m2 := cycle cfg false 0 0 (put_data (IDATA.mk 0)
                                   (set_ready HREADY.WaitState m1)) in
  (SRESP.hResp (SimDefaultSubordinate.resp d1) = HRESP.Failed
   /\ SRESP.hReadyOut (SimDefaultSubordinate.resp d1) = HREADYOUT.NotReady
   /\ SRESP.hResp (SimDefaultSubordinate.resp d2) = HRESP.Failed
   /\ SRESP.hReadyOut (SimDefaultSubordinate.resp d2) = HREADYOUT.Ready)
  /\ (SRESP.hResp (SimDefaultSubordinate.resp i1) = HRESP.Successful
      /\ SRESP.hReadyOut (SimDefaultSubordinate.resp i1) = HREADYOUT.Ready)
  /\ (SRESP.hResp (resp m1) = HRESP.Failed
      /\ SRESP.hReadyOut (resp m1) = HREADYOUT.NotReady
      /\ SRESP.hResp (resp m2) = HRESP.Failed
      /\ SRESP.hReadyOut (resp m2) = HREADYOUT.Ready).
Proof.
  intros d1 d2 i1 cfg m1 m2.
  destruct two_cycle_error_termination as (Hd & Hi & Hm).
  split; [|split].
  - destruct (Hd (default_holding (transfer 4 HSIZE.Byte HWRITE.Write
                                            HNONSEC.Secure HEXCL.NonExcl 1))
                 false (IDATA.mk 0) eq_refl eq_refl eq_refl) as (_ & H).
    exact H.
  - destruct (Hi (default_holding idle_sel) eq_refl eq_refl eq_refl) as (_ & H).
    exact H.
  - assert (Hden : denied cfg (transfer 8 HSIZE.Word HWRITE.Read HNONSEC.NonSecure
                                        HEXCL.NonExcl 0)).
    { split; [reflexivity|]. split; [reflexivity|]. left. split; reflexivity. }
    exact (Hm cfg 0 0 0 0 false (IDATA.mk 0)
              (holding (transfer 8 HSIZE.Word HWRITE.Read HNONSEC.NonSecure
                                 HEXCL.NonExcl 0) 0)
              eq_refl eq_refl eq_refl Hden).
Defined.

End ErrorTermination.

Section WriteApplication.

Import SimMem1PSubordinate.

Lemma mem_read_insert (m : gmap Z Z) (a b v : Z) :
  mem_read (<[ a := v ]> m) b = if bool_decide (b = a) then v else mem_read m b.
Proof.
  unfold mem_read. case_bool_decide as H.
  - subst. rewrite lookup_insert_eq. reflexivity.
  - rewrite lookup_insert_ne by congruence. reflexivity.
Qed.

(** The loop body changes the memory as [store_byte] says. *)
Lemma process_write_byte_mem (cfg : config) (i : Z) (s : state) :
  mem (process_write_byte cfg (ICMD.hAddr (wcommand s) mod bus_byte_width cfg) i s)
  = store_byte cfg (wcommand s) (wdata s) (may_modify cfg s) i (mem s).
Proof.
  unfold process_write_byte, store_byte, exclusive_trans_colision_check, may_modify,
    strobed.
  destruct (exclusive_transfers cfg);
    [destruct (no_collision (monitor s));
     destruct (decide (_ ∈ watched_addresses (monitor s)))|];
    cbn -[Z.pow Z.mul Z.shiftl Z.land Z.shiftr Z.modulo]; try reflexivity;
    destruct (write_strobe cfg); try reflexivity;
    try (match goal with
         | |- context [decide (?x <> 0)] => destruct (decide (x <> 0)) as [Hs | Hs]
         end;
         rewrite ?(bool_decide_eq_true_2 _ Hs), ?(bool_decide_eq_false_2 _ Hs);
         rewrite ?Z.mul_1_r, ?Z.mul_0_r);
    destruct (bool_decide _ || bool_decide _); reflexivity.
Qed.

Lemma store_byte_mem_read (cfg : config) (W : ICMD.t) (wd : Z) (modify : bool)
    (i : Z) (m : gmap Z Z) (a : Z) :
  mem_read (store_byte cfg W wd modify i m) a
  = if bool_decide (a = i + ICMD.hAddr W) && modify && strobed cfg W i
    then written_byte cfg wd (ICMD.hAddr W) i
    else mem_read m a.
Proof.
  unfold store_byte, written_byte, lane. cbv zeta.
  replace (8 * (ICMD.hAddr W mod bus_byte_width cfg + i))
    with (8 * (i + ICMD.hAddr W mod bus_byte_width cfg)) by lia.
  destruct modify; [|rewrite andb_false_r; reflexivity].
  rewrite andb_true_r.
  destruct (strobed cfg W i).
  - rewrite (bool_decide_eq_true_2 (2 ^ 8 - 1 <> 0)) by done.
    rewrite orb_true_r, andb_true_r, mem_read_insert. reflexivity.
  - rewrite (bool_decide_eq_false_2 (0 <> 0)) by (intros H; apply H; reflexivity).
    rewrite orb_false_r, andb_false_r.
    case_bool_decide as Hnone; [|reflexivity].
    rewrite mem_read_insert. case_bool_decide as Ha; [|reflexivity].
    subst a. unfold mem_read. rewrite Hnone, Z.land_0_r. reflexivity.
Qed.

(** The whole loop, seen through reads of the memory: a byte of the
    transfer that is strobed is replaced by its lane of the data word when
    the write path may modify the memory; every other byte reads as
    before. *)
Lemma process_write_mem_read (cfg : config) (s : state) (a : Z) :
  let W := wcommand s in
  mem_read (mem (process_write cfg s)) a
  = if bool_decide (0 <= a - ICMD.hAddr W < 2 ^ HSIZE.val (ICMD.hSize W))
       && may_modify cfg s && strobed cfg W (a - ICMD.hAddr W)
    then written_byte cfg (wdata s) (ICMD.hAddr W) (a - ICMD.hAddr W)
    else mem_read (mem s) a.
Proof.
  cbv zeta. unfold process_write. cbv zeta.
  change (wcommand (set_process_wdata_next_cycle false s)) with (wcommand s).
  set (W := wcommand s). set (n := 2 ^ HSIZE.val (ICMD.hSize W)).
  set (s0 := set_process_wdata_next_cycle false s).
  assert (Hgen : forall l (s' : state),
    wcommand s' = W -> wdata s' = wdata s -> may_modify cfg s' = may_modify cfg s ->
    let r := fold_left (fun acc i =>
               process_write_byte cfg (ICMD.hAddr W mod bus_byte_width cfg) i acc)
               l s' in
    mem_read (mem r) a
    = if bool_decide (a - ICMD.hAddr W ∈ l) && may_modify cfg s
         && strobed cfg W (a - ICMD.hAddr W)
      then written_byte cfg (wdata s) (ICMD.hAddr W) (a - ICMD.hAddr W)
      else mem_read (mem s') a).
  { induction l as [|i l IH]; intros s' Hw Hd Hm; cbv zeta.
    - simpl. reflexivity.
    - simpl fold_left.
      destruct (process_write_byte_control cfg (ICMD.hAddr W mod bus_byte_width cfg)
                  i s') as [(_&_&_&_&Cd&Cw&_&_&_&_&_&Cn) _].
      rewrite IH; cycle 1.
      { congruence. } { congruence. }
      { unfold may_modify in *. rewrite Cn. exact Hm. }
      pose proof (process_write_byte_mem cfg i s') as Hst.
      rewrite Hw in Hst. rewrite Hst, store_byte_mem_read, Hd, Hm.
      destruct (may_modify cfg s); [|rewrite !andb_false_r; reflexivity].
      rewrite !andb_true_r.
      destruct (decide (a - ICMD.hAddr W = i)) as [Hi | Hi].
      + subst i.
        rewrite (bool_decide_eq_true_2 (a - ICMD.hAddr W ∈ (a - ICMD.hAddr W) :: l))
          by (by left).
        rewrite (bool_decide_eq_true_2 (a = a - ICMD.hAddr W + ICMD.hAddr W)) by lia.
        destruct (bool_decide _ && strobed _ _ _) eqn:E.
        * apply andb_true_iff in E as [_ ->]. reflexivity.
        * simpl. destruct (strobed cfg W (a - ICMD.hAddr W)); reflexivity.
      + rewrite (bool_decide_eq_false_2 (a = i + ICMD.hAddr W)) by lia.
        simpl.
        destruct (decide (a - ICMD.hAddr W ∈ l)) as [Hl | Hl].
        * rewrite !bool_decide_eq_true_2; [reflexivity | by right | exact Hl].
        * rewrite !bool_decide_eq_false_2; [reflexivity | | exact Hl].
          intros Hin. apply elem_of_cons in Hin as [? | ?]; congruence. }
  unfold for_range, range.
  rewrite (Hgen (seqZ 0 n) s0) by reflexivity.
  change (mem s0) with (mem s).
  destruct (decide (0 <= a - ICMD.hAddr W < n)) as [Hr | Hr].
  - rewrite !bool_decide_eq_true_2; [reflexivity | exact Hr |].
    apply elem_of_seqZ. lia.
  - rewrite !bool_decide_eq_false_2; [reflexivity | exact Hr |].
    intros Hin. apply elem_of_seqZ in Hin. lia.
Qed.

(** C1 fails on the code.  After an exclusive write whose reservation
    check failed, the non-exclusive byte write of 0xBB at address 1 is
    dropped: the following word read at 0 returns 0 and the memory holds
    nothing at 1, where the claim has [memory[1] = 0xBB].
    [process_exclusive_transfer] sets the attribute [no_colision] at the
    start of every transfer, while [process_write] reads [no_collision],
    which stays false until the next reset. *)
Theorem nonexclusive_write_dropped_after_failed_exclusive :
  exists s,
    stale_flag_run = Ok s
    /\ wcommand s
       = latch (mem32 false true false false)
               (transfer 1 HSIZE.Byte HWRITE.Write HNONSEC.Secure HEXCL.NonExcl 0)
    /\ no_collision (monitor s) = false
    /\ no_colision (monitor s) = Some true
    /\ mem s !! 1 = None
    /\ resp s = SRESP.mk HRESP.Successful HREADYOUT.Ready HEXOKAY.Failed 0
    /\ written_byte (mem32 false true false false) 0xBB00 1 0 = 0xBB.
Proof.
  eexists. split; [vm_compute; reflexivity|].
  repeat split; vm_compute; reflexivity.
Qed.

End WriteApplication.

Section RoundTrip.

Import SimMem1PSubordinate.

Lemma fold_left_lor (f : Z -> Z) (l : list Z) (acc : Z) :
  fold_left (fun acc i => Z.lor acc (f i)) l acc = Z.lor acc (lor_sum f l).
Proof.
  unfold lor_sum. revert acc. induction l as [|i l IH]; intros acc; simpl.
  - rewrite Z.lor_0_r. reflexivity.
  - rewrite IH, (IH (Z.lor 0 (f i))), Z.lor_0_l, Z.lor_assoc. reflexivity.
Qed.

Lemma lor_sum_cons (f : Z -> Z) (i : Z) (l : list Z) :
  lor_sum f (i :: l) = Z.lor (f i) (lor_sum f l).
Proof. unfold lor_sum at 1. simpl. rewrite fold_left_lor, Z.lor_0_l. reflexivity. Qed.

Lemma lor_sum_ext (f g : Z -> Z) (l : list Z) :
  (forall i, i ∈ l -> f i = g i) -> lor_sum f l = lor_sum g l.
Proof.
  induction l as [|i l IH]; intros H; [reflexivity|].
  rewrite !lor_sum_cons, IH, (H i); [reflexivity | by left |].
  intros j Hj. apply H. by right.
Qed.

Lemma lor_sum_lor (f g : Z -> Z) (l : list Z) :
  lor_sum (fun i => Z.lor (f i) (g i)) l = Z.lor (lor_sum f l) (lor_sum g l).
Proof.
  induction l as [|i l IH]; [reflexivity|].
  rewrite !lor_sum_cons, IH.
  rewrite <- !Z.lor_assoc. f_equal.
  rewrite !Z.lor_assoc. f_equal. apply Z.lor_comm.
Qed.

Lemma lor_sum_land (w : Z) (f : Z -> Z) (l : list Z) :
  lor_sum (fun i => Z.land w (f i)) l = Z.land w (lor_sum f l).
Proof.
  induction l as [|i l IH]; [symmetry; apply Z.land_0_r|].
  rewrite !lor_sum_cons, IH, Z.land_lor_distr_r. reflexivity.
Qed.

Lemma lor_sum_zero (f : Z -> Z) (l : list Z) :
  (forall i, i ∈ l -> f i = 0) -> lor_sum f l = 0.
Proof.
  induction l as [|i l IH]; intros H; [reflexivity|].
  rewrite lor_sum_cons, IH, (H i); [reflexivity | by left |].
  intros j Hj. apply H. by right.
Qed.

(** A byte taken from its lane and put back is the word masked to the
    lane. *)
Lemma byte_in_lane (w k : Z) :
  0 <= k -> Z.shiftl (Z.land (Z.shiftr w k) 0xFF) k = Z.land w (Z.shiftl 0xFF k).
Proof.
  intros Hk. apply Z.bits_inj'. intros n Hn.
  rewrite Z.land_spec.
  destruct (Z.lt_ge_cases n k) as [Hlt | Hge].
  - rewrite !Z.shiftl_spec_low by lia. rewrite andb_false_r. reflexivity.
  - rewrite !Z.shiftl_spec by lia.
    rewrite Z.land_spec, Z.shiftr_spec by lia.
    replace (n - k + k) with n by lia. reflexivity.
Qed.

Lemma in_range (n i : Z) : i ∈ range n -> 0 <= i < n.
Proof. unfold range. intros H. apply elem_of_seqZ in H. lia. Qed.

Lemma valid_bus_byte_width (cfg : config) :
  valid_config cfg -> 0 < bus_byte_width cfg.
Proof.
  intros (_ & _ & _ & Hin). simpl in Hin.
  repeat (destruct Hin as [<- | Hin]; [lia|]). contradiction.
Qed.

Lemma lane_nonneg (cfg : config) (hAddr i : Z) :
  valid_config cfg -> 0 <= i -> 0 <= lane cfg hAddr i.
Proof.
  intros Hv Hi. unfold lane.
  pose proof (valid_bus_byte_width cfg Hv).
  pose proof (Z.mod_pos_bound hAddr (bus_byte_width cfg)). lia.
Qed.

(** The read loop composes [read_word]. *)
Lemma read_loop (cfg : config) (s : state) (acc : Z) :
  for_range (2 ^ HSIZE.val (ICMD.hSize (command s))) (read_byte cfg s) acc
  = Z.lor acc (read_word cfg (command s) (mem s)).
Proof.
  unfold for_range, read_word, read_byte.
  apply (fold_left_lor
           (fun i => Z.shiftl (mem_read (mem s) (i + ICMD.hAddr (command s)))
                       (8 * (i + ICMD.hAddr (command s) mod bus_byte_width cfg)))).
Qed.

(** A read of the bytes a write has just stored: the written word in the
    strobed lanes, the former bytes in the others. *)
Lemma read_word_after_write (cfg : config) (s : state) (c : ICMD.t) :
  valid_config cfg ->
  may_modify cfg s = true ->
  ICMD.hAddr c = ICMD.hAddr (wcommand s) ->
  ICMD.hSize c = ICMD.hSize (wcommand s) ->
  read_word cfg c (mem (process_write cfg s))
  = Z.lor (Z.land (wdata s) (strobe_mask cfg (wcommand s)))
          (kept_bytes cfg (wcommand s) (mem s)).
Proof.
  intros Hv Hmod Ha Hs. unfold read_word, strobe_mask, kept_bytes.
  rewrite Ha, Hs. set (W := wcommand s).
  rewrite <- lor_sum_land, <- lor_sum_lor.
  apply lor_sum_ext. intros i Hi. apply in_range in Hi.
  rewrite process_write_mem_read. fold W.
  replace (i + ICMD.hAddr W - ICMD.hAddr W) with i by lia.
  rewrite bool_decide_eq_true_2 by lia. rewrite Hmod. simpl.
  change (8 * (i + ICMD.hAddr W mod bus_byte_width cfg))
    with (8 * (i + ICMD.hAddr W mod bus_byte_width cfg)).
  replace (8 * (i + ICMD.hAddr W mod bus_byte_width cfg))
    with (lane cfg (ICMD.hAddr W) i) by (unfold lane; lia).
  destruct (strobed cfg W i).
  - unfold written_byte. rewrite byte_in_lane by (apply lane_nonneg; [exact Hv | lia]).
    rewrite Z.lor_0_r. reflexivity.
  - rewrite Z.land_0_r, Z.lor_0_l. f_equal. f_equal. lia.
Qed.

Lemma kept_bytes_unwritten (cfg : config) (W : ICMD.t) (m : gmap Z Z) :
  (forall i, 0 <= i < 2 ^ HSIZE.val (ICMD.hSize W) -> m !! (ICMD.hAddr W + i) = None) ->
  kept_bytes cfg W m = 0.
Proof.
  intros H. unfold kept_bytes. apply lor_sum_zero. intros i Hi.
  apply in_range in Hi. destruct (strobed cfg W i); [reflexivity|].
  unfold mem_read. rewrite (H i Hi). apply Z.shiftl_0_l.
Qed.

Lemma process_secure_transfer_permitted (cfg : config) (s : state) :
  permitted cfg (command s) -> process_secure_transfer cfg s = s.
Proof.
  unfold process_secure_transfer. intros [-> | [-> | [[-> ->] | [-> ->]]]];
    [reflexivity | | |].
  - destruct (secure_transfer cfg); [|reflexivity].
    rewrite andb_false_r. reflexivity.
  - destruct (secure_transfer cfg); [|reflexivity].
    destruct (_ && _); reflexivity.
  - destruct (secure_transfer cfg); [|reflexivity].
    destruct (_ && _); reflexivity.
Qed.

(** The evaluation of a permitted transfer by a subordinate without
    exclusive transfers. *)
Lemma process_permitted (cfg : config) (p1 p2 : Z) (s : state) :
  exclusive_transfers cfg = false ->
  permitted cfg (command s) ->
  HTRANS.idle_or_busy (ICMD.hTrans (command s)) = false ->
  let s' := process cfg p1 p2 s in
  mem s' = mem s /\ command s' = command s /\ error s' = false
  /\ wait_cycles s' = sampled_wait cfg (command s) p1 p2
  /\ t_hResp (temp s') = Some HRESP.Successful
  /\ t_hRData (temp s') = Some 0.
Proof.
  intros Hex Hperm Hidle. unfold process. cbv zeta. rewrite Hex.
  rewrite process_secure_transfer_permitted by exact Hperm.
  cbn -[Z.min]. unfold process_exclusive_transfer. rewrite Hex.
  cbn -[Z.min]. rewrite Hidle. unfold sampled_wait.
  destruct (burst cfg && bool_decide (ICMD.hTrans (command s) = HTRANS.Seq));
    cbn -[Z.min]; repeat split.
Qed.

(** The end of a cycle for a read that is being answered: the word is
    composed and marked ready when the wait is over, else the wait goes
    on. *)
Lemma cycle_finish_read (cfg : config) (m : gmap Z Z) (c : ICMD.t) (k : Z)
    (s : state) :
  answering m c k s ->
  t_hRData (temp s) = Some 0 ->
  ICMD.hWrite c = HWRITE.Read ->
  HTRANS.idle_or_busy (ICMD.hTrans c) = false ->
  let s' := cycle_commit (cycle_prepare cfg false s) in
  (k = 0 ->
   SRESP.hResp (resp s') = HRESP.Successful
   /\ SRESP.hReadyOut (resp s') = HREADYOUT.Ready
   /\ SRESP.hRData (resp s') = read_word cfg c m)
  /\ (k <> 0 -> answering m c (k - 1) s').
Proof.
  intros (<- & <- & He & Hw & Hr) Hd Hrd Hidle. cbv zeta.
  unfold cycle_prepare. rewrite Hw, He, Hidle, Hrd. cbn [negb andb].
  destruct (decide (k = 0)) as [-> | Hk].
  - rewrite bool_decide_eq_true_2 by reflexivity. cbn [andb].
    destruct (decide (HWRITE.Read = HWRITE.Read)) as [_ | Hne]; [|congruence].
    cbv zeta. rewrite read_loop, Hd. cbn [default]. rewrite Z.lor_0_l.
    unfold cycle_commit. cbn. rewrite Hw.
    destruct (decide (0 = 0)) as [_ | Hne]; [|congruence].
    cbn. rewrite Hr. split; [auto | intros H; congruence].
  - rewrite bool_decide_eq_false_2 by exact Hk. cbn [andb].
    unfold cycle_commit. rewrite Hw.
    destruct (decide (k = 0)) as [? | _]; [contradiction|].
    split; [intros H; contradiction | intros _].
    unfold answering. cbn. rewrite Hw. auto.
Qed.

Lemma held_cycle_answering (cfg : config) (m : gmap Z Z) (c : ICMD.t) (k : Z)
    (d : drive) (s : state) :
  waiting d ->
  answering m c k s ->
  ICMD.hWrite c = HWRITE.Read ->
  HTRANS.idle_or_busy (ICMD.hTrans c) = false ->
  let s' := held_cycle cfg d s in
  (k = 0 ->
   SRESP.hResp (resp s') = HRESP.Successful
   /\ SRESP.hReadyOut (resp s') = HREADYOUT.Ready
   /\ SRESP.hRData (resp s') = read_word cfg c m)
  /\ (k <> 0 -> answering m c (k - 1) s').
Proof.
  intros [Hreset Hwait] Hans Hrd Hidle. cbv zeta.
  unfold held_cycle, cycle. rewrite Hreset, Hwait.
  rewrite cycle_evaluate_waiting by reflexivity.
  apply cycle_finish_read; auto.
Qed.

Lemma run_held_answering (cfg : config) (m : gmap Z Z) (c : ICMD.t)
    (ws : list drive) (k : Z) (s : state) :
  Forall waiting ws ->
  answering m c k s ->
  ICMD.hWrite c = HWRITE.Read ->
  HTRANS.idle_or_busy (ICMD.hTrans c) = false ->
  0 <= k ->
  Z.of_nat (List.length ws) = k + 1 ->
  let s' := run_held cfg ws s in
  SRESP.hResp (resp s') = HRESP.Successful
  /\ SRESP.hReadyOut (resp s') = HREADYOUT.Ready
  /\ SRESP.hRData (resp s') = read_word cfg c m.
Proof.
  intros Hws Hans Hrd Hidle. revert k s Hans.
  induction Hws as [|d ws Hd Hws IH]; intros k s Hans Hk Hlen; [simpl in Hlen; lia|].
  cbv zeta. unfold run_held. simpl fold_left. fold (run_held cfg ws (held_cycle cfg d s)).
  destruct (held_cycle_answering cfg m c k d s Hd Hans Hrd Hidle) as [H0 Hn].
  destruct (decide (k = 0)) as [-> | Hne].
  - destruct ws; [|simpl in Hlen; lia]. apply H0. reflexivity.
  - apply (IH (k - 1)); [apply Hn; exact Hne | lia |].
    simpl in Hlen. lia.
Qed.

(** The cycle in which a ready subordinate without exclusive transfers
    evaluates a permitted read: the pending write is applied first, and
    the read is answered from the memory it leaves. *)
Lemma cycle_evaluate_read (cfg : config) (p1 p2 : Z) (s : state) :
  exclusive_transfers cfg = false ->
  is_ready s = true ->
  ICMD.hSel (command s) = HSEL.Sel ->
  HTRANS.idle_or_busy (ICMD.hTrans (command s)) = false ->
  permitted cfg (command s) ->
  let s0 := if process_wdata_next_cycle s then process_write cfg s else s in
  let se := cycle_evaluate cfg false p1 p2 (cycle_sample s) in
  answering (mem s0) (command s) (sampled_wait cfg (command s) p1 p2) se
  /\ t_hRData (temp se) = Some 0.
Proof.
  intros Hex Hrdy Hsel Hidle Hperm s0 se.
  set (sb := cycle_sample s).
  set (sw := if process_wdata_next_cycle sb then process_write cfg sb else sb).
  assert (Hsw : mem sw = mem s0 /\ command sw = command s).
  { subst sw s0. change (process_wdata_next_cycle sb) with (process_wdata_next_cycle s).
    destruct (process_wdata_next_cycle s).
    - split.
      + apply (process_write_data cfg s sb). unfold same_data. simpl. auto.
      + destruct (process_write_control cfg sb) as [(_&_&_&_&_&_&_&Hc&_) _].
        exact Hc.
    - split; reflexivity. }
  destruct Hsw as [Hm Hc].
  assert (Hperm' : permitted cfg (command sw)) by (rewrite Hc; exact Hperm).
  assert (Hidle' : HTRANS.idle_or_busy (ICMD.hTrans (command sw)) = false)
    by (rewrite Hc; exact Hidle).
  destruct (process_permitted cfg p1 p2 sw Hex Hperm' Hidle')
    as (Pm & Pc & Pe & Pw & Pr & Pd).
  assert (Hev : se = process cfg p1 p2 sw).
  { subst se. unfold cycle_evaluate. fold sb.
    change (is_ready sb) with (is_ready s). rewrite Hrdy.
    change (command sb) with (command s). rewrite Hsel.
    rewrite bool_decide_eq_true_2 by reflexivity. cbv zeta. cbn [andb].
    fold sw. rewrite Pe. reflexivity. }
  rewrite Hev. unfold answering.
  rewrite Pm, Pc, Pe, Pw, Pr, Pd, Hm, Hc. repeat split.
Qed.

(** C2 (P4, write-read round trip).  A valid memory subordinate without
    exclusive transfers is ready, has scheduled a write of size S at A and
    received its data word, and holds a permitted read of size S at A.
    After the cycle that applies the write and evaluates the read, and the
    wait cycles the read was given, the response is [Successful] and
    [Ready], and its read data are the written word in the strobed lanes
    (byte [i] in lane [(A mod bus_byte_width + i)*8]; every lane of the
    transfer when the subordinate has no write strobes) together with the
    former memory bytes in the lanes that are not strobed; when the bytes
    of the transfer had never been written, these read as zero and the
    read data are the written word masked by the strobes. *)
Theorem write_read_round_trip (cfg : config) (p1 p2 : Z) (s : state)
    (ws : list drive) :
  valid_config cfg ->
  exclusive_transfers cfg = false ->
  is_ready s = true ->
  process_wdata_next_cycle s = true ->
  ICMD.hSel (command s) = HSEL.Sel ->
  ICMD.hWrite (command s) = HWRITE.Read ->
  HTRANS.idle_or_busy (ICMD.hTrans (command s)) = false ->
  ICMD.hAddr (command s) = ICMD.hAddr (wcommand s) ->
  ICMD.hSize (command s) = ICMD.hSize (wcommand s) ->
  permitted cfg (command s) ->
  Forall waiting ws ->
  Z.of_nat (List.length ws) = sampled_wait cfg (command s) p1 p2 ->
  let W := wcommand s in
  let r := resp (run_held cfg ws (cycle cfg false p1 p2 s)) in
  SRESP.hResp r = HRESP.Successful
  /\ SRESP.hReadyOut r = HREADYOUT.Ready
  /\ SRESP.hRData r
     = Z.lor (Z.land (wdata s) (strobe_mask cfg W)) (kept_bytes cfg W (mem s))
  /\ ((forall i, 0 <= i < 2 ^ HSIZE.val (ICMD.hSize W) ->
                 mem s !! (ICMD.hAddr W + i) = None) ->
      SRESP.hRData r = Z.land (wdata s) (strobe_mask cfg W)).
Proof.
  intros Hv Hex Hrdy Hp Hsel Hrd Hidle Ha Hs Hperm Hws Hlen W r.
  destruct (cycle_evaluate_read cfg p1 p2 s Hex Hrdy Hsel Hidle Hperm) as [Hans Hd].
  rewrite Hp in Hans.
  set (n := sampled_wait cfg (command s) p1 p2) in *.
  destruct (cycle_finish_read cfg _ _ _ _ Hans Hd Hrd Hidle) as [H0 Hn].
  fold (cycle cfg false p1 p2 s) in H0, Hn.
  assert (Hword : read_word cfg (command s) (mem (process_write cfg s))
                  = Z.lor (Z.land (wdata s) (strobe_mask cfg W))
                          (kept_bytes cfg W (mem s))).
  { apply read_word_after_write; auto. unfold may_modify. rewrite Hex. reflexivity. }
  assert (Hr : SRESP.hResp r = HRESP.Successful
               /\ SRESP.hReadyOut r = HREADYOUT.Ready
               /\ SRESP.hRData r
                  = read_word cfg (command s) (mem (process_write cfg s))).
  { subst r. destruct (decide (n = 0)) as [Hz | Hz].
    - destruct ws; [|simpl in Hlen; lia]. apply H0. exact Hz.
    - apply (run_held_answering cfg _ _ ws (n - 1)); auto; try lia. }
  destruct Hr as (R1 & R2 & R3). rewrite Hword in R3.
  repeat split; auto.
  intros Hnone. rewrite R3, kept_bytes_unwritten by exact Hnone.
  apply Z.lor_0_r.
Qed.

Lemma strobe_mem_valid : valid_config strobe_mem.
Proof.
  unfold valid_config. repeat split; try reflexivity.
  simpl. right. right. left. reflexivity.
Qed.

(** A word write of 0x55AA55AA at 4 with the strobes 0xA, read back as a
    word after two wait cycles: lanes 1 and 3 of the written word. *)
Lemma write_read_round_trip_witness :
  let W := transfer 4 HSIZE.Word HWRITE.Write HNONSEC.Secure HEXCL.NonExcl 0xA in
  let R := transfer 4 HSIZE.Word HWRITE.Read HNONSEC.Secure HEXCL.NonExcl 0 in
  let s := write_pending W 0x55AA55AA R in
  SRESP.hRData
    (resp (run_held strobe_mem (wait_state :: wait_state :: nil)
             (cycle strobe_mem false 2 0 s)))
  = Z.land 0x55AA55AA (strobe_mask strobe_mem W).
Proof.
  intros W R s.
  assert (Hperm : permitted strobe_mem (command s)) by (left; reflexivity).
  assert (Hws : Forall waiting (wait_state :: wait_state :: nil)).
  { repeat constructor. }
  destruct (write_read_round_trip strobe_mem 2 0 s (wait_state :: wait_state :: nil)
              strobe_mem_valid eq_refl eq_refl eq_refl eq_refl eq_refl eq_refl
              eq_refl eq_refl Hperm Hws eq_refl) as (_ & _ & _ & H).
  apply H. intros i _. reflexivity.
Defined.

End RoundTrip.

Section ExclusiveMonitorIndex.

Import SimMem1PSubordinate.

Lemma watch_range_elem (lo n : Z) (w : gset Z) (a : Z) :
  a ∈ watch_range lo n w <-> lo <= a < lo + n \/ a ∈ w.
Proof.
  unfold watch_range.
  assert (H : forall l (w' : gset Z),
             a ∈ fold_left (fun acc addr => {[ addr ]} ∪ acc) l w'
             <-> a ∈ l \/ a ∈ w').
  { induction l as [|x l IH]; intros w'; simpl.
    - split; [auto | intros [H | H]; [by apply not_elem_of_nil in H | exact H]].
    - rewrite IH, elem_of_cons, elem_of_union, elem_of_singleton. tauto. }
  rewrite H, elem_of_seqZ. tauto.
Qed.

Lemma indexed_init : indexed (monitor init).
Proof. intros t a Ht _. simpl in Ht. set_solver. Qed.

Lemma indexed_do_reset (cfg : config) (s : state) :
  indexed (monitor s) -> indexed (monitor (do_reset cfg s)).
Proof.
  intros H. unfold do_reset. destruct (exclusive_transfers cfg); simpl; [|exact H].
  intros t a Ht _. simpl in Ht. set_solver.
Qed.

Lemma indexed_process_exclusive_transfer (cfg : config) (s : state) :
  indexed (monitor s) -> indexed (monitor (process_exclusive_transfer cfg s)).
Proof.
  intros H. unfold process_exclusive_transfer.
  destruct (exclusive_transfers cfg); [|exact H].
  cbn [monitor set_monitor command].
  destruct (decide (ICMD.hExcl (command s) = HEXCL.Excl)); [|exact H].
  cbv zeta.
  destruct (decide (ICMD.hWrite (command s) = HWRITE.Read)) as [Hr | Hr].
  - cbn. rewrite Hr.
    destruct (decide (HWRITE.Read = HWRITE.Write)) as [? | _]; [congruence|].
    cbn. intros t a Ht Hc. cbn in Ht |- *.
    apply watch_range_elem.
    apply elem_of_union in Ht as [Ht | Ht].
    + apply elem_of_singleton in Ht. subst t. left.
      unfold trans_id_of, covers in Hc. exact Hc.
    + right. exact (H t a Ht Hc).
  - cbn [command set_monitor monitor].
    destruct (decide (ICMD.hWrite (command s) = HWRITE.Write)); [|exact H].
    destruct (_ || _); cbn; intros t a Ht Hc; exact (H t a Ht Hc).
Qed.

Lemma indexed_process (cfg : config) (p1 p2 : Z) (s : state) :
  indexed (monitor s) -> indexed (monitor (process cfg p1 p2 s)).
Proof.
  intros H. unfold process. cbv zeta.
  set (s1 := process_secure_transfer cfg _).
  assert (H1 : indexed (monitor s1)).
  { subst s1. unfold process_secure_transfer.
    repeat (match goal with
            | |- context [if ?b then _ else _] => destruct b
            end); exact H. }
  destruct (error s1); [exact H1|].
  apply (indexed_process_exclusive_transfer cfg) in H1.
  repeat (match goal with
          | |- context [if ?b then _ else _] => destruct b
          end); exact H1.
Qed.

Lemma indexed_colision_update (a : Z) (m : ExclusiveMonitor) :
  indexed m -> indexed (exclusive_trans_colision_update a m).
Proof.
  intros H t b Ht Hc. unfold exclusive_trans_colision_update in *. cbn in *.
  apply elem_of_difference in Ht as [Ht Hrm].
  apply elem_of_difference. split; [exact (H t b Ht Hc)|].
  intros Hb. apply elem_of_singleton in Hb. subst b.
  apply Hrm. apply elem_of_filter. split; [exact Hc | exact Ht].
Qed.

Lemma indexed_process_write_byte (cfg : config) (off i : Z) (s : state) :
  indexed (monitor s) -> indexed (monitor (process_write_byte cfg off i s)).
Proof.
  intros H. unfold process_write_byte. cbv zeta.
  set (s1 := if exclusive_transfers cfg then _ else s).
  assert (H1 : indexed (monitor s1)).
  { subst s1. destruct (exclusive_transfers cfg); [|exact H].
    destruct (decide _); [|exact H]. cbn. by apply indexed_colision_update. }
  repeat (match goal with
          | |- context [if ?b then _ else _] => destruct b
          end); exact H1.
Qed.

Lemma indexed_process_write (cfg : config) (s : state) :
  indexed (monitor s) -> indexed (monitor (process_write cfg s)).
Proof.
  intros H. unfold process_write. cbv zeta.
  apply (for_range_ind (fun s' => indexed (monitor s'))); [exact H|].
  intros i s' _ Hs'. by apply indexed_process_write_byte.
Qed.

Lemma put_cmd_monitor (cfg : config) (cmd : ICMD.t) (s s' : state) :
  put_cmd cfg cmd s = Ok s' -> monitor s' = monitor s.
Proof.
  unfold put_cmd. cbv zeta.
  destruct (negb _); [intros [= <-]; reflexivity|].
  destruct (decide _); [|intros [= <-]; reflexivity].
  destruct (decide _); [discriminate|].
  destruct (decide _); [discriminate|].
  destruct (burst cfg).
  - destruct (burst_check _ _ _ _ _ _ _) as [b|err]; [|discriminate]. cbn.
    destruct (exclusive_transfers cfg); [|intros [= <-]; reflexivity].
    destruct (exclusive_check _ _ _ _ _ _ _ _ _ _ _); [|discriminate].
    cbn. intros [= <-]. reflexivity.
  - cbn. destruct (exclusive_transfers cfg); [|intros [= <-]; reflexivity].
    destruct (exclusive_check _ _ _ _ _ _ _ _ _ _ _); [|discriminate].
    cbn. intros [= <-]. reflexivity.
Qed.

Lemma indexed_cycle (cfg : config) (r : bool) (p1 p2 : Z) (s : state) :
  indexed (monitor s) -> indexed (monitor (cycle cfg r p1 p2 s)).
Proof.
  intros H. unfold cycle.
  assert (He : indexed (monitor (cycle_evaluate cfg r p1 p2 (cycle_sample s)))).
  { unfold cycle_evaluate. destruct r; [by apply indexed_do_reset|].
    destruct (_ && _); [|exact H]. cbv zeta.
    set (sw := if process_wdata_next_cycle _ then _ else _).
    assert (Hw : indexed (monitor sw)).
    { subst sw. destruct (process_wdata_next_cycle _); [|exact H].
      by apply indexed_process_write. }
    apply (indexed_process cfg p1 p2) in Hw.
    destruct (error _); exact Hw. }
  set (se := cycle_evaluate cfg r p1 p2 (cycle_sample s)) in *.
  assert (Hp : monitor (cycle_commit (cycle_prepare cfg r se)) = monitor se).
  { unfold cycle_commit, cycle_prepare.
    repeat (match goal with
            | |- context [decide ?P] => destruct (decide P)
            | |- context [if ?b then _ else _] => destruct b
            end; cbn); reflexivity. }
  rewrite Hp. exact He.
Qed.

Lemma reachable_indexed (cfg : config) (s : state) :
  reachable cfg s -> indexed (monitor s).
Proof.
  induction 1 as [| ia sa s _ IH | hr s _ IH | d s _ IH | cmd s s' _ IH Hput
                  | s _ IH | p1 p2 s _ IH | s _ IH | r p1 p2 s _ IH].
  - apply indexed_init.
  - exact IH.
  - exact IH.
  - exact IH.
  - rewrite (put_cmd_monitor cfg cmd s s' Hput). exact IH.
  - by apply indexed_do_reset.
  - by apply indexed_process.
  - by apply indexed_process_write.
  - by apply indexed_cycle.
Qed.

(** C7 (I6), as amended.  In every state of the memory subordinate reached
    from [__init__] by [init_memory], [set_ready], [put_data], a [put_cmd]
    that returns, [do_reset], [process], [process_write] and the
    iterations of [start], every address in the byte range
    [addr, addr + 2^size) of a tuple of the reservation set is a member of
    the watched set. *)
Theorem reservations_are_watched (cfg : config) (s : state) (t : TransId)
    (a : Z) :
  reachable cfg s ->
  t ∈ transaction_set (monitor s) ->
  covers t a ->
  a ∈ watched_addresses (monitor s).
Proof. intros Hr. exact (reachable_indexed cfg s Hr t a). Qed.

Lemma reachable_accept (cfg : config) (cmd : ICMD.t) (s : state) :
  reachable cfg s -> reachable cfg (accept cfg cmd s).
Proof.
  intros H. unfold accept. destruct (put_cmd cfg cmd s) eqn:E; [|exact H].
  exact (reach_put_cmd cfg cmd s _ H E).
Qed.

Lemma after_exclusive_read_reachable :
  reachable (mem32 false true false false) after_exclusive_read.
Proof.
  unfold after_exclusive_read.
  apply reach_cycle, reachable_accept, reach_set_ready, reach_init.
Qed.

Lemma after_colliding_write_reachable :
  reachable (mem32 false true false false) after_colliding_write.
Proof.
  unfold after_colliding_write.
  apply reach_cycle, reachable_accept, reach_put_data, reach_cycle, reachable_accept,
    after_exclusive_read_reachable.
Qed.

(** After the exclusive halfword read at 4, both bytes of the reservation
    are watched. *)
Lemma reservations_are_watched_witness :
  5 ∈ watched_addresses (monitor after_exclusive_read).
Proof.
  apply (reservations_are_watched (mem32 false true false false)
           after_exclusive_read
           (mkTransId 4 HSIZE.Halfword HPROT.default HBURST.Single 0
                      HNONSEC.Secure) 5
           after_exclusive_read_reachable).
  - apply (bool_decide_unpack _). vm_compute. exact I.
  - unfold covers. simpl. lia.
Defined.

Lemma accept_returns (cfg : config) (cmd : ICMD.t) (s : state) :
  returns (put_cmd cfg cmd s) = true -> put_cmd cfg cmd s = Ok (accept cfg cmd s).
Proof. unfold accept. destruct (put_cmd cfg cmd s); [reflexivity | discriminate]. Qed.

Lemma bind_Ok {A B : Type} (a : A) (k : A -> result B) : (Ok a ≫= k) = k a.
Proof. reflexivity. Qed.

(** Every [put_cmd] of the run returns. *)
Lemma colliding_write_run_returns : colliding_write_run = Ok after_colliding_write.
Proof.
  unfold colliding_write_run, after_colliding_write, after_exclusive_read. cbv zeta.
  set (cfg := mem32 false true false false).
  rewrite (accept_returns cfg
             (transfer 4 HSIZE.Halfword HWRITE.Read HNONSEC.Secure HEXCL.Excl 0)
             (set_ready HREADY.Working init)) by (vm_compute; reflexivity).
  rewrite bind_Ok.
  set (s1 := cycle cfg false 0 0 _).
  rewrite (accept_returns cfg
             (transfer 4 HSIZE.Byte HWRITE.Write HNONSEC.Secure HEXCL.NonExcl 0) s1)
    by (vm_compute; reflexivity).
  rewrite bind_Ok.
  set (s2 := put_data _ (cycle cfg false 0 0 _)).
  rewrite (accept_returns cfg idle_sel s2) by (vm_compute; reflexivity).
  rewrite bind_Ok. reflexivity.
Qed.

(** C7, as stated, fails.  After an exclusive halfword read at 4 and a
    byte write at 4, the reservation has moved to the failed set and
    address 4 has left the watched set, but address 5 is still watched
    although no reservation covers it. *)
Lemma watched_without_reservation :
  colliding_write_run = Ok after_colliding_write
  /\ reachable (mem32 false true false false) after_colliding_write
  /\ 5 ∈ watched_addresses (monitor after_colliding_write)
  /\ transaction_set (monitor after_colliding_write) = ∅
  /\ ~ exactly_indexed (monitor after_colliding_write).
Proof.
  assert (Hw : 5 ∈ watched_addresses (monitor after_colliding_write)).
  { apply (bool_decide_unpack _). vm_compute. exact I. }
  assert (Ht : transaction_set (monitor after_colliding_write) = ∅).
  { apply (bool_decide_unpack _). vm_compute. exact I. }
  split; [exact colliding_write_run_returns|].
  split; [apply after_colliding_write_reachable|].
  split; [exact Hw|]. split; [exact Ht|].
  intros H. destruct (proj1 (H 5) Hw) as (t & Hin & _).
  rewrite Ht in Hin. exact (not_elem_of_empty t Hin).
Qed.

End ExclusiveMonitorIndex.

Section PutCmd.

Import SimMem1PSubordinate.

(** X1.  On a ready subordinate a selected command that is not aligned to
    its size raises "unaligned address"; an aligned one wider than the bus
    raises "HSIZE greater than bus width"; and when [put_cmd] returns, the
    command is aligned, fits the bus, and is latched as presented: the
    address is the command's own, also beyond [length]. *)
Theorem put_cmd_address_safety (cfg : config) (cmd : ICMD.t) (s : state) :
  is_ready s = true ->
  ICMD.hSel cmd = HSEL.Sel ->
  (ICMD.hAddr cmd mod 2 ^ HSIZE.val (ICMD.hSize cmd) <> 0 ->
   put_cmd cfg cmd s = Raise Unaligned_address)
  /\ (ICMD.hAddr cmd mod 2 ^ HSIZE.val (ICMD.hSize cmd) = 0 ->
      bus_byte_width cfg < 2 ^ HSIZE.val (ICMD.hSize cmd) ->
      put_cmd cfg cmd s = Raise HSIZE_greater_than_bus_width)
  /\ (forall s', put_cmd cfg cmd s = Ok s' ->
      ICMD.hAddr cmd mod 2 ^ HSIZE.val (ICMD.hSize cmd) = 0
      /\ 2 ^ HSIZE.val (ICMD.hSize cmd) <= bus_byte_width cfg
      /\ command s' = latch cfg cmd
      /\ ICMD.hAddr (command s') = ICMD.hAddr cmd).
Proof.
  intros Hr Hsel. unfold put_cmd. cbv zeta.
  change (is_ready (set_input (latch cfg cmd) s)) with (is_ready s).
  rewrite Hr. cbn [negb].
  destruct (decide (ICMD.hSel cmd = HSEL.Sel)) as [_ | Hne]; [|contradiction].
  split; [|split].
  - intros Hmis. destruct (decide _); [reflexivity | contradiction].
  - intros Hal Hbig.
    destruct (decide (_ <> 0)) as [Hmis | _]; [contradiction|].
    destruct (decide (_ < _)); [reflexivity | contradiction].
  - intros s'.
    destruct (decide (_ <> 0)) as [Hmis | Hal]; [discriminate|].
    destruct (decide (_ < _)) as [Hbig | Hfit]; [discriminate|].
    intros Hput.
    assert (Hc : command s' = latch cfg cmd).
    { destruct (burst cfg).
      - destruct (burst_check _ _ _ _ _ _ _) as [b|err]; [|discriminate].
        cbn in Hput. destruct (exclusive_transfers cfg).
        + destruct (exclusive_check _ _ _ _ _ _ _ _ _ _ _); [|discriminate].
          cbn in Hput. injection Hput as <-. reflexivity.
        + injection Hput as <-. reflexivity.
      - cbn in Hput. destruct (exclusive_transfers cfg).
        + destruct (exclusive_check _ _ _ _ _ _ _ _ _ _ _); [|discriminate].
          cbn in Hput. injection Hput as <-. reflexivity.
        + injection Hput as <-. reflexivity. }
    split; [|split; [lia|split; [exact Hc|rewrite Hc; reflexivity]]].
    destruct (decide (ICMD.hAddr cmd mod 2 ^ HSIZE.val (ICMD.hSize cmd) = 0));
      [assumption | contradiction].
Qed.

(** The Seq beat at 0x383 of the test suite, presented as a word transfer:
    it is not aligned. *)
Lemma put_cmd_address_safety_witness :
  put_cmd (mem32 false false false false)
          (transfer 0x383 HSIZE.Word HWRITE.Read HNONSEC.Secure HEXCL.NonExcl 0)
          (set_ready HREADY.Working init)
  = Raise Unaligned_address.
Proof.
  apply (put_cmd_address_safety (mem32 false false false false)
           (transfer 0x383 HSIZE.Word HWRITE.Read HNONSEC.Secure HEXCL.NonExcl 0)
           (set_ready HREADY.Working init) eq_refl eq_refl).
  vm_compute. discriminate.
Defined.

(** X2.  A command presented while the subordinate is not ready is only
    observed: [put_cmd] returns whatever the command is, records it in
    [input], and leaves the latched command, the burst tracker, the
    exclusive monitor and the memory as they were. *)
Theorem put_cmd_not_ready (cfg : config) (cmd : ICMD.t) (s : state) :
  is_ready s = false ->
  exists s',
    put_cmd cfg cmd s = Ok s'
    /\ input s' = latch cfg cmd
    /\ command s' = command s
    /\ tracker s' = tracker s
    /\ monitor s' = monitor s
    /\ mem s' = mem s
    /\ wait_cycles s' = wait_cycles s.
Proof.
  intros Hr. unfold put_cmd. cbv zeta.
  change (is_ready (set_input (latch cfg cmd) s)) with (is_ready s).
  rewrite Hr. cbn [negb]. eexists. split; [reflexivity|]. repeat split.
Qed.

(** A misaligned command on a subordinate held in the wait state. *)
Lemma put_cmd_not_ready_witness :
  exists s',
    put_cmd (mem32 false false false false)
            (transfer 0x383 HSIZE.Word HWRITE.Read HNONSEC.Secure HEXCL.NonExcl 0)
            init = Ok s'
    /\ command s' = ICMD.default.
Proof.
  destruct (put_cmd_not_ready (mem32 false false false false)
              (transfer 0x383 HSIZE.Word HWRITE.Read HNONSEC.Secure HEXCL.NonExcl 0)
              init eq_refl) as (s' & Hput & _ & Hc & _).
  exists s'. split; [exact Hput | exact Hc].
Defined.

End PutCmd.

Section MemoryInterface.

Import SimMem1PSubordinate.

Lemma init_memory_fold (start : Z) (l : list Z) (k : nat) (m : gmap Z Z) (a : Z) :
  mem_read
    (fold_left (fun m '(i, d) => <[start + Z.of_nat i := d]> m)
               (imap (fun i d => ((k + i)%nat, d)) l) m) a
  = if decide (start + Z.of_nat k <= a < start + Z.of_nat k + Z.of_nat (List.length l))
    then default 0 (l !! Z.to_nat (a - start - Z.of_nat k))
    else mem_read m a.
Proof.
  revert k m. induction l as [|x l IH]; intros k m.
  - simpl. destruct (decide _); [lia | reflexivity].
  - cbn [imap fold_left].
    rewrite (imap_ext _ (fun i d => ((S k + i)%nat, d))) by (intros; unfold compose; cbn; f_equal; lia).
    rewrite IH. replace (k + 0)%nat with k by lia.
    rewrite mem_read_insert.
    cbn [List.length].
    destruct (decide (a = start + Z.of_nat k)) as [-> | Hne].
    + rewrite decide_False by lia. rewrite bool_decide_eq_true_2 by reflexivity.
      rewrite decide_True by lia.
      replace (start + Z.of_nat k - start - Z.of_nat k) with 0 by lia. reflexivity.
    + rewrite (bool_decide_eq_false_2 _ Hne).
      destruct (decide (start + Z.of_nat (S k) <= a
                        < start + Z.of_nat (S k) + Z.of_nat (List.length l)))
        as [Hin | Hout].
      * rewrite decide_True by lia.
        replace (Z.to_nat (a - start - Z.of_nat k))
          with (S (Z.to_nat (a - start - Z.of_nat (S k)))) by lia.
        reflexivity.
      * rewrite decide_False by lia. reflexivity.
Qed.

(** X3.  [memory_dump] has one entry for each address below [length]; after
    [init_memory] the entry at an address in
    [start_address, start_address + len(init_array)) is the loaded value,
    and every other entry is what was there before, zero for an address
    that was never written. *)
Theorem memory_dump_init_memory (cfg : config) (init_array : list Z)
    (start_address : Z) (s : state) (a : Z) :
  0 <= a < length cfg ->
  List.length (memory_dump cfg (init_memory init_array start_address s))
  = Z.to_nat (length cfg)
  /\ memory_dump cfg (init_memory init_array start_address s) !! Z.to_nat a
     = Some (if decide (start_address <= a
                        < start_address + Z.of_nat (List.length init_array))
             then default 0 (init_array !! Z.to_nat (a - start_address))
             else mem_read (mem s) a).
Proof.
  intros Ha. unfold memory_dump. split.
  - rewrite length_map, range_length. reflexivity.
  - rewrite map_range_lookup by lia. f_equal.
    unfold init_memory. cbn [mem set_mem].
    pose proof (init_memory_fold start_address init_array 0 (mem s) a) as H.
    cbn [Nat.add] in H. rewrite H.
    replace (start_address + Z.of_nat 0) with start_address by lia.
    replace (a - start_address - Z.of_nat 0) with (a - start_address) by lia.
    reflexivity.
Qed.

(** Three bytes loaded at 2 into an empty 1 KiB memory: the dump holds the
    second of them at 3. *)
Lemma memory_dump_init_memory_witness :
  memory_dump (mem32 false false false false)
              (init_memory (0x11 :: 0x22 :: 0x33 :: nil) 2 init) !! 3%nat
  = Some 0x22.
Proof.
  assert (H : 0 <= 3 < length (mem32 false false false false))
    by (simpl; lia).
  exact (proj2 (memory_dump_init_memory (mem32 false false false false)
                  (0x11 :: 0x22 :: 0x33 :: nil) 2 init 3 H)).
Defined.

End MemoryInterface.

Section BurstProtocol.

Import SimMem1PSubordinate.

(** X4.  With no burst in progress a Seq or a Busy beat raises "in no burst
    context", and an Idle beat is accepted and leaves the tracker as it
    is. *)
Theorem burst_check_outside_burst (b : BurstTracker) (hAddr : Z) (hBurst : HBURST.t)
    (hSize : HSIZE.t) (hWrite : HWRITE.t) (hProt : HPROT.t) :
  bursting b = false ->
  burst_check b hAddr hBurst hSize HTRANS.Seq hWrite hProt = Raise Not_in_burst_context
  /\ burst_check b hAddr hBurst hSize HTRANS.Busy hWrite hProt
     = Raise Not_in_burst_context
  /\ burst_check b hAddr hBurst hSize HTRANS.Idle hWrite hProt = Ok b.
Proof.
  intros Hb. unfold burst_check. simpl. rewrite Hb. simpl. repeat split.
Qed.

Lemma burst_check_outside_burst_witness :
  burst_check (tracker init) 0x384 HBURST.Incr4 HSIZE.Word HTRANS.Seq HWRITE.Write
              HPROT.default
  = Raise Not_in_burst_context.
Proof.
  exact (proj1 (burst_check_outside_burst (tracker init) 0x384 HBURST.Incr4
                  HSIZE.Word HWRITE.Write HPROT.default eq_refl)).
Defined.

(** X5.  Inside a burst a Seq or Busy beat is checked against the tracker
    in a fixed order: a beat at another address than the expected one
    raises "incorrect burst address"; at the expected address, another
    size raises "incorrect burst size"; then another burst kind, another
    direction and another protection raise their errors in turn. *)
Theorem burst_check_mismatch (b : BurstTracker) (hAddr : Z) (hBurst : HBURST.t)
    (hSize : HSIZE.t) (hTrans : HTRANS.t) (hWrite : HWRITE.t) (hProt : HPROT.t)
    (x : Z) (rest : list Z) :
  bursting b = true ->
  bursting_addresses b = x :: rest ->
  hTrans = HTRANS.Seq \/ hTrans = HTRANS.Busy ->
  (hAddr <> x ->
   burst_check b hAddr hBurst hSize hTrans hWrite hProt = Raise Incorrect_burst_address)
  /\ (hSize <> burst_size b ->
      burst_check b x hBurst hSize hTrans hWrite hProt = Raise Incorrect_burst_size)
  /\ (hBurst <> burst_type b ->
      burst_check b x hBurst (burst_size b) hTrans hWrite hProt
      = Raise Incorrect_burst_type)
  /\ (hWrite <> burst_write b ->
      burst_check b x (burst_type b) (burst_size b) hTrans hWrite hProt
      = Raise Incorrect_burst_operation)
  /\ (hProt <> burst_prot b ->
      burst_check b x (burst_type b) (burst_size b) hTrans (burst_write b) hProt
      = Raise Incorrect_burst_protection).
Proof.
  intros Hb Ha Ht. unfold burst_check. cbn [burst_check_rec].
  rewrite Hb, Ha. cbn [negb andb List.length head].
  assert (Hidle : bool_decide (hTrans = HTRANS.Idle)
                  || bool_decide (hTrans = HTRANS.NonSeq) = false).
  { destruct Ht as [-> | ->]; reflexivity. }
  rewrite Hidle.
  rewrite (bool_decide_eq_false_2 (S (List.length rest) = 0%nat)) by discriminate.
  cbn [negb andb].
  rewrite (bool_decide_eq_true_2 (Some x = Some x)) by reflexivity. cbn [negb].
  split; [|split; [|split; [|split]]].
  - intros Hne. rewrite bool_decide_eq_false_2 by congruence. reflexivity.
  - intros Hne. rewrite decide_True by exact Hne. reflexivity.
  - intros Hne. rewrite decide_False by (intros H; apply H; reflexivity).
    rewrite decide_True by exact Hne. reflexivity.
  - intros Hne. rewrite decide_False by (intros H; apply H; reflexivity).
    rewrite decide_False by (intros H; apply H; reflexivity).
    rewrite decide_True by exact Hne. reflexivity.
  - intros Hne. rewrite decide_False by (intros H; apply H; reflexivity).
    rewrite decide_False by (intros H; apply H; reflexivity).
    rewrite decide_False by (intros H; apply H; reflexivity).
    rewrite decide_True by exact Hne. reflexivity.
Qed.

(** The tracker after the first beat of an Incr16 word burst from 0x380. *)
Lemma burst_check_mismatch_witness :
  let b := {| bursting := true;
              bursting_addresses := 0x384 :: 0x388 :: nil;
              incr_burst := false; burst_size := HSIZE.Word;
              burst_type := HBURST.Incr16; burst_write := HWRITE.Write;
              burst_prot := HPROT.default |} in
  burst_check b 0x380 HBURST.Incr16 HSIZE.Word HTRANS.Seq HWRITE.Write HPROT.default
  = Raise Incorrect_burst_address
  /\ burst_check b 0x384 HBURST.Incr16 HSIZE.Halfword HTRANS.Seq HWRITE.Write
                 HPROT.default
     = Raise Incorrect_burst_size.
Proof.
  intros b.
  destruct (burst_check_mismatch b 0x380 HBURST.Incr16 HSIZE.Halfword HTRANS.Seq
              HWRITE.Write HPROT.default 0x384 (0x388 :: nil) eq_refl eq_refl
              (or_introl eq_refl)) as (H1 & H2 & _).
  split.
  - apply H1. discriminate.
  - apply H2. discriminate.
Defined.

(** X6.  A Busy beat inside a burst, at the expected address and with the
    recorded attributes, is accepted and consumes nothing: the tracker is
    left as it is. *)
Theorem burst_check_busy (b : BurstTracker) (x : Z) (rest : list Z) :
  bursting b = true ->
  bursting_addresses b = x :: rest ->
  burst_check b x (burst_type b) (burst_size b) HTRANS.Busy (burst_write b)
              (burst_prot b) = Ok b.
Proof.
  intros Hb Ha. unfold burst_check. cbn [burst_check_rec].
  rewrite Hb, Ha. cbn [negb andb List.length head].
  assert (Hidle : bool_decide (HTRANS.Busy = HTRANS.Idle)
                  || bool_decide (HTRANS.Busy = HTRANS.NonSeq) = false)
    by reflexivity.
  rewrite Hidle.
  rewrite (bool_decide_eq_false_2 (S (List.length rest) = 0%nat)) by discriminate.
  rewrite (bool_decide_eq_true_2 (Some x = Some x)) by reflexivity.
  cbn [negb andb].
  repeat (rewrite decide_False by (intros H; apply H; reflexivity)).
  rewrite decide_False by discriminate. reflexivity.
Qed.

Lemma burst_check_busy_witness :
  let b := {| bursting := true;
              bursting_addresses := 0x384 :: 0x388 :: nil;
              incr_burst := false; burst_size := HSIZE.Word;
              burst_type := HBURST.Incr16; burst_write := HWRITE.Write;
              burst_prot := HPROT.default |} in
  burst_check b 0x384 HBURST.Incr16 HSIZE.Word HTRANS.Busy HWRITE.Write HPROT.default
  = Ok b.
Proof.
  intros b. exact (burst_check_busy b 0x384 (0x388 :: nil) eq_refl eq_refl).
Defined.

(** A Seq beat of a fixed-length burst at the expected address: the
    address is consumed, and the burst ends with the last one. *)
Lemma burst_check_seq_fixed (b : BurstTracker) (x : Z) (rest : list Z) :
  bursting b = true ->
  incr_burst b = false ->
  bursting_addresses b = x :: rest ->
  burst_check b x (burst_type b) (burst_size b) HTRANS.Seq (burst_write b)
              (burst_prot b)
  = Ok (match rest with
        | nil => set_bursting false (set_bursting_addresses nil b)
        | _ => set_bursting_addresses rest b
        end).
Proof.
  intros Hb Hi Ha. unfold burst_check. cbn [burst_check_rec].
  rewrite Hb, Ha, Hi. cbn [negb andb List.length head].
  assert (Hidle : bool_decide (HTRANS.Seq = HTRANS.Idle)
                  || bool_decide (HTRANS.Seq = HTRANS.NonSeq) = false)
    by reflexivity.
  rewrite Hidle.
  rewrite (bool_decide_eq_false_2 (S (List.length rest) = 0%nat)) by discriminate.
  rewrite (bool_decide_eq_true_2 (Some x = Some x)) by reflexivity.
  cbn [negb andb].
  repeat (rewrite decide_False by (intros H; apply H; reflexivity)).
  rewrite decide_True by reflexivity. cbv zeta. cbn [drop].
  destruct rest; reflexivity.
Qed.

Lemma seq_beats_complete (l : list Z) (b : BurstTracker) :
  bursting b = true ->
  incr_burst b = false ->
  bursting_addresses b = l ->
  l <> nil ->
  exists b',
    seq_beats b l = Ok b'
    /\ bursting b' = false /\ bursting_addresses b' = nil.
Proof.
  revert b. induction l as [|x l IH]; intros b Hb Hi Ha Hne; [contradiction|].
  cbn [seq_beats]. rewrite (burst_check_seq_fixed b x l Hb Hi Ha).
  destruct l as [|y l].
  - cbn. eexists. split; [reflexivity|]. split; reflexivity.
  - cbn [mbind result_bind].
    apply IH; try reflexivity; try assumption. discriminate.
Qed.

Lemma check_not_bursting_fixed (b0 : BurstTracker) hAddr hBurst hSize hWrite hProt N :
  _size_of hBurst = Some N ->
  (is_fix_incr hBurst = true -> _check_fix_incr hAddr hBurst hSize = Ok tt) ->
  _check_not_bursting b0 hAddr hBurst hSize HTRANS.NonSeq hWrite hProt
  = Ok {| bursting := true;
          bursting_addresses :=
            drop 1 (beat_addresses (is_fix_incr hBurst) N hAddr hSize);
          incr_burst := false; burst_size := hSize; burst_type := hBurst;
          burst_write := hWrite; burst_prot := hProt |}.
Proof.
  intros HN Hcheck. unfold _check_not_bursting.
  destruct hBurst; simpl in HN; try discriminate; inversion HN; subst N;
    cbn -[_check_fix_incr beat_addresses];
    try rewrite (Hcheck eq_refl); reflexivity.
Qed.



End BurstProtocol.

Section BurstGeometry.

Import SimMem1PSubordinate.

Lemma pow2_block (hBurst : HBURST.t) (hSize : HSIZE.t) :
  exists n, 0 <= n /\ beats_of hBurst * 2 ^ HSIZE.val hSize = 2 ^ n.
Proof.
  destruct hBurst, hSize; simpl;
    first [ by exists 0 | by exists 1 | by exists 2 | by exists 3
          | by exists 4 | by exists 5 | by exists 6 | by exists 7
          | by exists 8 | by exists 9 | by exists 10 | by exists 11 ].
Qed.

(** X8.  Every address the tracker computes for a wrapping burst lies in
    the block of [N * 2^size] bytes, aligned to its size, that holds the
    first address: the burst wraps at the block boundary and never leaves
    the block. *)
Theorem wrap_burst_stays_in_block (hBurst : HBURST.t) (N hAddr : Z) (hSize : HSIZE.t)
    (x : Z) :
  _size_of hBurst = Some N ->
  x ∈ beat_addresses (is_fix_incr hBurst) N hAddr hSize ->
  is_fix_incr hBurst = false ->
  x / (N * 2 ^ HSIZE.val hSize) = hAddr / (N * 2 ^ HSIZE.val hSize).
Proof.
  intros HN Hx Hw. rewrite Hw in Hx. apply size_of_beats in HN. subst N.
  unfold beat_addresses in Hx. cbv zeta in Hx.
  change (map ?f ?l) with (f <$> l) in Hx.
  apply list_elem_of_fmap in Hx as (k & -> & _).
  destruct (pow2_block hBurst hSize) as (n & Hn & HM).
  set (M := beats_of hBurst * 2 ^ HSIZE.val hSize) in *.
  assert (HMpos : 0 < M) by (rewrite HM; apply Z.pow_pos_nonneg; lia).
  pose proof (land_lnot_mod hAddr n Hn) as Hbase. rewrite <- HM in Hbase.
  pose proof (Z.mod_pos_bound (hAddr mod M + k * 2 ^ HSIZE.val hSize) M HMpos) as Hr.
  pose proof (Z.div_mod hAddr M ltac:(lia)) as Hdm.
  set (r := (hAddr mod M + k * 2 ^ HSIZE.val hSize) mod M) in *.
  replace (Z.land hAddr (Z.lnot (M - 1)) + r) with (r + (hAddr / M) * M) by lia.
  rewrite Z.div_add by lia. rewrite Z.div_small by lia. lia.
Qed.

(** The Wrap4 word burst from 0x38: the beat at 0x30 lies in the 16-byte
    block of 0x38. *)
Lemma wrap_burst_stays_in_block_witness :
  beat_addresses (is_fix_incr HBURST.Wrap4) 4 0x38 HSIZE.Word
  = 0x38 :: 0x3C :: 0x30 :: 0x34 :: nil
  /\ 0x30 / (4 * 2 ^ HSIZE.val HSIZE.Word) = 0x38 / (4 * 2 ^ HSIZE.val HSIZE.Word).
Proof.
  split; [reflexivity|].
  apply (wrap_burst_stays_in_block HBURST.Wrap4 4 0x38 HSIZE.Word 0x30 eq_refl);
    [|reflexivity].
  vm_compute. do 2 right. left.
Defined.

(** X9.  An incrementing burst that passes the boundary check of the first
    beat never leaves the 1 KiB region of its first address: every beat
    address [addr + k * 2^size], [k < N], lies in it. *)
Theorem accepted_incr_burst_stays_in_region (hAddr : Z) (hBurst : HBURST.t)
    (hSize : HSIZE.t) (x : Z) :
  is_fix_incr hBurst = true ->
  _check_fix_incr hAddr hBurst hSize = Ok tt ->
  x ∈ beat_addresses true (beats_of hBurst) hAddr hSize ->
  x / 1024 = hAddr / 1024.
Proof.
  intros Hinc Hcheck Hx. unfold beat_addresses in Hx.
  change (map ?f ?l) with (f <$> l) in Hx.
  apply list_elem_of_fmap in Hx as (k & -> & Hk). apply in_range in Hk.
  pose proof (pow2_size_pos hSize) as Hp.
  unfold _check_fix_incr in Hcheck. cbv zeta in Hcheck.
  destruct (decide (_ <> _)) as [? | Heq]; [discriminate|].
  apply dec_stable in Heq.
  assert (Hle : hAddr + k * 2 ^ HSIZE.val hSize
                <= hAddr + (if decide (hBurst = HBURST.Incr4) then 4 else 16)
                           * 2 ^ HSIZE.val hSize).
  { destruct (decide (hBurst = HBURST.Incr4)) as [-> | ?].
    - simpl in Hk. nia.
    - assert (beats_of hBurst <= 16) by (destruct hBurst; simpl; lia). nia. }
  assert (H1 : hAddr / 1024 <= (hAddr + k * 2 ^ HSIZE.val hSize) / 1024)
    by (apply Z.div_le_mono; nia).
  assert (H2 : (hAddr + k * 2 ^ HSIZE.val hSize) / 1024
               <= (hAddr + (if decide (hBurst = HBURST.Incr4) then 4 else 16)
                           * 2 ^ HSIZE.val hSize) / 1024)
    by (apply Z.div_le_mono; lia).
  destruct (decide (hBurst = HBURST.Incr4)); lia.
Qed.

(** The Incr4 word burst from 0x3E0: its last beat, at 0x3EC, is in the
    region of the first. *)
Lemma accepted_incr_burst_stays_in_region_witness :
  _check_fix_incr 0x3E0 HBURST.Incr4 HSIZE.Word = Ok tt
  /\ 0x3EC / 1024 = 0x3E0 / 1024.
Proof.
  split; [reflexivity|].
  apply (accepted_incr_burst_stays_in_region 0x3E0 HBURST.Incr4 HSIZE.Word 0x3EC
           eq_refl eq_refl).
  vm_compute. do 3 right. left.
Defined.

End BurstGeometry.

Section MemoryEvolution.

Import SimMem1PSubordinate.

Lemma process_exclusive_transfer_control (cfg : config) (s : state) :
  let s' := process_exclusive_transfer cfg s in
  mem s' = mem s /\ error s' = error s /\ wait_cycles s' = wait_cycles s
  /\ command s' = command s
  /\ process_wdata_next_cycle s' = process_wdata_next_cycle s
  /\ wcommand s' = wcommand s /\ wdata s' = wdata s /\ hready s' = hready s
  /\ t_hResp (temp s') = t_hResp (temp s)
  /\ t_hRData (temp s') = t_hRData (temp s)
  /\ t_hReadyOut (temp s') = t_hReadyOut (temp s).
Proof.
  unfold process_exclusive_transfer.
  repeat (match goal with
          | |- context [decide ?P] => destruct (decide P)
          | |- context [if ?b then _ else _] => destruct b
          end; cbn); repeat split.
Qed.

Lemma process_secure_transfer_control (cfg : config) (s : state) :
  let s' := process_secure_transfer cfg s in
  mem s' = mem s /\ wait_cycles s' = wait_cycles s /\ command s' = command s
  /\ process_wdata_next_cycle s' = process_wdata_next_cycle s
  /\ wcommand s' = wcommand s /\ wdata s' = wdata s /\ hready s' = hready s
  /\ monitor s' = monitor s /\ temp s' = temp s.
Proof.
  unfold process_secure_transfer.
  repeat (match goal with
          | |- context [if ?b then _ else _] => destruct b
          end; cbn); repeat split.
Qed.

(** [process] evaluates the command; it touches neither the memory nor the
    schedule of the write path. *)
Lemma process_control (cfg : config) (p1 p2 : Z) (s : state) :
  let s' := process cfg p1 p2 s in
  mem s' = mem s /\ command s' = command s
  /\ process_wdata_next_cycle s' = process_wdata_next_cycle s
  /\ wcommand s' = wcommand s /\ wdata s' = wdata s /\ hready s' = hready s.
Proof.
  unfold process. cbv zeta.
  set (s1 := set_temp _ _).
  destruct (process_secure_transfer_control cfg s1) as (Sm&_&Sc&Sp&Sw&Sd&Sh&_).
  set (s2 := process_secure_transfer cfg s1) in *.
  destruct (process_exclusive_transfer_control cfg s2) as (Em&_&_&Ec&Ep&Ew&Ed&Eh&_).
  set (s3 := process_exclusive_transfer cfg s2) in *.
  destruct (error s2).
  - rewrite Sm, Sc, Sp, Sw, Sd, Sh. repeat split.
  - destruct (HTRANS.idle_or_busy _); [|destruct (_ && _)]; cbn;
      rewrite Em, Ec, Ep, Ew, Ed, Eh, Sm, Sc, Sp, Sw, Sd, Sh; repeat split.
Qed.

Lemma cycle_finish_mem (cfg : config) (r : bool) (s : state) :
  mem (cycle_commit (cycle_prepare cfg r s)) = mem s.
Proof.
  unfold cycle_commit, cycle_prepare.
  repeat (match goal with
          | |- context [decide ?P] => destruct (decide P)
          | |- context [if ?b then _ else _] => destruct b
          end; cbn); reflexivity.
Qed.

(** X10.  The memory changes in two ways only.  A cycle with the reset line
    up clears it.  A cycle in which the subordinate is ready and selected
    applies the scheduled write, if there is one.  Every other cycle
    leaves the memory as it is, and leaves a scheduled write scheduled;
    a reset does not cancel it either. *)
Theorem memory_changes_by_reset_or_scheduled_write (cfg : config) (r : bool)
    (p1 p2 : Z) (s : state) :
  mem (cycle cfg r p1 p2 s)
  = (if r then ∅
     else if is_ready s && bool_decide (ICMD.hSel (command s) = HSEL.Sel)
             && process_wdata_next_cycle s
     then mem (process_write cfg s)
     else mem s)
  /\ (r = true \/ is_ready s && bool_decide (ICMD.hSel (command s) = HSEL.Sel) = false ->
      process_wdata_next_cycle s = true ->
      process_wdata_next_cycle (cycle cfg r p1 p2 s) = true).
Proof.
  split.
  - unfold cycle. rewrite cycle_finish_mem. unfold cycle_evaluate.
    destruct r.
    + unfold do_reset. destruct (exclusive_transfers cfg); reflexivity.
    + change (is_ready (cycle_sample s)) with (is_ready s).
      change (command (cycle_sample s)) with (command s).
      change (process_wdata_next_cycle (cycle_sample s))
        with (process_wdata_next_cycle s).
      destruct (is_ready s && bool_decide (ICMD.hSel (command s) = HSEL.Sel));
        [|reflexivity].
      cbv zeta. cbn [andb].
      set (sw := if process_wdata_next_cycle s then _ else _).
      destruct (process_control cfg p1 p2 sw) as (Pm & _).
      assert (Hm : mem (if error (process cfg p1 p2 sw)
                        then set_temp
                               (set_t_hResp (Some HRESP.Failed)
                                  (set_t_hRData (Some 0)
                                     (temp (set_wait_cycles 1 (process cfg p1 p2 sw)))))
                               (set_wait_cycles 1 (process cfg p1 p2 sw))
                        else process cfg p1 p2 sw) = mem sw).
      { destruct (error _); cbn; exact Pm. }
      rewrite Hm. subst sw. destruct (process_wdata_next_cycle s); [|reflexivity].
      apply (process_write_data cfg s (cycle_sample s)).
      unfold same_data. cbn. auto.
  - intros Hskip Hp. unfold cycle.
    assert (He : process_wdata_next_cycle
                   (cycle_evaluate cfg r p1 p2 (cycle_sample s)) = true
                 /\ (r = true \/ True)).
    { unfold cycle_evaluate. destruct r.
      - split; [|auto]. unfold do_reset.
        destruct (exclusive_transfers cfg); cbn; exact Hp.
      - destruct Hskip as [? | Hskip]; [discriminate|].
        change (is_ready (cycle_sample s)) with (is_ready s).
        change (command (cycle_sample s)) with (command s).
        rewrite Hskip. split; [exact Hp | auto]. }
    destruct He as [He _].
    set (se := cycle_evaluate cfg r p1 p2 (cycle_sample s)) in *.
    unfold cycle_commit, cycle_prepare.
    repeat (match goal with
            | |- context [decide ?P] => destruct (decide P)
            | |- context [if ?b then _ else _] => destruct b
            end; cbn); try reflexivity; exact He.
Qed.

(** A write of 0xAB scheduled at address 2 survives a reset cycle. *)
Lemma memory_changes_by_reset_or_scheduled_write_witness :
  let s := write_pending
             (transfer 2 HSIZE.Byte HWRITE.Write HNONSEC.Secure HEXCL.NonExcl 0)
             0xAB0000 idle_sel in
  process_wdata_next_cycle (cycle strobe_mem true 0 0 s) = true.
Proof.
  intros s.
  apply (proj2 (memory_changes_by_reset_or_scheduled_write strobe_mem true 0 0 s));
    [left; reflexivity | reflexivity].
Defined.

Lemma process_idle (cfg : config) (p1 p2 : Z) (s : state) :
  HTRANS.idle_or_busy (ICMD.hTrans (command s)) = true ->
  let sp := process cfg p1 p2 s in
  error sp = false /\ wait_cycles sp = 0
  /\ t_hResp (temp sp) = Some HRESP.Successful
  /\ t_hRData (temp sp) = Some 0.
Proof.
  intros Hidle. unfold process. cbv zeta.
  set (s1 := set_temp _ _).
  assert (Hsec : process_secure_transfer cfg s1 = s1).
  { unfold process_secure_transfer.
    change (command s1) with (command s). rewrite Hidle.
    destruct (secure_transfer cfg); reflexivity. }
  rewrite Hsec. change (error s1) with false. cbv iota.
  destruct (process_exclusive_transfer_control cfg s1)
    as (_ & Ee & _ & Ec & _ & _ & _ & _ & Er & Ed & _).
  rewrite Ec. change (command s1) with (command s). rewrite Hidle.
  cbn [error wait_cycles temp set_wait_cycles].
  rewrite Ee, Er, Ed. subst s1. destruct (exclusive_transfers cfg); repeat split.
Qed.

(** X11.  A ready subordinate that holds a selected Idle or Busy transfer
    answers in the same cycle: [Successful], [Ready], read data 0, a wait
    counter that has run out; it schedules no write, and the memory is as
    the scheduled write of the previous transfer, if any, leaves it. *)
Theorem idle_answered_at_once (cfg : config) (p1 p2 : Z) (s : state) :
  is_ready s = true ->
  ICMD.hSel (command s) = HSEL.Sel ->
  HTRANS.idle_or_busy (ICMD.hTrans (command s)) = true ->
  let s1 := cycle cfg false p1 p2 s in
  SRESP.hResp (resp s1) = HRESP.Successful
  /\ SRESP.hReadyOut (resp s1) = HREADYOUT.Ready
  /\ SRESP.hRData (resp s1) = 0
  /\ wait_cycles s1 = -1
  /\ process_wdata_next_cycle s1 = false
  /\ mem s1 = mem (flushed cfg s).
Proof.
  intros Hr Hsel Hidle s1.
  set (sb := cycle_sample s).
  set (sw := if process_wdata_next_cycle sb then process_write cfg sb else sb).
  assert (Hsw : mem sw = mem (flushed cfg s) /\ command sw = command s
                /\ process_wdata_next_cycle sw = false).
  { subst sw. unfold flushed.
    change (process_wdata_next_cycle sb) with (process_wdata_next_cycle s).
    destruct (process_wdata_next_cycle s) eqn:Hp.
    - destruct (process_write_control cfg sb) as [(_&_&_&_&_&_&_&Hc&_) Hp'].
      split; [|split; [exact Hc | exact Hp']].
      apply (process_write_data cfg s sb). unfold same_data. cbn. auto.
    - repeat split. exact Hp. }
  destruct Hsw as (Hm & Hc & Hp).
  assert (Hidle' : HTRANS.idle_or_busy (ICMD.hTrans (command sw)) = true)
    by (rewrite Hc; exact Hidle).
  destruct (process_idle cfg p1 p2 sw Hidle') as (Pe & Pw & Pr & Pd).
  destruct (process_control cfg p1 p2 sw) as (Pm & Pc & Pp & _).
  assert (Hev : cycle_evaluate cfg false p1 p2 sb = process cfg p1 p2 sw).
  { unfold cycle_evaluate.
    change (is_ready sb) with (is_ready s). rewrite Hr.
    change (command sb) with (command s). rewrite Hsel.
    rewrite bool_decide_eq_true_2 by reflexivity. cbv zeta. cbn [andb].
    fold sw. rewrite Pe. reflexivity. }
  subst s1. unfold cycle. fold sb. rewrite Hev.
  set (sp := process cfg p1 p2 sw) in *.
  unfold cycle_prepare. rewrite Pc, Hc, Hidle. cbn [negb]. rewrite !andb_false_r.
  unfold cycle_commit. rewrite Pw.
  destruct (decide (0 = 0)) as [_ | Hne]; [|congruence].
  cbn. rewrite Pr, Pd, Pm, Pp, Hm, Hp, Pw. repeat split.
Qed.

Lemma idle_answered_at_once_witness :
  SRESP.hReadyOut (resp (cycle strobe_mem false 7 7 (holding idle_sel 0)))
  = HREADYOUT.Ready.
Proof.
  destruct (idle_answered_at_once strobe_mem 7 7 (holding idle_sel 0)
              eq_refl eq_refl eq_refl) as (_ & H & _).
  exact H.
Defined.

End MemoryEvolution.

Section ExclusiveProtocol.

Import SimMem1PSubordinate.

(** X12.  What [process_write] stores.  A byte of the memory is replaced by
    its lane of the data word, a value between 0 and 255, when the
    scheduled write touches it, its strobe is set (or the subordinate has
    no write strobes) and the write path may modify the memory; every
    other byte reads as before, in and outside the range of the
    transfer. *)
Theorem process_write_application (cfg : config) (s : state) (a : Z) :
  let W := wcommand s in
  mem_read (mem (process_write cfg s)) a
  = (if bool_decide (touches W a) && may_modify cfg s
        && strobed cfg W (a - ICMD.hAddr W)
     then written_byte cfg (wdata s) (ICMD.hAddr W) (a - ICMD.hAddr W)
     else mem_read (mem s) a)
  /\ 0 <= written_byte cfg (wdata s) (ICMD.hAddr W) (a - ICMD.hAddr W) <= 255.
Proof.
  cbv zeta. split.
  - rewrite process_write_mem_read.
    rewrite (bool_decide_ext (touches (wcommand s) a)
               (0 <= a - ICMD.hAddr (wcommand s)
                < 2 ^ HSIZE.val (ICMD.hSize (wcommand s))))
      by (unfold touches; lia).
    reflexivity.
  - unfold written_byte. change (Z.land ?x 0xFF) with (Z.land x (Z.ones 8)).
    rewrite Z.land_ones by lia.
    pose proof (Z.mod_pos_bound
                  (Z.shiftr (wdata s)
                     (lane cfg (ICMD.hAddr (wcommand s))
                           (a - ICMD.hAddr (wcommand s)))) (2 ^ 8)) as H.
    change (2 ^ 8) with 256 in *. lia.
Qed.

Lemma process_write_byte_monitor (cfg : config) (off i : Z) (s : state) :
  monitor (process_write_byte cfg off i s)
  = if exclusive_transfers cfg
       && bool_decide (i + ICMD.hAddr (wcommand s) ∈ watched_addresses (monitor s))
    then exclusive_trans_colision_update (i + ICMD.hAddr (wcommand s)) (monitor s)
    else monitor s.
Proof.
  unfold process_write_byte, exclusive_trans_colision_check. cbv zeta.
  destruct (exclusive_transfers cfg); cbn [andb].
  - destruct (decide (i + ICMD.hAddr (wcommand s) ∈ watched_addresses (monitor s)))
      as [Hin | Hout].
    + rewrite (bool_decide_eq_true_2 _ Hin).
      repeat (match goal with
              | |- context [if ?b then _ else _] => destruct b
              end; cbn); reflexivity.
    + rewrite (bool_decide_eq_false_2 _ Hout).
      repeat (match goal with
              | |- context [if ?b then _ else _] => destruct b
              end; cbn); reflexivity.
  - repeat (match goal with
            | |- context [if ?b then _ else _] => destruct b
            end; cbn); reflexivity.
Qed.

(** One byte of a write, seen by the reservations. *)
Lemma process_write_byte_reservations (cfg : config) (off i : Z) (s : state)
    (t : TransId) :
  exclusive_transfers cfg = true ->
  indexed (monitor s) ->
  let a := i + ICMD.hAddr (wcommand s) in
  let m' := monitor (process_write_byte cfg off i s) in
  (t ∈ transaction_set m' <-> t ∈ transaction_set (monitor s) /\ ~ covers t a)
  /\ (t ∈ failed_transaction_set m'
      <-> t ∈ failed_transaction_set (monitor s)
          \/ (t ∈ transaction_set (monitor s) /\ covers t a)).
Proof.
  intros Hex Hidx a m'. subst m'. rewrite process_write_byte_monitor, Hex.
  cbn [andb]. fold a.
  destruct (decide (a ∈ watched_addresses (monitor s))) as [Hin | Hout].
  - rewrite (bool_decide_eq_true_2 _ Hin).
    unfold exclusive_trans_colision_update. cbn.
    rewrite elem_of_difference, elem_of_union, elem_of_filter. tauto.
  - rewrite (bool_decide_eq_false_2 _ Hout).
    assert (Hno : t ∈ transaction_set (monitor s) -> ~ covers t a).
    { intros Ht Hc. apply Hout. exact (Hidx t a Ht Hc). }
    tauto.
Qed.

Lemma process_write_reservations (cfg : config) (s : state) (t : TransId) :
  exclusive_transfers cfg = true ->
  indexed (monitor s) ->
  let W := wcommand s in
  let m' := monitor (process_write cfg s) in
  (t ∈ transaction_set m'
   <-> t ∈ transaction_set (monitor s) /\ ~ exists a, touches W a /\ covers t a)
  /\ (t ∈ failed_transaction_set m'
      <-> t ∈ failed_transaction_set (monitor s)
          \/ (t ∈ transaction_set (monitor s) /\ exists a, touches W a /\ covers t a)).
Proof.
  intros Hex Hidx W m'. subst m'. unfold process_write. cbv zeta.
  change (wcommand (set_process_wdata_next_cycle false s)) with W.
  set (off := ICMD.hAddr W mod bus_byte_width cfg).
  set (s0 := set_process_wdata_next_cycle false s).
  assert (Hgen : forall l (s' : state),
    wcommand s' = W -> indexed (monitor s') ->
    let r := fold_left (fun acc i => process_write_byte cfg off i acc) l s' in
    (t ∈ transaction_set (monitor r)
     <-> t ∈ transaction_set (monitor s')
         /\ ~ exists i, i ∈ l /\ covers t (i + ICMD.hAddr W))
    /\ (t ∈ failed_transaction_set (monitor r)
        <-> t ∈ failed_transaction_set (monitor s')
            \/ (t ∈ transaction_set (monitor s')
                /\ exists i, i ∈ l /\ covers t (i + ICMD.hAddr W)))).
  { induction l as [|i l IH]; intros s' Hw Hi; cbv zeta.
    - simpl. split; split; try tauto.
      + intros H. split; [exact H|]. intros (i & Hin & _).
        by apply not_elem_of_nil in Hin.
      + intros [H | (_ & i & Hin & _)]; [exact H|].
        by apply not_elem_of_nil in Hin.
    - simpl fold_left.
      destruct (process_write_byte_control cfg off i s')
        as [(_&_&_&_&_&Cw&_) _].
      pose proof (indexed_process_write_byte cfg off i s' Hi) as Hi'.
      destruct (IH (process_write_byte cfg off i s') (eq_trans Cw Hw) Hi')
        as [IH1 IH2].
      destruct (process_write_byte_reservations cfg off i s' t Hex Hi) as [S1 S2].
      cbv zeta in S1, S2. rewrite Hw in S1, S2.
      rewrite IH1, IH2, S1, S2. clear IH IH1 IH2 S1 S2.
      split; split.
      + intros ((Ht & Hn) & Hno). split; [exact Ht|].
        intros (j & Hj & Hc). apply elem_of_cons in Hj as [-> | Hj];
          [contradiction | apply Hno; eauto].
      + intros (Ht & Hno). split; [split; [exact Ht|]|].
        * intros Hc. apply Hno. exists i. split; [by left | exact Hc].
        * intros (j & Hj & Hc). apply Hno. exists j. split; [by right | exact Hc].
      + intros [[Hf | (Ht & Hc)] | ((Ht & Hn) & j & Hj & Hc)].
        * left. exact Hf.
        * right. split; [exact Ht|]. exists i. split; [by left | exact Hc].
        * right. split; [exact Ht|]. exists j. split; [by right | exact Hc].
      + intros [Hf | (Ht & j & Hj & Hc)]; [left; left; exact Hf|].
        apply elem_of_cons in Hj as [-> | Hj].
        * left. right. split; assumption.
        * destruct (decide (covers t (i + ICMD.hAddr W))) as [Hci | Hci].
          -- left. right. split; assumption.
          -- right. split; [split; assumption|]. exists j. split; assumption. }
  unfold for_range, range.
  destruct (Hgen (seqZ 0 (2 ^ HSIZE.val (ICMD.hSize W))) s0 eq_refl Hidx)
    as [G1 G2].
  cbv zeta in G1, G2. change (monitor s0) with (monitor s) in G1, G2.
  assert (Hiff : (exists i, i ∈ seqZ 0 (2 ^ HSIZE.val (ICMD.hSize W))
                            /\ covers t (i + ICMD.hAddr W))
                 <-> exists a, touches W a /\ covers t a).
  { unfold touches. split.
    - intros (i & Hi & Hc). apply elem_of_seqZ in Hi.
      exists (i + ICMD.hAddr W). split; [lia | exact Hc].
    - intros (a & Ha & Hc). exists (a - ICMD.hAddr W). split.
      + apply elem_of_seqZ. lia.
      + replace (a - ICMD.hAddr W + ICMD.hAddr W) with a by lia. exact Hc. }
  rewrite G1, G2, Hiff. tauto.
Qed.

(** X13.  A write fails the reservations it touches.  In every reachable
    state of a subordinate with exclusive transfers, [process_write] moves
    each reservation whose byte range holds a byte of the write from the
    reservation set to the failed set, and leaves every other reservation
    in place; it does so whether or not it stores the bytes. *)
Theorem write_fails_touched_reservations (cfg : config) (s : state) (t : TransId) :
  exclusive_transfers cfg = true ->
  reachable cfg s ->
  let W := wcommand s in
  let m' := monitor (process_write cfg s) in
  (t ∈ transaction_set m'
   <-> t ∈ transaction_set (monitor s) /\ ~ exists a, touches W a /\ covers t a)
  /\ (t ∈ failed_transaction_set m'
      <-> t ∈ failed_transaction_set (monitor s)
          \/ (t ∈ transaction_set (monitor s) /\ exists a, touches W a /\ covers t a)).
Proof.
  intros Hex Hr. apply process_write_reservations; [exact Hex|].
  by apply (reachable_indexed cfg).
Qed.

Lemma colliding_write_scheduled_reachable :
  reachable (mem32 false true false false) colliding_write_scheduled.
Proof.
  unfold colliding_write_scheduled.
  apply reach_cycle, reachable_accept, after_exclusive_read_reachable.
Qed.

(** The byte write at 4 fails the halfword reservation taken at 4. *)
Lemma write_fails_touched_reservations_witness :
  mkTransId 4 HSIZE.Halfword HPROT.default HBURST.Single 0 HNONSEC.Secure
  ∈ failed_transaction_set
      (monitor (process_write (mem32 false true false false)
                              colliding_write_scheduled)).
Proof.
  apply (proj2 (write_fails_touched_reservations (mem32 false true false false)
                  colliding_write_scheduled
                  (mkTransId 4 HSIZE.Halfword HPROT.default HBURST.Single 0
                             HNONSEC.Secure)
                  eq_refl colliding_write_scheduled_reachable)).
  right. split.
  - apply (bool_decide_unpack _). vm_compute. exact I.
  - exists 4. split.
    + apply (bool_decide_unpack _). vm_compute. exact I.
    + unfold covers. simpl. lia.
Defined.

Lemma cycle_finish_monitor (cfg : config) (r : bool) (s : state) :
  monitor (cycle_commit (cycle_prepare cfg r s)) = monitor s
  /\ SRESP.hExOkay (resp (cycle_commit (cycle_prepare cfg r s)))
     = default HEXOKAY.Failed (t_hExOkay (temp s)).
Proof.
  unfold cycle_commit, cycle_prepare.
  repeat (match goal with
          | |- context [decide ?P] => destruct (decide P)
          | |- context [if ?b then _ else _] => destruct b
          end; cbn); split; reflexivity.
Qed.

(** The state [process] sees in a cycle: the sampled state with the
    scheduled write applied. *)
Lemma flush_sample (cfg : config) (s : state) :
  let sb := cycle_sample s in
  let sw := if process_wdata_next_cycle sb then process_write cfg sb else sb in
  mem sw = mem (flushed cfg s) /\ monitor sw = monitor (flushed cfg s)
  /\ command sw = command s.
Proof.
  cbv zeta. unfold flushed.
  change (process_wdata_next_cycle (cycle_sample s))
    with (process_wdata_next_cycle s).
  destruct (process_wdata_next_cycle s).
  - destruct (process_write_data cfg s (cycle_sample s)) as (Hm & Hmo & _).
    { unfold same_data. cbn. auto. }
    destruct (process_write_control cfg (cycle_sample s))
      as [(_&_&_&_&_&_&_&Hc&_) _].
    split; [exact Hm | split; [exact Hmo | exact Hc]].
  - repeat split.
Qed.

Lemma cycle_evaluate_no_error (cfg : config) (p1 p2 : Z) (s : state) :
  is_ready s = true ->
  ICMD.hSel (command s) = HSEL.Sel ->
  let sb := cycle_sample s in
  let sw := if process_wdata_next_cycle sb then process_write cfg sb else sb in
  error (process cfg p1 p2 sw) = false ->
  cycle_evaluate cfg false p1 p2 sb = process cfg p1 p2 sw.
Proof.
  intros Hr Hsel sb sw He. unfold cycle_evaluate.
  change (is_ready sb) with (is_ready s). rewrite Hr.
  change (command sb) with (command s). rewrite Hsel.
  rewrite bool_decide_eq_true_2 by reflexivity. cbv zeta. cbn [andb].
  fold sw. rewrite He. reflexivity.
Qed.

(** [process] on a permitted transfer of a subordinate with exclusive
    transfers: the monitor and the verdict are those of
    [process_exclusive_transfer]. *)
Lemma process_exclusive (cfg : config) (p1 p2 : Z) (s : state) :
  exclusive_transfers cfg = true ->
  permitted cfg (command s) ->
  ICMD.hExcl (command s) = HEXCL.Excl ->
  let sp := process cfg p1 p2 s in
  let R := trans_id_of cfg (command s) in
  let m := monitor s in
  error sp = false
  /\ (ICMD.hWrite (command s) = HWRITE.Read ->
      transaction_set (monitor sp) = {[ R ]} ∪ transaction_set m
      /\ watched_addresses (monitor sp)
         = watch_range (ICMD.hAddr (command s))
                       (2 ^ HSIZE.val (ICMD.hSize (command s)))
                       (watched_addresses m)
      /\ failed_transaction_set (monitor sp) = failed_transaction_set m
      /\ no_collision (monitor sp) = no_collision m
      /\ t_hExOkay (temp sp) = Some HEXOKAY.Successful)
  /\ (ICMD.hWrite (command s) = HWRITE.Write -> live cfg s ->
      transaction_set (monitor sp) = transaction_set m
      /\ watched_addresses (monitor sp) = watched_addresses m
      /\ failed_transaction_set (monitor sp) = failed_transaction_set m
      /\ no_collision (monitor sp) = no_collision m
      /\ t_hExOkay (temp sp) = Some HEXOKAY.Successful)
  /\ (ICMD.hWrite (command s) = HWRITE.Write -> ~ live cfg s ->
      transaction_set (monitor sp) = transaction_set m
      /\ watched_addresses (monitor sp) = watched_addresses m
      /\ failed_transaction_set (monitor sp) = failed_transaction_set m ∖ {[ R ]}
      /\ no_collision (monitor sp) = false
      /\ t_hExOkay (temp sp) = Some HEXOKAY.Failed).
Proof.
  intros Hex Hperm Hexcl. cbv zeta. unfold process. cbv zeta. rewrite Hex.
  set (s1 := set_temp _ _).
  rewrite (process_secure_transfer_permitted cfg s1) by exact Hperm.
  change (error s1) with false. cbv iota.
  set (s2 := process_exclusive_transfer cfg s1).
  assert (Hfin : forall s3 : state,
            s3 = (if HTRANS.idle_or_busy (ICMD.hTrans (command s2))
                  then set_wait_cycles 0 s2
                  else if burst cfg
                          && bool_decide (ICMD.hTrans (command s2) = HTRANS.Seq)
                       then set_wait_cycles (Z.min p2 (max_wait_cycles cfg)) s2
                       else s2) ->
            error s3 = error s2 /\ monitor s3 = monitor s2 /\ temp s3 = temp s2).
  { intros s3 ->. destruct (HTRANS.idle_or_busy _); [|destruct (_ && _)];
      repeat split. }
  destruct (Hfin _ eq_refl) as (Fe & Fm & Ft). rewrite Fe, Fm, Ft. clear Hfin Fe Fm Ft.
  destruct (process_exclusive_transfer_control cfg s1) as (_ & Ee & _).
  fold s2 in Ee. split; [rewrite Ee; reflexivity|].
  subst s2. unfold process_exclusive_transfer. rewrite Hex.
  cbn [command set_monitor monitor].
  change (command s1) with (command s). change (monitor s1) with (monitor s).
  rewrite Hexcl.
  destruct (decide (HEXCL.Excl = HEXCL.Excl)) as [_ | Hne]; [|congruence].
  cbv zeta.
  split; [|split].
  - intros Hrd. rewrite Hrd.
    destruct (decide (HWRITE.Read = HWRITE.Read)) as [_ | Hne]; [|congruence].
    cbn. rewrite Hrd.
    destruct (decide (HWRITE.Read = HWRITE.Write)) as [? | _]; [congruence|].
    cbn. repeat split.
  - intros Hwr [Hin Hnf]. rewrite Hwr.
    destruct (decide (HWRITE.Write = HWRITE.Read)) as [? | _]; [congruence|].
    cbn [command set_monitor monitor]. change (command s1) with (command s).
    rewrite Hwr.
    destruct (decide (HWRITE.Write = HWRITE.Write)) as [_ | Hne]; [|congruence].
    cbn [monitor set_monitor set_no_colision transaction_set failed_transaction_set].
    change (monitor s1) with (monitor s).
    rewrite (bool_decide_eq_false_2 (_ ∉ _)) by (intros H; apply H; exact Hin).
    rewrite (bool_decide_eq_false_2 (_ ∈ _)) by exact Hnf.
    cbn. repeat split.
  - intros Hwr Hnl. rewrite Hwr.
    destruct (decide (HWRITE.Write = HWRITE.Read)) as [? | _]; [congruence|].
    cbn [command set_monitor monitor]. change (command s1) with (command s).
    rewrite Hwr.
    destruct (decide (HWRITE.Write = HWRITE.Write)) as [_ | Hne]; [|congruence].
    cbn [monitor set_monitor set_no_colision transaction_set failed_transaction_set].
    change (monitor s1) with (monitor s).
    assert (Hor : bool_decide (trans_id_of cfg (command s)
                               ∉ transaction_set (monitor s))
                  || bool_decide (trans_id_of cfg (command s)
                                  ∈ failed_transaction_set (monitor s)) = true).
    { apply orb_true_iff.
      destruct (decide (trans_id_of cfg (command s) ∈ transaction_set (monitor s)))
        as [Hin | Hout].
      - right. apply bool_decide_eq_true_2.
        destruct (decide (trans_id_of cfg (command s)
                          ∈ failed_transaction_set (monitor s))) as [Hf | Hnf];
          [exact Hf|].
        exfalso. apply Hnl. split; assumption.
      - left. apply bool_decide_eq_true_2. exact Hout. }
    rewrite Hor. cbn. repeat split.
Qed.

(** The cycle that evaluates a permitted exclusive transfer. *)
Lemma cycle_exclusive (cfg : config) (p1 p2 : Z) (s : state) :
  exclusive_transfers cfg = true ->
  is_ready s = true ->
  ICMD.hSel (command s) = HSEL.Sel ->
  permitted cfg (command s) ->
  ICMD.hExcl (command s) = HEXCL.Excl ->
  let s0 := flushed cfg s in
  let s1 := cycle cfg false p1 p2 s in
  let R := trans_id_of cfg (command s) in
  (ICMD.hWrite (command s) = HWRITE.Read ->
   transaction_set (monitor s1) = {[ R ]} ∪ transaction_set (monitor s0)
   /\ watched_addresses (monitor s1)
      = watch_range (ICMD.hAddr (command s)) (2 ^ HSIZE.val (ICMD.hSize (command s)))
                    (watched_addresses (monitor s0))
   /\ SRESP.hExOkay (resp s1) = HEXOKAY.Successful)
  /\ (ICMD.hWrite (command s) = HWRITE.Write ->
      R ∈ transaction_set (monitor s0) /\ R ∉ failed_transaction_set (monitor s0) ->
      transaction_set (monitor s1) = transaction_set (monitor s0)
      /\ failed_transaction_set (monitor s1) = failed_transaction_set (monitor s0)
      /\ no_collision (monitor s1) = no_collision (monitor s0)
      /\ SRESP.hExOkay (resp s1) = HEXOKAY.Successful
      /\ watched_addresses (monitor s1) = watched_addresses (monitor s0))
  /\ (ICMD.hWrite (command s) = HWRITE.Write ->
      ~ (R ∈ transaction_set (monitor s0)
         /\ R ∉ failed_transaction_set (monitor s0)) ->
      transaction_set (monitor s1) = transaction_set (monitor s0)
      /\ failed_transaction_set (monitor s1)
         = failed_transaction_set (monitor s0) ∖ {[ R ]}
      /\ no_collision (monitor s1) = false
      /\ SRESP.hExOkay (resp s1) = HEXOKAY.Failed
      /\ watched_addresses (monitor s1) = watched_addresses (monitor s0)).
Proof.
  intros Hex Hr Hsel Hperm Hexcl s0 s1 R.
  destruct (flush_sample cfg s) as (_ & Hmo & Hc). cbv zeta in Hmo, Hc.
  set (sb := cycle_sample s) in *.
  set (sw := if process_wdata_next_cycle sb then process_write cfg sb else sb) in *.
  assert (Hperm' : permitted cfg (command sw)) by (rewrite Hc; exact Hperm).
  assert (Hexcl' : ICMD.hExcl (command sw) = HEXCL.Excl) by (rewrite Hc; exact Hexcl).
  destruct (process_exclusive cfg p1 p2 sw Hex Hperm' Hexcl') as (Pe & Prd & Pok & Pko).
  cbv zeta in Prd, Pok, Pko. unfold live in Pok, Pko.
  rewrite Hc, Hmo in Prd, Pok, Pko. fold s0 R in Prd, Pok, Pko.
  pose proof (cycle_evaluate_no_error cfg p1 p2 s Hr Hsel Pe) as Hev.
  fold sb in Hev.
  destruct (cycle_finish_monitor cfg false (process cfg p1 p2 sw)) as (Fm & Fx).
  assert (Hs1 : s1 = cycle_commit (cycle_prepare cfg false (process cfg p1 p2 sw))).
  { subst s1. unfold cycle. fold sb. rewrite Hev. reflexivity. }
  rewrite Hs1, Fm, Fx. clear Hs1 Fm Fx Hev.
  split; [|split].
  - intros Hrd. destruct (Prd Hrd) as (H1 & H2 & _ & _ & H5).
    rewrite H1, H2, H5. repeat split.
  - intros Hwr Hl. destruct (Pok Hwr Hl) as (H1 & H2 & H3 & H4 & H5).
    rewrite H1, H2, H3, H4, H5. repeat split.
  - intros Hwr Hl. destruct (Pko Hwr Hl) as (H1 & H2 & H3 & H4 & H5).
    rewrite H1, H2, H3, H4, H5. repeat split.
Qed.

(** X14.  The verdict on an exclusive write.  In the cycle that evaluates a
    permitted exclusive write, the response carries
    [hExOkay = Successful] exactly when the tuple of the write is in the
    reservation set and not in the failed set, once the scheduled write of
    the previous transfer has been applied; then the reservation set, the
    failed set, the watched set and [no_collision] are left as they are.
    Otherwise [hExOkay] is [Failed], the tuple is dropped from the failed
    set, which is otherwise as it was, the reservation set and the watched
    set are left as they are, and [no_collision] is cleared, so that the
    data of the write will not be stored. *)
Theorem exclusive_write_verdict (cfg : config) (p1 p2 : Z) (s : state) :
  exclusive_transfers cfg = true ->
  is_ready s = true ->
  ICMD.hSel (command s) = HSEL.Sel ->
  permitted cfg (command s) ->
  ICMD.hExcl (command s) = HEXCL.Excl ->
  ICMD.hWrite (command s) = HWRITE.Write ->
  let s0 := flushed cfg s in
  let s1 := cycle cfg false p1 p2 s in
  let R := trans_id_of cfg (command s) in
  (R ∈ transaction_set (monitor s0) /\ R ∉ failed_transaction_set (monitor s0) ->
   SRESP.hExOkay (resp s1) = HEXOKAY.Successful
   /\ transaction_set (monitor s1) = transaction_set (monitor s0)
   /\ failed_transaction_set (monitor s1) = failed_transaction_set (monitor s0)
   /\ watched_addresses (monitor s1) = watched_addresses (monitor s0)
   /\ no_collision (monitor s1) = no_collision (monitor s0))
  /\ (~ (R ∈ transaction_set (monitor s0)
         /\ R ∉ failed_transaction_set (monitor s0)) ->
      SRESP.hExOkay (resp s1) = HEXOKAY.Failed
      /\ no_collision (monitor s1) = false
      /\ (R ∉ failed_transaction_set (monitor s1))
      /\ failed_transaction_set (monitor s1)
         = failed_transaction_set (monitor s0) ∖ {[ R ]}
      /\ transaction_set (monitor s1) = transaction_set (monitor s0)
      /\ watched_addresses (monitor s1) = watched_addresses (monitor s0)).
Proof.
  intros Hex Hr Hsel Hperm Hexcl Hwr s0 s1 R.
  destruct (cycle_exclusive cfg p1 p2 s Hex Hr Hsel Hperm Hexcl) as (_ & Hok & Hko).
  fold s0 s1 R in Hok, Hko. split.
  - intros Hl. destruct (Hok Hwr Hl) as (H1 & H2 & H3 & H4 & H5). auto 10.
  - intros Hl. destruct (Hko Hwr Hl) as (H1 & H2 & H3 & H4 & H5).
    split; [exact H4|]. split; [exact H3|]. split; [|auto].
    rewrite H2. intros Hin. apply elem_of_difference in Hin as [_ Hn].
    apply Hn. apply elem_of_singleton. reflexivity.
Qed.

(** An exclusive byte write at 0 for which no reservation was taken. *)
Lemma exclusive_write_verdict_witness :
  let cfg := mem32 false true false false in
  let s := holding (transfer 0 HSIZE.Byte HWRITE.Write HNONSEC.Secure HEXCL.Excl 0) 0 in
  SRESP.hExOkay (resp (cycle cfg false 0 0 s)) = HEXOKAY.Failed
  /\ no_collision (monitor (cycle cfg false 0 0 s)) = false.
Proof.
  intros cfg s.
  assert (Hperm : permitted cfg (command s)) by (left; reflexivity).
  destruct (exclusive_write_verdict cfg 0 0 s eq_refl eq_refl eq_refl Hperm
              eq_refl eq_refl) as (_ & Hko).
  destruct Hko as (H1 & H2 & _).
  - intros [Hin _]. revert Hin. apply (bool_decide_unpack _). vm_compute. exact I.
  - split; [exact H1 | exact H2].
Defined.

(** X15.  An exclusive read takes its reservation.  In the cycle that
    evaluates a permitted exclusive read the response carries
    [hExOkay = Successful], the tuple of the read joins the reservation
    set, and every byte of the transfer is watched. *)
Theorem exclusive_read_reserves (cfg : config) (p1 p2 : Z) (s : state) (a : Z) :
  exclusive_transfers cfg = true ->
  is_ready s = true ->
  ICMD.hSel (command s) = HSEL.Sel ->
  permitted cfg (command s) ->
  ICMD.hExcl (command s) = HEXCL.Excl ->
  ICMD.hWrite (command s) = HWRITE.Read ->
  covers (trans_id_of cfg (command s)) a ->
  let s1 := cycle cfg false p1 p2 s in
  SRESP.hExOkay (resp s1) = HEXOKAY.Successful
  /\ trans_id_of cfg (command s) ∈ transaction_set (monitor s1)
  /\ a ∈ watched_addresses (monitor s1).
Proof.
  intros Hex Hr Hsel Hperm Hexcl Hrd Hcov s1.
  destruct (cycle_exclusive cfg p1 p2 s Hex Hr Hsel Hperm Hexcl) as (Hread & _).
  destruct (Hread Hrd) as (H1 & H2 & H3). fold s1 in H1, H2, H3.
  rewrite H1, H2, H3. split; [reflexivity|].
  split; [apply elem_of_union; left; apply elem_of_singleton; reflexivity|].
  apply watch_range_elem. left. exact Hcov.
Qed.

Lemma exclusive_read_reserves_witness :
  let cfg := mem32 false true false false in
  let s := holding (transfer 4 HSIZE.Halfword HWRITE.Read HNONSEC.Secure
                             HEXCL.Excl 0) 0 in
  SRESP.hExOkay (resp (cycle cfg false 0 0 s)) = HEXOKAY.Successful
  /\ 5 ∈ watched_addresses (monitor (cycle cfg false 0 0 s)).
Proof.
  intros cfg s.
  assert (Hperm : permitted cfg (command s)) by (left; reflexivity).
  assert (Hcov : covers (trans_id_of cfg (command s)) 5)
    by (unfold covers; simpl; lia).
  destruct (exclusive_read_reserves cfg 0 0 s 5 eq_refl eq_refl eq_refl Hperm
              eq_refl eq_refl Hcov) as (H1 & _ & H3).
  split; [exact H1 | exact H3].
Defined.

(** X16.  Exclusive read after exclusive read.  On a subordinate with
    exclusive transfers and no burst tracking, when the secure filter is
    enabled or the read is Secure: once a selected, permitted exclusive
    read that is aligned, fits the bus and is not Busy has been latched and
    evaluated, presenting the same exclusive read again raises "exclusive
    read after exclusive read". *)
Theorem exclusive_read_twice_raises (cfg : config) (cmd : ICMD.t) (p1 p2 : Z)
    (s : state) :
  exclusive_transfers cfg = true ->
  burst cfg = false ->
  secure_transfer cfg = true \/ ICMD.hNonsec cmd = HNONSEC.Secure ->
  is_ready s = true ->
  command s = latch cfg cmd ->
  ICMD.hSel cmd = HSEL.Sel ->
  ICMD.hExcl cmd = HEXCL.Excl ->
  ICMD.hWrite cmd = HWRITE.Read ->
  ICMD.hTrans cmd <> HTRANS.Busy ->
  ICMD.hAddr cmd mod 2 ^ HSIZE.val (ICMD.hSize cmd) = 0 ->
  2 ^ HSIZE.val (ICMD.hSize cmd) <= bus_byte_width cfg ->
  permitted cfg (latch cfg cmd) ->
  put_cmd cfg cmd (set_ready HREADY.Working (cycle cfg false p1 p2 s))
  = Raise Exclusive_read_after_exclusive_read.
Proof.
  intros Hex Hbu Hns Hr Hc Hsel Hexcl Hrd Hnb Hal Hfit Hperm.
  assert (Hsel' : ICMD.hSel (command s) = HSEL.Sel) by (rewrite Hc; exact Hsel).
  assert (Hperm' : permitted cfg (command s)) by (rewrite Hc; exact Hperm).
  assert (Hexcl' : ICMD.hExcl (command s) = HEXCL.Excl).
  { rewrite Hc. cbn. rewrite Hex. exact Hexcl. }
  assert (Hrd' : ICMD.hWrite (command s) = HWRITE.Read) by (rewrite Hc; exact Hrd).
  destruct (cycle_exclusive cfg p1 p2 s Hex Hr Hsel' Hperm' Hexcl') as (Hread & _).
  destruct (Hread Hrd') as (H1 & _).
  set (s1 := cycle cfg false p1 p2 s) in *.
  assert (Hin : mkTransId (ICMD.hAddr cmd) (ICMD.hSize cmd) (ICMD.hProt cmd)
                          HBURST.Single (ICMD.hMaster cmd) (ICMD.hNonsec cmd)
                ∈ transaction_set (monitor s1)).
  { rewrite H1. apply elem_of_union. left. apply elem_of_singleton.
    rewrite Hc. unfold trans_id_of, latch. cbn. rewrite Hbu, Hex.
    destruct Hns as [-> | Hs]; [reflexivity|].
    destruct (secure_transfer cfg); [reflexivity | rewrite Hs; reflexivity]. }
  unfold put_cmd. cbv zeta.
  change (is_ready (set_input (latch cfg cmd) (set_ready HREADY.Working s1)))
    with true.
  cbn [negb]. rewrite decide_True by exact Hsel.
  rewrite decide_False by (intros H; apply H; exact Hal).
  rewrite decide_False by lia.
  rewrite Hbu, Hex. cbn [mbind result_bind].
  unfold exclusive_check.
  rewrite decide_True by exact Hexcl.
  rewrite Hbu. cbn [andb].
  rewrite decide_False by exact Hnb.
  rewrite decide_True by exact Hrd.
  cbn [command set_command input set_input monitor].
  rewrite decide_True; [reflexivity|].
  exact Hin.
Qed.

Lemma exclusive_read_twice_raises_witness :
  let cfg := mem32 false true false false in
  let cmd := transfer 4 HSIZE.Halfword HWRITE.Read HNONSEC.Secure HEXCL.Excl 0 in
  put_cmd cfg cmd (set_ready HREADY.Working (cycle cfg false 0 0 (holding cmd 0)))
  = Raise Exclusive_read_after_exclusive_read.
Proof.
  intros cfg cmd.
  apply (exclusive_read_twice_raises cfg cmd 0 0 (holding cmd 0) eq_refl eq_refl
           (or_intror eq_refl) eq_refl eq_refl eq_refl eq_refl eq_refl).
  - discriminate.
  - reflexivity.
  - vm_compute. discriminate.
  - left. reflexivity.
Defined.

(** Why X16 has its condition on [hNonsec]: on a memory without the secure
    filter a NonSecure exclusive read is latched as Secure, and presenting
    it a second time is accepted. *)
Remark nonsecure_exclusive_read_accepted_twice :
  let cfg := mem32 false true false false in
  let cmd := transfer 4 HSIZE.Halfword HWRITE.Read HNONSEC.NonSecure HEXCL.Excl 0 in
  let s := accept cfg cmd (set_ready HREADY.Working init) in
  command s = latch cfg cmd
  /\ returns (put_cmd cfg cmd (set_ready HREADY.Working (cycle cfg false 0 0 s)))
     = true.
Proof. split; vm_compute; reflexivity. Qed.

End ExclusiveProtocol.

Section ProtectionEncoding.

Lemma for_each_app {S : Type} (l1 l2 : list Z) (body : Z -> S -> result S) (s : S) :
  for_each (l1 ++ l2) body s = (s' ← for_each l1 body s; for_each l2 body s').
Proof.
  revert s. induction l1 as [|i l1 IH]; intros s; cbn; [reflexivity|].
  destruct (body i s) as [s1|e]; cbn; [apply IH | reflexivity].
Qed.

Lemma HPROT_item_field (hProt : HPROT.t) (i : Z) :
  0 <= i < 7 -> exists bit, HPROT_item hProt (i + 1) = Some bit.
Proof.
  intros Hi.
  assert (i = 0 \/ i = 1 \/ i = 2 \/ i = 3 \/ i = 4 \/ i = 5 \/ i = 6) as H by lia.
  destruct H as [->|[->|[->|[->|[->|[->| ->]]]]]]; cbn; eauto.
Qed.

Lemma hProt_loop_fields (hProt : HPROT.t) (l : list Z) (ret : Z) :
  Forall (fun i => 0 <= i < 7) l ->
  for_each l (fun i ret =>
                match HPROT_item hProt (i + 1) with
                | Some bit => let _ := Z.lor ret (Z.shiftl bit i) in Ok ret
                | None => Raise Index_error
                end) ret = Ok ret.
Proof.
  induction 1 as [|i l Hi _ IH]; cbn; [reflexivity|].
  destruct (HPROT_item_field hProt i Hi) as (bit & ->). cbn. exact IH.
Qed.

Lemma range_below (n k : Z) : n <= k -> Forall (fun i => 0 <= i < k) (range n).
Proof.
  intros Hn. apply Forall_forall. intros i Hi.
  unfold range in Hi. apply elem_of_seqZ in Hi. lia.
Qed.

(** X17.  [hProt_to_int] does not encode anything: for a descriptor of
    width at most 7 (the default width is 7) it returns 0 whatever the
    protection bits are, because the loop drops the bits it computes; for a
    width of 8 or more the loop reads past the last field and raises an
    index error. *)
Theorem hProt_to_int_discards_bits (hProt : HPROT.t) :
  (HPROT.width hProt <= 7 -> hProt_to_int hProt = Ok 0)
  /\ (8 <= HPROT.width hProt -> hProt_to_int hProt = Raise Index_error).
Proof.
  unfold hProt_to_int. split; intros Hw.
  - apply hProt_loop_fields, range_below, Hw.
  - unfold range.
    replace (HPROT.width hProt) with (7 + (HPROT.width hProt - 7)) by lia.
    rewrite seqZ_app by lia. rewrite for_each_app.
    change (seqZ 0 7) with (range 7).
    rewrite hProt_loop_fields by (apply range_below; lia).
    cbn [mbind result_bind]. rewrite seqZ_cons by lia. reflexivity.
Qed.

Lemma hProt_to_int_discards_bits_witness :
  hProt_to_int (HPROT.mk 7 true true true true true true true) = Ok 0
  /\ hProt_to_int (HPROT.mk 8 true true false false false false false)
     = Raise Index_error.
Proof.
  split.
  - apply (proj1 (hProt_to_int_discards_bits _)). simpl. lia.
  - apply (proj2 (hProt_to_int_discards_bits _)). simpl. lia.
Defined.

End ProtectionEncoding.

Section DefaultSubordinate.

Import SimDefaultSubordinate.

Lemma default_put_cmd_response (bbw : Z) (cmd : ICMD.t) (s s' : state) :
  put_cmd bbw cmd s = Ok s' ->
  temp s' = temp s /\ resp s' = resp s /\ old_resp s' = old_resp s.
Proof.
  unfold put_cmd. intros H.
  repeat match type of H with
         | context [if ?b then _ else _] => destruct b
         end; inversion H; subst; cbn; auto.
Qed.

Lemma default_reachable_no_data (bbw : Z) (s : state) :
  default_reachable bbw s ->
  (t_hRData (temp s) = None \/ t_hRData (temp s) = Some 0)
  /\ (SRESP.hRData (resp s) = 0 /\ SRESP.hExOkay (resp s) = HEXOKAY.Failed)
  /\ (SRESP.hRData (old_resp s) = 0 /\ SRESP.hExOkay (old_resp s) = HEXOKAY.Failed).
Proof.
  induction 1 as [|h s _ IH|cmd s s' _ IH Hp|d s _ IH|r s _ IH].
  - cbn. auto.
  - exact IH.
  - destruct (default_put_cmd_response _ _ _ _ Hp) as (-> & -> & ->). exact IH.
  - exact IH.
  - destruct IH as (Ht & Hr & _).
    assert (t_hRData (temp (if r then do_reset s
                            else if is_ready s
                                    && bool_decide (ICMD.hSel (command s) = HSEL.Sel)
                                 then process s else s)) = None
            \/ t_hRData (temp (if r then do_reset s
                            else if is_ready s
                                    && bool_decide (ICMD.hSel (command s) = HSEL.Sel)
                                 then process s else s)) = Some 0) as Ht'.
    { destruct r; [exact Ht|].
      destruct (is_ready s && _); [|exact Ht].
      unfold process. destruct (HTRANS.idle_or_busy _); cbn; auto. }
    unfold cycle. cbn.
    split; [exact Ht'|]. split; [|exact Hr].
    unfold SRESP_of_temp. cbn. split; [|reflexivity].
    destruct Ht' as [-> | ->]; reflexivity.
Qed.

(** X18.  The default subordinate never returns data and never grants an
    exclusive access: in every state the object can reach, the response
    [get_rsp] hands to the interconnect, and the one the monitor reports,
    carry [hRData = 0] and [hExOkay = Failed]. *)
Theorem default_subordinate_returns_no_data (bus_byte_width : Z) (s : state) :
  default_reachable bus_byte_width s ->
  SRESP.hRData (get_rsp s) = 0
  /\ SRESP.hExOkay (get_rsp s) = HEXOKAY.Failed
  /\ SRESP.hRData (old_resp s) = 0
  /\ SRESP.hExOkay (old_resp s) = HEXOKAY.Failed.
Proof.
  intros H. destruct (default_reachable_no_data _ _ H) as (_ & (H1 & H2) & H3 & H4).
  unfold get_rsp. auto.
Qed.

Lemma default_subordinate_returns_no_data_witness :
  let s := cycle false
             (default_accept
                (transfer 4 HSIZE.Word HWRITE.Read HNONSEC.Secure HEXCL.Excl 0)
                (set_ready HREADY.Working init)) in
  SRESP.hRData (get_rsp s) = 0
  /\ SRESP.hExOkay (get_rsp s) = HEXOKAY.Failed
  /\ SRESP.hRData (old_resp s) = 0
  /\ SRESP.hExOkay (old_resp s) = HEXOKAY.Failed.
Proof.
  apply (default_subordinate_returns_no_data 4).
  apply default_reachable_cycle.
  apply (default_reachable_put_cmd 4
           (transfer 4 HSIZE.Word HWRITE.Read HNONSEC.Secure HEXCL.Excl 0)
           (set_ready HREADY.Working init)).
  - apply default_reachable_set_ready, default_reachable_init.
  - vm_compute. reflexivity.
Defined.

End DefaultSubordinate.

Section ArbiterQueue.

Import SimInterconnect.

Lemma queue_all_queue (l : list (ICMD.t * manager)) (a : Arbiter.t) :
  queue_all l a
  = {| Arbiter.command_queue := Arbiter.command_queue a ++ l;
       Arbiter.interface := Arbiter.interface a |}.
Proof.
  revert a. induction l as [|[c m] l IH]; intros a; cbn.
  - rewrite app_nil_r. destruct a; reflexivity.
  - unfold queue_all in IH. rewrite IH. cbn. rewrite <- app_assoc. reflexivity.
Qed.

Lemma drain_queue (q : list (ICMD.t * manager)) (i : option manager) :
  (drain (List.length q) {| Arbiter.command_queue := q; Arbiter.interface := i |}).1
  = map (fun p => (p.1, Some p.2)) q
  /\ Arbiter.command_queue
       (drain (List.length q)
              {| Arbiter.command_queue := q; Arbiter.interface := i |}).2 = nil.
Proof.
  revert i. induction q as [|[c m] q IH]; intros i; cbn; [auto|].
  specialize (IH (Some m)).
  destruct (drain (List.length q) _) as [outs a']. cbn in *.
  destruct IH as [-> ->]. auto.
Qed.

(** X19.  The arbiter is a queue.  Whatever was queued before, after the
    calls [queue_cmd] for the pairs of [l] the calls of [get_cmd] return the
    commands in the order in which they were queued, each with the manager
    that queued it; once the queue is empty [get_cmd] returns the idle,
    unselected command with no manager.  [get_data] follows [get_cmd]: it
    returns the data of the manager whose command was handed out last, and
    0 when there was none. *)
Theorem arbiter_is_fifo (a : Arbiter.t) (l : list (ICMD.t * manager))
    (data : manager -> Z) :
  let q := Arbiter.command_queue a ++ l in
  let d := drain (List.length q) (queue_all l a) in
  d.1 = map (fun p => (p.1, Some p.2)) q
  /\ (Arbiter.get_cmd d.2).1 = (no_command, None)
  /\ Arbiter.get_data data (Arbiter.get_cmd d.2).2 = IDATA.mk 0
  /\ match (Arbiter.get_cmd a).1.2 with
     | Some m => Arbiter.get_data data (Arbiter.get_cmd a).2 = IDATA.mk (data m)
     | None => Arbiter.get_data data (Arbiter.get_cmd a).2 = IDATA.mk 0
     end.
Proof.
  intros q d. subst d. rewrite queue_all_queue. fold q.
  destruct (drain_queue q (Arbiter.interface a)) as [H1 H2].
  split; [exact H1|].
  unfold Arbiter.get_cmd at 1 2. rewrite H2. cbn.
  split; [reflexivity|]. split; [reflexivity|].
  unfold Arbiter.get_cmd. destruct (Arbiter.command_queue a) as [|[c m] rest]; reflexivity.
Qed.

End ArbiterQueue.

Section Registration.

Import SimInterconnect.

Lemma next_valid_from_Some (bound : nat) (ids : gmap Z manager) (n v : Z) :
  next_valid_from bound ids n = Some v ->
  ids !! v = None /\ n <= v /\ forall j, n <= j < v -> is_Some (ids !! j).
Proof.
  revert n. induction bound as [|bound IH]; intros n; cbn; [discriminate|].
  destruct (decide (is_Some (ids !! n))) as [Hn|Hn].
  - intros H. destruct (IH _ H) as (H1 & H2 & H3).
    split; [exact H1|]. split; [lia|].
    intros j Hj. destruct (decide (j = n)) as [->|]; [exact Hn|]. apply H3. lia.
  - intros [= <-]. split; [|split; [lia|intros; lia]].
    destruct (ids !! n) eqn:E; [|reflexivity]. exfalso. apply Hn. eauto.
Qed.

Lemma next_valid_from_None (bound : nat) (ids : gmap Z manager) (n : Z) :
  next_valid_from bound ids n = None ->
  forall j, n <= j < n + Z.of_nat bound -> is_Some (ids !! j).
Proof.
  revert n. induction bound as [|bound IH]; intros n; cbn; [intros; lia|].
  destruct (decide (is_Some (ids !! n))) as [Hn|Hn]; [|discriminate].
  intros H j Hj. destruct (decide (j = n)) as [->|]; [exact Hn|].
  apply (IH _ H). lia.
Qed.

(** The loop that looks for a free identifier ends: among
    [size ids + 1] integers one is not a key. *)
Lemma next_valid_from_total (ids : gmap Z manager) :
  exists v, next_valid_from (S (size ids)) ids 0 = Some v.
Proof.
  destruct (next_valid_from (S (size ids)) ids 0) as [v|] eqn:E; [eauto|].
  exfalso.
  pose proof (next_valid_from_None _ _ _ E) as H.
  assert (list_to_set (seqZ 0 (Z.of_nat (S (size ids)))) ⊆ (dom ids : gset Z)) as Hsub.
  { intros j Hj. apply elem_of_list_to_set, elem_of_seqZ in Hj.
    apply elem_of_dom, H. lia. }
  apply subseteq_size in Hsub.
  rewrite size_list_to_set in Hsub by apply NoDup_seqZ.
  rewrite length_seqZ, size_dom in Hsub. lia.
Qed.

(** What a registration of a manager that succeeds has checked and
    done. *)
Lemma register_manager_Done (m : manager) (w : Z) (oid : option Z) (d : subordinate)
    (r r' : registry) :
  register_manager m w oid d r = Done r' ->
  let f := fabric_of r in
  let f' := fabric_of r' in
  manager_address_map f !! m = None
  /\ (exists nv,
        id_to_manager r !! nv = None /\ 0 <= nv
        /\ (forall j, 0 <= j < nv -> is_Some (id_to_manager r !! j))
        /\ match oid with
           | None =>
               manager_to_id f' = <[ m := nv ]> (manager_to_id f)
               /\ id_to_manager r' = <[ nv := m ]> (id_to_manager r)
               /\ manager_used_id r' = manager_used_id r
           | Some i =>
               (i ∉ manager_used_id r)
               /\ manager_used_id r' = {[ i ]} ∪ manager_used_id r
               /\ match id_to_manager r !! i with
                  | Some m0 =>
                      manager_to_id f' = <[ m := i ]> (<[ m0 := nv ]> (manager_to_id f))
                      /\ id_to_manager r'
                         = <[ i := m ]> (<[ nv := m0 ]> (id_to_manager r))
                  | None =>
                      manager_to_id f' = <[ m := i ]> (manager_to_id f)
                      /\ id_to_manager r' = <[ i := m ]> (id_to_manager r)
                  end
           end)
  /\ manager_address_map f' = <[ m := nil ]> (manager_address_map f)
  /\ manager_default_subordinate f' = <[ m := d ]> (manager_default_subordinate f)
  /\ manager_id_subordinate_map f' = manager_id_subordinate_map f
  /\ arbiters f' = arbiters f
  /\ managers_ready f' = managers_ready f
  /\ managers_waiting f' = {[ m ]} ∪ managers_waiting f
  /\ subordinates_waiting r' = subordinates_waiting r
  /\ bus_width r' = Some w
  /\ (bus_width r = None \/ bus_width r = Some w)
  /\ default_subordinate_accepts w = true.
Proof.
  unfold register_manager. intros H.
  destruct (decide (is_Some (manager_address_map (fabric_of r) !! m))) as [|Hm];
    [discriminate|].
  assert (manager_address_map (fabric_of r) !! m = None) as Hm'.
  { destruct (manager_address_map (fabric_of r) !! m); [exfalso; eauto | reflexivity]. }
  destruct (next_valid_from _ _ 0) as [nv|] eqn:Env.
  2:{ destruct oid as [i|]; [destruct (bool_decide _)|]; discriminate. }
  destruct (next_valid_from_Some _ _ _ _ Env) as (Hnv1 & Hnv2 & Hnv3).
  assert (exists w0, (match bus_width r with
                      | Some w0 => if decide (w0 = w) then Done w0
                                   else AssertionError Bus_width_mismatch
                      | None => Done w
                      end) = Done w0 -> w0 = w) as _ by (exists w; auto).
  destruct oid as [i|]; cbn in H.
  - case_bool_decide as Hi; [discriminate|].
    destruct (id_to_manager r !! i) as [m0|] eqn:Ei; cbn in H.
    + destruct (bus_width r) as [w0|] eqn:Ew;
        [destruct (decide (w0 = w)) as [->|]; [|discriminate]|];
        (destruct (default_subordinate_accepts w) eqn:Ea; [|discriminate]);
        inversion H; subst r'; cbn;
        (split; [exact Hm'|]); (split; [exists nv; auto 10|]); auto 20.
    + destruct (bus_width r) as [w0|] eqn:Ew;
        [destruct (decide (w0 = w)) as [->|]; [|discriminate]|];
        (destruct (default_subordinate_accepts w) eqn:Ea; [|discriminate]);
        inversion H; subst r'; cbn;
        (split; [exact Hm'|]); (split; [exists nv; auto 10|]); auto 20.
  - destruct (bus_width r) as [w0|] eqn:Ew;
      [destruct (decide (w0 = w)) as [->|]; [|discriminate]|];
      (destruct (default_subordinate_accepts w) eqn:Ea; [|discriminate]);
      inversion H; subst r'; cbn;
      (split; [exact Hm'|]); (split; [exists nv; auto 10|]); auto 20.
Qed.

Lemma register_subordinate_Done (sub : subordinate) (w : Z) (r r' : registry) :
  register_subordinate sub w r = Done r' ->
  let f := fabric_of r in
  let f' := fabric_of r' in
  arbiters f !! sub = None
  /\ arbiters f' = <[ sub := Arbiter.init ]> (arbiters f)
  /\ manager_to_id f' = manager_to_id f
  /\ id_to_manager r' = id_to_manager r
  /\ manager_used_id r' = manager_used_id r
  /\ manager_address_map f' = manager_address_map f
  /\ manager_default_subordinate f' = manager_default_subordinate f
  /\ manager_id_subordinate_map f' = manager_id_subordinate_map f
  /\ managers_ready f' = managers_ready f
  /\ managers_waiting f' = managers_waiting f
  /\ subordinates_waiting r' = {[ sub ]} ∪ subordinates_waiting r
  /\ bus_width r' = Some w
  /\ (bus_width r = None \/ bus_width r = Some w).
Proof.
  unfold register_subordinate. intros H.
  destruct (decide (is_Some (arbiters (fabric_of r) !! sub))) as [|Hs]; [discriminate|].
  assert (arbiters (fabric_of r) !! sub = None) as Hs'.
  { destruct (arbiters (fabric_of r) !! sub); [exfalso; eauto | reflexivity]. }
  destruct (bus_width r) as [w0|] eqn:Ew;
    [destruct (decide (w0 = w)) as [->|]; [|discriminate]|];
    inversion H; subst r'; cbn; auto 20.
Qed.

Lemma register_region_Done (m : manager) (sub : subordinate) (address size : Z)
    (r r' : registry) :
  register_manager_subordinate_addr m sub address size r = Done r' ->
  let f := fabric_of r in
  let f' := fabric_of r' in
  exists regions,
    manager_address_map f !! m = Some regions
    /\ is_Some (arbiters f !! sub)
    /\ address mod 1024 = 0
    /\ forallb (apart address size) regions = true
    /\ manager_address_map f'
       = <[ m := regions ++ (address, size) :: nil ]> (manager_address_map f)
    /\ manager_id_subordinate_map f'
       = <[ (m, List.length regions) := sub ]> (manager_id_subordinate_map f)
    /\ arbiters f' = arbiters f
    /\ manager_to_id f' = manager_to_id f
    /\ id_to_manager r' = id_to_manager r
    /\ manager_used_id r' = manager_used_id r
    /\ manager_default_subordinate f' = manager_default_subordinate f
    /\ managers_ready f' = managers_ready f
    /\ managers_waiting f' = managers_waiting f
    /\ subordinates_waiting r' = subordinates_waiting r
    /\ bus_width r' = bus_width r.
Proof.
  unfold register_manager_subordinate_addr. intros H.
  destruct (manager_address_map (fabric_of r) !! m) as [regions|]; [|discriminate].
  destruct (decide (arbiters (fabric_of r) !! sub = None)) as [|Hs]; [discriminate|].
  destruct (decide (address mod 1024 <> 0)) as [|Ha]; [discriminate|].
  destruct (forallb (apart address size) regions) eqn:Hf; [|discriminate].
  inversion H; subst r'; cbn. exists regions.
  split; [reflexivity|]. split.
  { destruct (arbiters (fabric_of r) !! sub); [eauto | congruence]. }
  split; [lia|]. auto 20.
Qed.


Lemma ids_insert_fresh (tid : gmap manager Z) (ids : gmap Z manager) (m : manager)
    (i : Z) :
  (forall m' j, tid !! m' = Some j <-> ids !! j = Some m') ->
  tid !! m = None -> ids !! i = None ->
  forall m' j, <[ m := i ]> tid !! m' = Some j <-> <[ i := m ]> ids !! j = Some m'.
Proof.
  intros Hb Hm Hi m' j. rewrite !lookup_insert_Some. specialize (Hb m' j).
  split.
  - intros [[-> ->]|[Hne H]]; [auto|]. right. apply Hb in H. split; [congruence|exact H].
  - intros [[-> ->]|[Hne H]]; [auto|]. right. apply Hb in H. split; [congruence|exact H].
Qed.

Lemma ids_insert_moved (tid : gmap manager Z) (ids : gmap Z manager) (m m0 : manager)
    (i nv : Z) :
  (forall m' j, tid !! m' = Some j <-> ids !! j = Some m') ->
  tid !! m = None -> ids !! i = Some m0 -> ids !! nv = None ->
  forall m' j,
    <[ m := i ]> (<[ m0 := nv ]> tid) !! m' = Some j
    <-> <[ i := m ]> (<[ nv := m0 ]> ids) !! j = Some m'.
Proof.
  intros Hb Hm Hi Hnv m' j. rewrite !lookup_insert_Some.
  pose proof (proj2 (Hb m0 i) Hi) as H0.
  assert (m0 <> m) as Hmm by congruence.
  assert (nv <> i) as Hni by congruence.
  specialize (Hb m' j).
  split.
  - intros [[-> ->]|[Hne [[-> ->]|[Hne' H]]]]; [auto| |].
    + right. split; [congruence|]. left. auto.
    + apply Hb in H. right. split; [congruence|]. right. split; [congruence|exact H].
  - intros [[-> ->]|[Hne [[-> ->]|[Hne' H]]]]; [auto| |].
    + right. split; [congruence|]. left. auto.
    + apply Hb in H. right. split; [congruence|]. right. split; [congruence|exact H].
Qed.

(** The identifiers of a built interconnect: the two dictionaries are
    inverse to each other, the managers with an identifier are the
    registered ones, and a requested identifier is in use. *)
Lemma built_ids (r : registry) :
  built r ->
  (forall m i, manager_to_id (fabric_of r) !! m = Some i
               <-> id_to_manager r !! i = Some m)
  /\ (forall m, manager_address_map (fabric_of r) !! m = None
                <-> manager_to_id (fabric_of r) !! m = None)
  /\ (forall i, i ∈ manager_used_id r -> is_Some (id_to_manager r !! i)).
Proof.
  induction 1 as [|m w oid d r r' _ IH Hreg|sub w r r' _ IH Hreg
                  |m sub a sz r r' _ IH Hreg].
  - cbn. split; [|split].
    + intros m i. rewrite !lookup_empty. split; discriminate.
    + intros m. rewrite !lookup_empty. tauto.
    + intros i Hi. exfalso. exact (not_elem_of_empty i Hi).
  - destruct IH as (Hb & Hd & Hu).
    destruct (register_manager_Done _ _ _ _ _ _ Hreg)
      as (Hm & (nv & Hnv & _ & _ & Hid) & Ham & _).
    pose proof (proj1 (Hd m) Hm) as Hm'.
    destruct oid as [i|].
    + destruct Hid as (Hi & Hused & Hid).
      destruct (id_to_manager r !! i) as [m0|] eqn:Ei.
      * destruct Hid as (Ht & Hids). rewrite Ht, Hids, Ham, Hused.
        split; [apply ids_insert_moved; auto|]. split.
        -- intros m'. rewrite !lookup_insert_None. rewrite Hd.
           pose proof (proj2 (Hb m0 i) Ei). split; [|tauto].
           intros [H1 H2]. repeat split; auto. congruence.
        -- intros j Hj. rewrite !lookup_insert_is_Some.
           apply elem_of_union in Hj. destruct Hj as [Hj|Hj].
           ++ apply elem_of_singleton in Hj. auto.
           ++ destruct (decide (i = j)); [auto|]. right. split; [auto|].
              destruct (decide (nv = j)); [auto|]. right. auto.
      * destruct Hid as (Ht & Hids). rewrite Ht, Hids, Ham, Hused.
        split; [apply ids_insert_fresh; auto|]. split.
        -- intros m'. rewrite !lookup_insert_None. rewrite Hd. tauto.
        -- intros j Hj. rewrite lookup_insert_is_Some.
           apply elem_of_union in Hj. destruct Hj as [Hj|Hj].
           ++ apply elem_of_singleton in Hj. auto.
           ++ destruct (decide (i = j)); [auto|]. right. auto.
    + destruct Hid as (Ht & Hids & Hused). rewrite Ht, Hids, Ham, Hused.
      split; [apply ids_insert_fresh; auto|]. split.
      * intros m'. rewrite !lookup_insert_None. rewrite Hd. tauto.
      * intros j Hj. rewrite lookup_insert_is_Some.
        destruct (decide (nv = j)); [auto|]. right. auto.
  - destruct (register_subordinate_Done _ _ _ _ Hreg)
      as (_ & _ & Ht & Hids & Hused & Ham & _).
    rewrite Ht, Hids, Hused, Ham. exact IH.
  - destruct (register_region_Done _ _ _ _ _ _ Hreg)
      as (regions & Hm & _ & _ & _ & Ham & _ & _ & Ht & Hids & Hused & _).
    rewrite Ht, Hids, Hused, Ham. destruct IH as (Hb & Hd & Hu).
    split; [exact Hb|]. split; [|exact Hu].
    intros m'. rewrite lookup_insert_None. rewrite <- Hd.
    split; [tauto|]. intros H'. split; [exact H'|]. congruence.
Qed.

(** In a built interconnect every registered manager has a default
    subordinate, and every region of a manager has a subordinate with an
    arbiter. *)
Lemma built_routing (r : registry) :
  built r ->
  (forall m, is_Some (manager_address_map (fabric_of r) !! m) ->
             is_Some (manager_default_subordinate (fabric_of r) !! m))
  /\ (forall m regions i,
        manager_address_map (fabric_of r) !! m = Some regions ->
        (i < List.length regions)%nat ->
        exists sub, manager_id_subordinate_map (fabric_of r) !! (m, i) = Some sub
                    /\ is_Some (arbiters (fabric_of r) !! sub)).
Proof.
  induction 1 as [|m w oid d r r' _ IH Hreg|sub w r r' _ IH Hreg
                  |m sub a sz r r' _ IH Hreg].
  - cbn. split.
    + intros m. rewrite lookup_empty. intros [? ?]; discriminate.
    + intros m regions i. rewrite lookup_empty. discriminate.
  - destruct IH as (Hdef & Hreg').
    destruct (register_manager_Done _ _ _ _ _ _ Hreg)
      as (Hm & _ & Ham & Hds & Hmap & Harb & _).
    rewrite Ham, Hds, Hmap, Harb. split.
    + intros m'. rewrite !lookup_insert_is_Some.
      intros [->|[Hne H']]; [auto|]. right. auto.
    + intros m' regions i. rewrite lookup_insert_Some.
      intros [[-> <-]|[Hne H']]; [cbn; lia|]. eauto.
  - destruct IH as (Hdef & Hreg').
    destruct (register_subordinate_Done _ _ _ _ Hreg)
      as (_ & Harb & _ & _ & _ & Ham & Hds & Hmap & _).
    rewrite Ham, Hds, Hmap, Harb. split; [exact Hdef|].
    intros m regions i Hm Hi. destruct (Hreg' m regions i Hm Hi) as (s & Hs & Ha).
    exists s. split; [exact Hs|]. rewrite lookup_insert_is_Some.
    destruct (decide (sub = s)); [auto|]. right. auto.
  - destruct IH as (Hdef & Hreg').
    destruct (register_region_Done _ _ _ _ _ _ Hreg)
      as (regions & Hm & Hsub & _ & _ & Ham & Hmap & Harb & _ & _ & _ & Hds & _).
    rewrite Ham, Hds, Hmap, Harb. split.
    + intros m'. rewrite lookup_insert_is_Some.
      intros [->|[Hne H']]; [apply Hdef; rewrite Hm; eauto | auto].
    + intros m' regions' i. rewrite lookup_insert_Some.
      intros [[-> <-]|[Hne H']] Hi.
      * rewrite length_app in Hi. cbn in Hi.
        destruct (decide (i = List.length regions)) as [->|Hne].
        -- exists sub. rewrite lookup_insert_eq. auto.
        -- rewrite lookup_insert_ne by congruence. apply (Hreg' _ regions i Hm). lia.
      * rewrite lookup_insert_ne by congruence. eauto.
Qed.

Lemma apart_disjoint (address size : Z) (p : Z * Z) (x : Z) :
  apart address size p = true ->
  p.1 <= x < p.1 + p.2 -> address <= x < address + size -> False.
Proof.
  unfold apart. destruct p as [a s]. cbn.
  rewrite andb_true_iff, !negb_true_iff, !bool_decide_eq_false. lia.
Qed.

(** The regions of a manager of a built interconnect start at multiples
    of 1 KiB and share no address. *)
Lemma built_regions (r : registry) :
  built r ->
  forall m regions,
    manager_address_map (fabric_of r) !! m = Some regions ->
    (forall i p, regions !! i = Some p -> p.1 mod 1024 = 0)
    /\ (forall (i j : nat) p q x,
          regions !! i = Some p -> regions !! j = Some q -> i <> j ->
          p.1 <= x < p.1 + p.2 -> q.1 <= x < q.1 + q.2 -> False).
Proof.
  induction 1 as [|m w oid d r r' _ IH Hreg|sub w r r' _ IH Hreg
                  |m sub a sz r r' _ IH Hreg].
  - cbn. intros m regions. rewrite lookup_empty. discriminate.
  - destruct (register_manager_Done _ _ _ _ _ _ Hreg) as (Hm & _ & Ham & _).
    rewrite Ham. intros m' regions. rewrite lookup_insert_Some.
    intros [[-> <-]|[Hne H']]; [|eauto].
    split; intros *; rewrite lookup_nil; discriminate.
  - destruct (register_subordinate_Done _ _ _ _ Hreg)
      as (_ & _ & _ & _ & _ & Ham & _).
    rewrite Ham. exact IH.
  - destruct (register_region_Done _ _ _ _ _ _ Hreg)
      as (regions & Hm & _ & Hal & Hap & Ham & _).
    rewrite Ham. intros m' regions'. rewrite lookup_insert_Some.
    intros [[-> <-]|[Hne H']]; [|eauto].
    destruct (IH _ regions Hm) as (Hal' & Hdis).
    rewrite forallb_forall in Hap.
    assert (forall i p, regions !! i = Some p -> apart a sz p = true) as Hap'.
    { intros i p Hp. apply Hap. apply list_elem_of_In. eapply list_elem_of_lookup_2, Hp. }
    split.
    + intros i p. rewrite lookup_app_Some.
      intros [Hp|[_ Hp]]; [eauto|].
      apply list_lookup_singleton_Some in Hp. destruct Hp as [_ <-]. exact Hal.
    + intros i j p q x. rewrite !lookup_app_Some.
      intros [Hp|[Hi Hp]] [Hq|[Hj Hq]] Hij Hx Hy.
      * eauto.
      * apply list_lookup_singleton_Some in Hq. destruct Hq as [_ <-].
        eapply apart_disjoint; eauto.
      * apply list_lookup_singleton_Some in Hp. destruct Hp as [_ <-].
        eapply apart_disjoint; eauto.
      * apply list_lookup_singleton_Some in Hp, Hq. lia.
Qed.


Lemma first_region_app (x : Z) (i : nat) (l1 l2 : list (Z * Z)) :
  first_region x i (l1 ++ l2)
  = match first_region x i l1 with
    | Some k => Some k
    | None => first_region x (i + List.length l1) l2
    end.
Proof.
  revert i. induction l1 as [|[a s] l1 IH]; intros i; cbn.
  - rewrite Nat.add_0_r. reflexivity.
  - destruct (decide (a <= x < a + s)); [reflexivity|].
    rewrite IH. rewrite Nat.add_succ_r. reflexivity.
Qed.

Lemma first_region_None (x : Z) (i : nat) (l : list (Z * Z)) :
  first_region x i l = None
  <-> forall j p, l !! j = Some p -> ~ p.1 <= x < p.1 + p.2.
Proof.
  revert i. induction l as [|[a s] l IH]; intros i; cbn.
  - split; [|reflexivity]. intros _ j p. rewrite lookup_nil. discriminate.
  - destruct (decide (a <= x < a + s)) as [Hin|Hout].
    + split; [discriminate|]. intros H. exfalso. exact (H 0%nat (a, s) eq_refl Hin).
    + rewrite IH. split.
      * intros H [|j] p; cbn; [intros [= <-]; exact Hout | apply H].
      * intros H j p Hp. exact (H (S j) p Hp).
Qed.

Lemma first_region_Some (x : Z) (i k : nat) (l : list (Z * Z)) :
  first_region x i l = Some k ->
  (i <= k)%nat
  /\ exists p, l !! (k - i)%nat = Some p /\ p.1 <= x < p.1 + p.2.
Proof.
  revert i. induction l as [|[a s] l IH]; intros i; cbn; [discriminate|].
  destruct (decide (a <= x < a + s)) as [Hin|Hout].
  - intros [= <-]. split; [lia|]. rewrite Nat.sub_diag. exists (a, s). auto.
  - intros H. destruct (IH _ H) as (Hle & p & Hp & Hx).
    split; [lia|]. exists p. split; [|exact Hx].
    replace (k - i)%nat with (S (k - S i)) by lia. exact Hp.
Qed.

(** X20.  A registered region routes to its subordinate.  When
    [register_manager_subordinate_addr] accepts the region
    [address, address + size) of a manager for a subordinate, a command
    of that manager with an address in the region is decoded to that
    subordinate; every other address of that manager, and every command
    of another manager, is decoded as before. *)
Theorem region_routes_to_its_subordinate (m m' : manager) (sub : subordinate)
    (address size : Z) (r r' : registry) (cmd : MCMD.t) :
  register_manager_subordinate_addr m sub address size r = Done r' ->
  (address <= MCMD.hAddr cmd < address + size ->
   get_subordinate_from_manager_cmd (fabric_of r') m cmd = Ok sub)
  /\ (~ address <= MCMD.hAddr cmd < address + size ->
      get_subordinate_from_manager_cmd (fabric_of r') m cmd
      = get_subordinate_from_manager_cmd (fabric_of r) m cmd)
  /\ (m' <> m ->
      get_subordinate_from_manager_cmd (fabric_of r') m' cmd
      = get_subordinate_from_manager_cmd (fabric_of r) m' cmd).
Proof.
  intros Hreg.
  destruct (register_region_Done _ _ _ _ _ _ Hreg)
    as (regions & Hm & _ & _ & Hap & Ham & Hmap & _ & _ & _ & _ & Hds & _).
  unfold get_subordinate_from_manager_cmd. rewrite Ham, Hmap, Hds.
  split; [|split].
  - intros Hin. rewrite lookup_insert_eq. cbn.
    rewrite first_region_app.
    assert (first_region (MCMD.hAddr cmd) 0 regions = None) as ->.
    { apply first_region_None. intros j p Hp Hx.
      rewrite forallb_forall in Hap.
      apply (apart_disjoint address size p (MCMD.hAddr cmd)); auto.
      apply Hap, list_elem_of_In. eapply list_elem_of_lookup_2, Hp. }
    cbn. destruct (decide (address <= MCMD.hAddr cmd < address + size)); [|tauto].
    rewrite lookup_insert_eq. reflexivity.
  - intros Hout. rewrite lookup_insert_eq, Hm. cbn.
    rewrite first_region_app.
    destruct (first_region (MCMD.hAddr cmd) 0 regions) as [k|] eqn:Ek.
    + destruct (first_region_Some _ _ _ _ Ek) as (_ & p & Hp & _).
      apply lookup_lt_Some in Hp.
      rewrite lookup_insert_ne; [reflexivity|]. intros [= E]. lia.
    + cbn. destruct (decide (address <= MCMD.hAddr cmd < address + size)); [tauto|].
      reflexivity.
  - intros Hne. rewrite lookup_insert_ne by congruence.
    destruct (manager_address_map (fabric_of r) !! m') as [regions'|]; [|reflexivity].
    cbn. destruct (first_region (MCMD.hAddr cmd) 0 regions') as [k|]; [|reflexivity].
    rewrite lookup_insert_ne; [reflexivity|]. congruence.
Qed.

Lemma region_routes_to_its_subordinate_witness :
  get_subordinate_from_manager_cmd (fabric_of with_region) 0%nat (word_write 0x4010 0)
  = Ok 0%nat
  /\ get_subordinate_from_manager_cmd (fabric_of with_region) 0%nat (word_write 0x10 0)
     = get_subordinate_from_manager_cmd (fabric_of with_subordinate) 0%nat
         (word_write 0x10 0)
  /\ get_subordinate_from_manager_cmd (fabric_of with_region) 1%nat (word_write 0x4010 0)
     = get_subordinate_from_manager_cmd (fabric_of with_subordinate) 1%nat
         (word_write 0x4010 0).
Proof.
  assert (register_manager_subordinate_addr 0%nat 0%nat 0x4000 0x4000 with_subordinate
          = Done with_region) as H by (vm_compute; reflexivity).
  split; [|split].
  - apply (proj1 (region_routes_to_its_subordinate 0%nat 1%nat 0%nat 0x4000 0x4000
                    with_subordinate with_region (word_write 0x4010 0) H)).
    simpl. lia.
  - apply (proj1 (proj2 (region_routes_to_its_subordinate 0%nat 1%nat 0%nat 0x4000
                           0x4000 with_subordinate with_region (word_write 0x10 0) H))).
    simpl. lia.
  - apply (proj2 (proj2 (region_routes_to_its_subordinate 0%nat 1%nat 0%nat 0x4000
                           0x4000 with_subordinate with_region (word_write 0x4010 0) H))).
    lia.
Defined.


Lemma with_region_built : built with_region.
Proof.
  apply (built_region 0%nat 0%nat 0x4000 0x4000 with_subordinate);
    [|vm_compute; reflexivity].
  apply (built_subordinate 0%nat 32 two_managers); [|vm_compute; reflexivity].
  apply (built_manager 1%nat 32 (Some 0) 11%nat one_manager); [|vm_compute; reflexivity].
  apply (built_manager 0%nat 32 None 10%nat init); [|vm_compute; reflexivity].
  apply built_init.
Qed.

(** X21.  The address decode of a built interconnect is unambiguous.  The
    regions registered for a manager start at multiples of 1 KiB and no
    address lies in two of them; so a command with an address in a region
    is decoded to the subordinate registered with that region, which has
    an arbiter, and a command with an address in no region to the default
    subordinate of the manager. *)
Theorem decode_is_unambiguous (r : registry) (m : manager) (regions : list (Z * Z))
    (cmd : MCMD.t) :
  built r ->
  manager_address_map (fabric_of r) !! m = Some regions ->
  (forall i a l,
      regions !! i = Some (a, l) -> a <= MCMD.hAddr cmd < a + l ->
      a mod 1024 = 0
      /\ (forall j a' l', regions !! j = Some (a', l') ->
                          a' <= MCMD.hAddr cmd < a' + l' -> j = i)
      /\ exists sub,
           get_subordinate_from_manager_cmd (fabric_of r) m cmd = Ok sub
           /\ manager_id_subordinate_map (fabric_of r) !! (m, i) = Some sub
           /\ is_Some (arbiters (fabric_of r) !! sub))
  /\ ((forall i a l, regions !! i = Some (a, l) -> ~ a <= MCMD.hAddr cmd < a + l) ->
      exists d,
        get_subordinate_from_manager_cmd (fabric_of r) m cmd = Ok d
        /\ manager_default_subordinate (fabric_of r) !! m = Some d).
Proof.
  intros Hb Hm.
  destruct (built_regions r Hb m regions Hm) as (Hal & Hdis).
  destruct (built_routing r Hb) as (Hdef & Hsub).
  split.
  - intros i a l Hi Hx.
    assert (forall j a' l', regions !! j = Some (a', l') ->
                            a' <= MCMD.hAddr cmd < a' + l' -> j = i) as Huniq.
    { intros j a' l' Hj Hx'. destruct (decide (j = i)) as [|Hne]; [assumption|].
      exfalso. exact (Hdis j i (a', l') (a, l) (MCMD.hAddr cmd) Hj Hi Hne Hx' Hx). }
    split; [exact (Hal i (a, l) Hi)|]. split; [exact Huniq|].
    destruct (Hsub m regions i Hm (lookup_lt_Some _ _ _ Hi)) as (sub & Hs & Ha).
    exists sub. split; [|auto].
    unfold get_subordinate_from_manager_cmd. rewrite Hm. cbn.
    destruct (first_region (MCMD.hAddr cmd) 0 regions) as [k|] eqn:Ek.
    + destruct (first_region_Some _ _ _ _ Ek) as (_ & [a' l'] & Hp & Hx').
      rewrite Nat.sub_0_r in Hp. rewrite (Huniq k a' l' Hp Hx'), Hs. reflexivity.
    + exfalso. exact (proj1 (first_region_None _ _ _) Ek i (a, l) Hi Hx).
  - intros Hout.
    destruct (Hdef m) as [d Hd]; [rewrite Hm; eauto|].
    exists d. split; [|exact Hd].
    unfold get_subordinate_from_manager_cmd. rewrite Hm. cbn.
    assert (first_region (MCMD.hAddr cmd) 0 regions = None) as ->.
    { apply first_region_None. intros j [a l] Hp. exact (Hout j a l Hp). }
    rewrite Hd. reflexivity.
Qed.

Lemma decode_is_unambiguous_witness :
  (forall i a l,
      ((0x4000, 0x4000) :: nil) !! i = Some (a, l) ->
      a <= MCMD.hAddr (word_write 0x4010 0) < a + l ->
      a mod 1024 = 0
      /\ (forall j a' l', ((0x4000, 0x4000) :: nil) !! j = Some (a', l') ->
                          a' <= MCMD.hAddr (word_write 0x4010 0) < a' + l' -> j = i)
      /\ exists sub,
           get_subordinate_from_manager_cmd (fabric_of with_region) 0%nat
             (word_write 0x4010 0) = Ok sub
           /\ manager_id_subordinate_map (fabric_of with_region) !! (0%nat, i)
              = Some sub
           /\ is_Some (arbiters (fabric_of with_region) !! sub))
  /\ ((forall i a l, ((0x4000, 0x4000) :: nil) !! i = Some (a, l) ->
                     ~ a <= MCMD.hAddr (word_write 0x4010 0) < a + l) ->
      exists d,
        get_subordinate_from_manager_cmd (fabric_of with_region) 0%nat
          (word_write 0x4010 0) = Ok d
        /\ manager_default_subordinate (fabric_of with_region) !! 0%nat = Some d).
Proof.
  apply (decode_is_unambiguous with_region 0%nat ((0x4000, 0x4000) :: nil)
           (word_write 0x4010 0)).
  - exact with_region_built.
  - vm_compute. reflexivity.
Defined.

(** X22.  A region that shares an address with a region already
    registered for the manager is rejected: with the manager and the
    subordinate registered and the base aligned, the registration fails
    with the assertion on overlapping regions. *)
Theorem overlapping_region_is_rejected (m : manager) (sub : subordinate)
    (address size : Z) (r : registry) (regions : list (Z * Z)) (i : nat)
    (a l x : Z) :
  manager_address_map (fabric_of r) !! m = Some regions ->
  is_Some (arbiters (fabric_of r) !! sub) ->
  address mod 1024 = 0 ->
  regions !! i = Some (a, l) ->
  a <= x < a + l ->
  address <= x < address + size ->
  register_manager_subordinate_addr m sub address size r
  = AssertionError Regions_overlap.
Proof.
  intros Hm [arb Hs] Hal Hi Hx Hy.
  unfold register_manager_subordinate_addr. rewrite Hm, Hs.
  destruct (decide (Some arb = None)); [discriminate|].
  destruct (decide (address mod 1024 <> 0)); [contradiction|].
  destruct (forallb (apart address size) regions) eqn:Hf; [|reflexivity].
  exfalso. rewrite forallb_forall in Hf.
  apply (apart_disjoint address size (a, l) x); auto.
  apply Hf, list_elem_of_In. eapply list_elem_of_lookup_2, Hi.
Qed.

Lemma overlapping_region_is_rejected_witness :
  register_manager_subordinate_addr 0%nat 0%nat 0x7C00 0x800 with_region
  = AssertionError Regions_overlap.
Proof.
  apply (overlapping_region_is_rejected 0%nat 0%nat 0x7C00 0x800 with_region
           ((0x4000, 0x4000) :: nil) 0%nat 0x4000 0x4000 0x7C00).
  - vm_compute. reflexivity.
  - vm_compute. eauto.
  - reflexivity.
  - reflexivity.
  - lia.
  - lia.
Defined.


Lemma shiftr_tag (i h : Z) :
  0 <= h < 16 -> Z.shiftr (Z.lor (Z.shiftl i 4) h) 4 = i.
Proof.
  intros Hh. rewrite Z.shiftr_lor, Z.shiftr_shiftl_l by lia.
  rewrite (Z.shiftr_div_pow2 h) by lia. rewrite (Z.div_small h) by lia.
  rewrite Z.lor_0_r. reflexivity.
Qed.

Lemma land_tag (i h : Z) :
  0 <= h < 16 -> Z.land (Z.lor (Z.shiftl i 4) h) 15 = h.
Proof.
  intros Hh. rewrite Z.land_lor_distr_l, (land_15_small h Hh).
  change 15 with (Z.ones 4). rewrite Z.land_ones by lia.
  rewrite Z.shiftl_mul_pow2 by lia. rewrite Z.mod_mul by lia. reflexivity.
Qed.

(** X23.  The tag identifies the manager.  In a built interconnect, for a
    command with [0 <= hMaster < 16], the identifier that
    [change_manager_id] writes above the low four bits is an identifier of
    [id_to_manager], and it is the one of the manager that presented the
    command; the low four bits are the manager's own [hMaster].  So the
    commands of two different managers never carry the same [hMaster]. *)
Theorem tag_identifies_manager (r : registry) (m : manager) (cmd cmd' : MCMD.t) :
  built r ->
  change_manager_id (fabric_of r) cmd m = Ok cmd' ->
  0 <= MCMD.hMaster cmd < 16 ->
  id_to_manager r !! Z.shiftr (MCMD.hMaster cmd') 4 = Some m
  /\ Z.land (MCMD.hMaster cmd') 15 = MCMD.hMaster cmd
  /\ (forall m2 cmd2 cmd2',
        change_manager_id (fabric_of r) cmd2 m2 = Ok cmd2' ->
        0 <= MCMD.hMaster cmd2 < 16 ->
        MCMD.hMaster cmd2' = MCMD.hMaster cmd' ->
        m2 = m).
Proof.
  intros Hb Hc Hh. destruct (built_ids r Hb) as (Hbij & _ & _).
  assert (forall m c c', change_manager_id (fabric_of r) c m = Ok c' ->
                         0 <= MCMD.hMaster c < 16 ->
                         id_to_manager r !! Z.shiftr (MCMD.hMaster c') 4 = Some m
                         /\ Z.land (MCMD.hMaster c') 15 = MCMD.hMaster c) as Htag.
  { intros m0 c c'. unfold change_manager_id.
    destruct (manager_to_id (fabric_of r) !! m0) as [i|] eqn:Ei; cbn; [|discriminate].
    intros [= <-] Hc0. cbn. rewrite shiftr_tag, land_tag by exact Hc0.
    split; [apply Hbij, Ei | reflexivity]. }
  destruct (Htag m cmd cmd' Hc Hh) as (H1 & H2).
  split; [exact H1|]. split; [exact H2|].
  intros m2 cmd2 cmd2' Hc2 Hh2 Heq. destruct (Htag m2 cmd2 cmd2' Hc2 Hh2) as (H3 & _).
  rewrite Heq, H1 in H3. congruence.
Qed.

Lemma tag_identifies_manager_witness :
  let cmd' := MCMD.mk 0x4010 HBURST.Incr HMASTLOCK.UnLocked HPROT.default
                      HSIZE.Word HNONSEC.Secure HEXCL.NonExcl 19 HTRANS.NonSeq 15
                      HWRITE.Write in
  id_to_manager with_region !! Z.shiftr (MCMD.hMaster cmd') 4 = Some 0%nat
  /\ Z.land (MCMD.hMaster cmd') 15 = MCMD.hMaster (word_write 0x4010 3)
  /\ (forall m2 cmd2 cmd2',
        change_manager_id (fabric_of with_region) cmd2 m2 = Ok cmd2' ->
        0 <= MCMD.hMaster cmd2 < 16 ->
        MCMD.hMaster cmd2' = MCMD.hMaster cmd' ->
        m2 = 0%nat).
Proof.
  apply (tag_identifies_manager with_region 0%nat (word_write 0x4010 3)).
  - exact with_region_built.
  - vm_compute. reflexivity.
  - simpl. lia.
Defined.


(** X24.  The identifier of a new manager.  A manager registered with a
    requested identifier gets that identifier; a manager that held it
    (assigned automatically before) is moved to a free one.  A manager
    registered without one gets the least non-negative integer that is not
    in use.  Every other manager keeps its identifier, and a manager whose
    identifier was requested keeps it through every later registration. *)
Theorem register_manager_assigns_id (r r' : registry) (m : manager) (w : Z)
    (oid : option Z) (d : subordinate) :
  built r ->
  register_manager m w oid d r = Done r' ->
  match oid with
  | Some i => manager_to_id (fabric_of r') !! m = Some i
  | None =>
      exists nv,
        manager_to_id (fabric_of r') !! m = Some nv
        /\ 0 <= nv
        /\ id_to_manager r !! nv = None
        /\ forall j, 0 <= j < nv -> is_Some (id_to_manager r !! j)
  end
  /\ (forall m0 i,
        oid = Some i -> manager_to_id (fabric_of r) !! m0 = Some i ->
        exists nv, manager_to_id (fabric_of r') !! m0 = Some nv
                   /\ 0 <= nv /\ id_to_manager r !! nv = None)
  /\ (forall m1 j,
        manager_to_id (fabric_of r) !! m1 = Some j ->
        oid <> Some j ->
        manager_to_id (fabric_of r') !! m1 = Some j)
  /\ (forall m1 j,
        manager_to_id (fabric_of r) !! m1 = Some j ->
        j ∈ manager_used_id r ->
        manager_to_id (fabric_of r') !! m1 = Some j).
Proof.
  intros Hb Hreg. destruct (built_ids r Hb) as (Hbij & Hd & _).
  destruct (register_manager_Done _ _ _ _ _ _ Hreg)
    as (Hm & (nv & Hnv & Hnv0 & Hleast & Hid) & _).
  pose proof (proj1 (Hd m) Hm) as Hm'.
  assert (forall m1 j, manager_to_id (fabric_of r) !! m1 = Some j ->
                       oid <> Some j ->
                       manager_to_id (fabric_of r') !! m1 = Some j) as Hkeep.
  { intros m1 j H1 Hne. assert (m1 <> m) as Hmm by congruence.
    destruct oid as [i|].
    - destruct Hid as (_ & _ & Hid).
      destruct (id_to_manager r !! i) as [m0|] eqn:Ei; destruct Hid as (-> & _).
      + rewrite lookup_insert_ne by congruence.
        rewrite lookup_insert_ne; [exact H1|].
        intros <-. apply Hbij in Ei. congruence.
      + rewrite lookup_insert_ne by congruence. exact H1.
    - destruct Hid as (-> & _). rewrite lookup_insert_ne by congruence. exact H1. }
  split; [|split; [|split; [exact Hkeep|]]].
  - destruct oid as [i|].
    + destruct Hid as (_ & _ & Hid).
      destruct (id_to_manager r !! i); destruct Hid as (-> & _);
        apply lookup_insert_eq.
    + destruct Hid as (-> & _). exists nv. rewrite lookup_insert_eq. auto.
  - intros m0 i -> H0. destruct Hid as (_ & _ & Hid).
    rewrite (proj1 (Hbij m0 i) H0) in Hid. destruct Hid as (-> & _).
    exists nv. assert (m0 <> m) by congruence.
    rewrite lookup_insert_ne by congruence. rewrite lookup_insert_eq. auto.
  - intros m1 j H1 Hj. apply Hkeep; [exact H1|].
    intros ->. destruct Hid as (Hi & _). contradiction.
Qed.

Lemma register_manager_assigns_id_witness :
  manager_to_id (fabric_of two_managers) !! 1%nat = Some 0
  /\ (forall m0 i,
        Some 0 = Some i -> manager_to_id (fabric_of one_manager) !! m0 = Some i ->
        exists nv, manager_to_id (fabric_of two_managers) !! m0 = Some nv
                   /\ 0 <= nv /\ id_to_manager one_manager !! nv = None)
  /\ (forall m1 j,
        manager_to_id (fabric_of one_manager) !! m1 = Some j ->
        Some 0 <> Some j ->
        manager_to_id (fabric_of two_managers) !! m1 = Some j)
  /\ (forall m1 j,
        manager_to_id (fabric_of one_manager) !! m1 = Some j ->
        j ∈ manager_used_id one_manager ->
        manager_to_id (fabric_of two_managers) !! m1 = Some j).
Proof.
  apply (register_manager_assigns_id one_manager two_managers 1%nat 32 (Some 0) 11%nat).
  - apply (built_manager 0%nat 32 None 10%nat init); [|vm_compute; reflexivity].
    apply built_init.
  - vm_compute. reflexivity.
Defined.

(** X25.  When a manager can be registered.  [register_manager] succeeds
    exactly when the manager is not registered yet, the requested
    identifier, if any, was not requested before, the bus width of the
    manager is the one of the interconnect, if that is set, and it is one
    the default subordinate accepts (8 to 1024 bits, a power of two); in
    particular the search for a free identifier always ends. *)
Theorem register_manager_succeeds (r : registry) (m : manager) (w : Z)
    (oid : option Z) (d : subordinate) :
  (exists r', register_manager m w oid d r = Done r')
  <-> manager_address_map (fabric_of r) !! m = None
      /\ (forall i, oid = Some i -> i ∉ manager_used_id r)
      /\ (bus_width r = None \/ bus_width r = Some w)
      /\ default_subordinate_accepts w = true.
Proof.
  split.
  - intros [r' Hreg].
    destruct (register_manager_Done _ _ _ _ _ _ Hreg)
      as (Hm & (nv & _ & _ & _ & Hid) & _ & _ & _ & _ & _ & _ & _ & _ & Hw & Ha).
    split; [exact Hm|]. split; [|auto].
    intros i ->. destruct Hid as (Hi & _). exact Hi.
  - intros (Hm & Hi & Hw & Ha). unfold register_manager.
    rewrite Hm. destruct (decide (is_Some None)) as [[? ?]|_]; [discriminate|].
    assert (match oid with
            | Some i => bool_decide (i ∈ manager_used_id r)
            | None => false
            end = false) as ->.
    { destruct oid as [i|]; [|reflexivity]. apply bool_decide_eq_false. auto. }
    destruct (next_valid_from_total (id_to_manager r)) as [nv ->].
    destruct (match oid ≫= (fun i => id_to_manager r !! i) with
              | Some _manager => _
              | None => _
              end) as [tid ids].
    destruct Hw as [-> | ->].
    + rewrite Ha. eauto.
    + destruct (decide (w = w)); [|contradiction]. rewrite Ha. eauto.
Qed.

Lemma register_manager_succeeds_witness :
  exists r', register_manager 2%nat 32 (Some 7) 12%nat with_region = Done r'.
Proof.
  apply (proj2 (register_manager_succeeds with_region 2%nat 32 (Some 7) 12%nat)).
  split; [vm_compute; reflexivity|]. split.
  - intros i [= <-]. apply (bool_decide_unpack _). vm_compute. exact I.
  - split; [right; vm_compute; reflexivity | vm_compute; reflexivity].
Defined.


Lemma prep_default_fabric (order : list subordinate) (r : registry) :
  let f := fabric_of r in
  let f' := fabric_of (prep_default order r) in
  manager_to_id f' = manager_to_id f
  /\ manager_address_map f' = manager_address_map f
  /\ manager_id_subordinate_map f' = manager_id_subordinate_map f
  /\ manager_default_subordinate f' = manager_default_subordinate f
  /\ managers_ready f' = managers_ready f
  /\ managers_waiting f' = managers_waiting f
  /\ (forall sub, is_Some (arbiters f !! sub) \/ sub ∈ order ->
                  is_Some (arbiters f' !! sub)).
Proof.
  revert r. induction order as [|d order IH]; intros r; cbn.
  - repeat split. intros sub [H|H]; [exact H|]. inversion H.
  - match goal with
    | |- context [fold_left ?F order ?R] =>
        specialize (IH R); change (fold_left F order R) with (prep_default order R) in *
    end.
    cbn in IH. destruct IH as (-> & -> & -> & -> & -> & -> & Harb).
    repeat split. intros sub H. apply Harb.
    rewrite lookup_insert_is_Some.
    destruct (decide (d = sub)) as [->|Hne]; [auto|].
    destruct H as [H|H]; [auto|]. apply elem_of_cons in H.
    destruct H as [->|H]; [contradiction|auto].
Qed.

Lemma built_prep_routable (r : registry) (order : list subordinate) :
  built r ->
  order ≡ₚ default_subordinates r ->
  routable (fabric_of (prep_default order r)).
Proof.
  intros Hb Hperm.
  destruct (built_ids r Hb) as (_ & Hd & _).
  destruct (built_routing r Hb) as (Hdef & Hsub).
  destruct (prep_default_fabric order r) as (Ht & Ham & Hmap & Hds & _ & _ & Harb).
  intros m regions. rewrite Ht, Ham, Hmap, Hds. intros Hm.
  split; [|split].
  - destruct (manager_to_id (fabric_of r) !! m) eqn:E; [eauto|].
    apply Hd in E. congruence.
  - destruct (Hdef m) as [d Hd']; [rewrite Hm; eauto|].
    exists d. split; [exact Hd'|]. apply Harb. right.
    rewrite Hperm. unfold default_subordinates.
    apply list_elem_of_fmap. exists (m, d). split; [reflexivity|].
    apply elem_of_map_to_list. exact Hd'.
  - intros i Hi. destruct (Hsub m regions i Hm Hi) as (sub & Hs & Ha).
    exists sub. split; [exact Hs|]. apply Harb. auto.
Qed.

Lemma proc_cmd_manager_routable (st : state) (m : manager) (cmd : MCMD.t) :
  routable st ->
  is_Some (manager_address_map st !! m) ->
  exists st',
    proc_cmd_manager cmd m st = Ok st'
    /\ routable st'
    /\ manager_address_map st' = manager_address_map st
    /\ managers_ready st' = managers_ready st
    /\ managers_waiting st' = {[ m ]} ∪ managers_waiting st.
Proof.
  intros Hr [regions Hm].
  destruct (Hr m regions Hm) as ([i Hi] & (d & Hd & [ad Had]) & Hsub).
  assert (exists sub arb, get_subordinate_from_manager_cmd st m cmd = Ok sub
                          /\ arbiters st !! sub = Some arb) as (sub & arb & Hg & Ha).
  { unfold get_subordinate_from_manager_cmd. rewrite Hm. cbn.
    destruct (first_region (MCMD.hAddr cmd) 0 regions) as [k|] eqn:Ek.
    - destruct (first_region_Some _ _ _ _ Ek) as (_ & p & Hp & _).
      rewrite Nat.sub_0_r in Hp. apply lookup_lt_Some in Hp.
      destruct (Hsub k Hp) as (sub & -> & [arb Ha]). cbn. eauto.
    - rewrite Hd. cbn. eauto. }
  unfold proc_cmd_manager, change_manager_id. rewrite Hg, Hi. cbn. rewrite Ha. cbn.
  eexists. split; [reflexivity|]. split; [|auto].
  intros m' regions' Hm'.
  cbn [manager_to_id manager_address_map manager_id_subordinate_map
       manager_default_subordinate arbiters] in *.
  destruct (Hr m' regions' Hm') as (H1 & (d' & Hd' & Ha') & H3).
  split; [exact H1|]. split.
  - exists d'. split; [exact Hd'|]. rewrite lookup_insert_is_Some.
    destruct (decide (sub = d')); auto.
  - intros k Hk. destruct (H3 k Hk) as (s' & Hs' & Has').
    exists s'. split; [exact Hs'|]. rewrite lookup_insert_is_Some.
    destruct (decide (sub = s')); auto.
Qed.

End Registration.

Section Service.

Import SimInterconnect.

Lemma same_maps_refl (f : state) : same_maps f f.
Proof. unfold same_maps. tauto. Qed.

Lemma same_maps_trans (f1 f2 f3 : state) :
  same_maps f1 f2 -> same_maps f2 f3 -> same_maps f1 f3.
Proof.
  intros (A1 & A2 & A3 & A4 & A5) (B1 & B2 & B3 & B4 & B5).
  unfold same_maps. rewrite B1, B2, B3, B4, A1, A2, A3, A4.
  repeat split; try reflexivity; intros H; [apply A5, B5, H | apply B5, A5, H].
Qed.

Lemma routable_same_maps (f f' : state) :
  routable f -> same_maps f f' -> routable f'.
Proof.
  intros Hr (A1 & A2 & A3 & A4 & A5) m regions. rewrite A1, A2, A3, A4.
  intros Hm. destruct (Hr m regions Hm) as (H1 & (d & Hd & Ha) & H3).
  split; [exact H1|]. split.
  - exists d. split; [exact Hd|]. apply A5, Ha.
  - intros k Hk. destruct (H3 k Hk) as (s & Hs & Has).
    exists s. split; [exact Hs|]. apply A5, Has.
Qed.

Lemma owners_queue_cmd (c : ICMD.t) (m : manager) (a : Arbiter.t) :
  owners (Arbiter.queue_cmd c m a) = owners a ++ m :: nil.
Proof. unfold owners, Arbiter.queue_cmd. cbn. rewrite fmap_app. reflexivity. Qed.

(** What a step of the manager loop that returns has done. *)
Lemma proc_cmd_manager_Ok (cmd : MCMD.t) (m : manager) (st st' : state) :
  proc_cmd_manager cmd m st = Ok st' ->
  exists sub a c,
    arbiters st !! sub = Some a
    /\ arbiters st' = <[ sub := Arbiter.queue_cmd c m a ]> (arbiters st)
    /\ managers_ready st' = managers_ready st
    /\ managers_waiting st' = {[ m ]} ∪ managers_waiting st
    /\ same_maps st st'.
Proof.
  unfold proc_cmd_manager. intros H.
  destruct (get_subordinate_from_manager_cmd st m cmd) as [sub|]; [|discriminate].
  destruct (change_manager_id st cmd m) as [c|]; [|discriminate].
  cbn in H. destruct (arbiters st !! sub) as [a|] eqn:Ea; [|discriminate].
  cbn in H. inversion H; subst st'; clear H. cbn.
  exists sub, a, (ICMD.of_mcmd c HSEL.Sel).
  split; [exact Ea|]. split; [reflexivity|]. split; [reflexivity|].
  split; [reflexivity|].
  unfold same_maps. cbn. split; [reflexivity|]. split; [reflexivity|].
  split; [reflexivity|]. split; [reflexivity|].
  intros s0. rewrite lookup_insert_is_Some. split.
  - intros [<-|[_ H]]; [rewrite Ea; eauto | exact H].
  - intros H. destruct (decide (sub = s0)); auto.
Qed.

Lemma outstanding_queue (mw : gset manager) (sw : gset subordinate)
    (resp : gmap subordinate (option manager)) (arbs : gmap subordinate Arbiter.t)
    (sub : subordinate) (a : Arbiter.t) (c : ICMD.t) (m : manager) :
  outstanding mw sw resp arbs ->
  arbs !! sub = Some a ->
  m ∉ mw ->
  outstanding ({[ m ]} ∪ mw) sw resp (<[ sub := Arbiter.queue_cmd c m a ]> arbs).
Proof.
  intros (U1 & U2 & U3 & U4 & U5 & U6) Ha Hm.
  assert (forall s0 a0, arbs !! s0 = Some a0 -> m ∉ owners a0) as F1.
  { intros s0 a0 H0 Hin. destruct (U3 s0 a0 m H0 Hin) as [H _]. contradiction. }
  assert (forall s', s' ∈ sw -> resp !! s' <> Some (Some m)) as F2.
  { intros s' Hs' Hr. destruct (U1 s' Hs') as (m0 & Hm0 & Hin). congruence. }
  unfold outstanding. split; [|split; [|split; [|split; [|split]]]].
  - intros s Hs. destruct (U1 s Hs) as (m0 & H0 & Hin).
    exists m0. split; [exact H0|]. apply elem_of_union. auto.
  - exact U2.
  - intros s a0 m0. rewrite lookup_insert_Some.
    intros [[<- <-]|[Hne H0]] Hin.
    + rewrite owners_queue_cmd in Hin. apply elem_of_app in Hin.
      destruct Hin as [Hin|Hin].
      * destruct (U3 sub a m0 Ha Hin) as [H1 H2].
        split; [apply elem_of_union; auto | exact H2].
      * apply list_elem_of_singleton in Hin. subst m0.
        split; [apply elem_of_union; left; apply elem_of_singleton; reflexivity | exact F2].
    + destruct (U3 s a0 m0 H0 Hin) as [H1 H2].
      split; [apply elem_of_union; auto | exact H2].
  - intros s a0. rewrite lookup_insert_Some.
    intros [[<- <-]|[Hne H0]]; [|eauto].
    rewrite owners_queue_cmd. apply NoDup_app. split; [eauto|]. split.
    + intros x Hx Hx'. apply list_elem_of_singleton in Hx'. subst x.
      exact (F1 sub a Ha Hx).
    + apply NoDup_singleton.
  - intros s1 s2 a1 a2 m0. rewrite !lookup_insert_Some.
    intros [[<- <-]|[Hne1 H1]] [[<- <-]|[Hne2 H2]] Hin1 Hin2; [reflexivity| | |eauto].
    + rewrite owners_queue_cmd in Hin1. apply elem_of_app in Hin1.
      destruct Hin1 as [Hin1|Hin1]; [eauto|].
      apply list_elem_of_singleton in Hin1. subst m0. exfalso. exact (F1 s2 a2 H2 Hin2).
    + rewrite owners_queue_cmd in Hin2. apply elem_of_app in Hin2.
      destruct Hin2 as [Hin2|Hin2]; [eauto|].
      apply list_elem_of_singleton in Hin2. subst m0. exfalso. exact (F1 s1 a1 H1 Hin1).
  - intros m0 Hm0. apply elem_of_union in Hm0. destruct Hm0 as [Hm0|Hm0].
    + apply elem_of_singleton in Hm0. subst m0. left.
      exists sub, (Arbiter.queue_cmd c m a). rewrite lookup_insert_eq.
      split; [reflexivity|]. rewrite owners_queue_cmd. apply elem_of_app. right.
      apply list_elem_of_singleton. reflexivity.
    + destruct (U6 m0 Hm0) as [(s & a0 & H0 & Hin)|H]; [|auto]. left.
      destruct (decide (sub = s)) as [<-|Hne].
      * exists sub, (Arbiter.queue_cmd c m a). rewrite lookup_insert_eq.
        split; [reflexivity|]. rewrite owners_queue_cmd. apply elem_of_app. left.
        congruence.
      * exists s, a0. rewrite lookup_insert_ne by exact Hne. auto.
Qed.

Lemma proc_cmd_loop_outstanding (get_cmd : manager -> MCMD.t) (order : list manager)
    (st : state) (sw : gset subordinate) (resp : gmap subordinate (option manager)) :
  routable st ->
  NoDup order ->
  (forall m, m ∈ order ->
             is_Some (manager_address_map st !! m) /\ m ∉ managers_waiting st) ->
  outstanding (managers_waiting st) sw resp (arbiters st) ->
  exists st',
    proc_cmd_loop get_cmd order st = Ok st'
    /\ same_maps st st'
    /\ managers_ready st' = managers_ready st
    /\ (forall m, m ∈ managers_waiting st' <-> m ∈ order \/ m ∈ managers_waiting st)
    /\ outstanding (managers_waiting st') sw resp (arbiters st').
Proof.
  revert st. induction order as [|m order IH]; intros st Hr Hnd Hall Hout; cbn.
  - exists st. split; [reflexivity|]. split; [apply same_maps_refl|].
    split; [reflexivity|]. split; [|exact Hout].
    intros m. split; [auto|]. intros [H|H]; [inversion H | exact H].
  - apply NoDup_cons in Hnd. destruct Hnd as [Hm Hnd].
    destruct (Hall m) as [Hreg Hmw]; [left|].
    destruct (proc_cmd_manager_routable st m (get_cmd m) Hr Hreg)
      as (st1 & Hst1 & Hr1 & Ham & Hrd & Hwt).
    rewrite Hst1. cbn.
    destruct (proc_cmd_manager_Ok _ _ _ _ Hst1) as (sub & a & c & Ha & Harb & _ & _ & Hsm).
    destruct (IH st1 Hr1 Hnd) as (st' & Hl & Hsm' & Hrd' & Hwt' & Hout').
    { intros m' Hm'. destruct (Hall m') as [H1 H2]; [right; exact Hm'|].
      rewrite Ham, Hwt. split; [exact H1|].
      rewrite elem_of_union, elem_of_singleton. intros [->|H]; contradiction. }
    { rewrite Hwt, Harb. apply outstanding_queue; assumption. }
    exists st'. split; [exact Hl|]. split; [eapply same_maps_trans; eauto|].
    split; [congruence|]. split; [|exact Hout'].
    intros m'. rewrite Hwt', Hwt, elem_of_union, elem_of_singleton, elem_of_cons. tauto.
Qed.


Lemma get_cmd_owners (a : Arbiter.t) :
  (Arbiter.get_cmd a).1.2 = head (owners a)
  /\ owners (Arbiter.get_cmd a).2 = tail (owners a).
Proof.
  unfold Arbiter.get_cmd, owners.
  destruct (Arbiter.command_queue a) as [|[c m] rest]; cbn; auto.
Qed.

Lemma outstanding_owners (mw : gset manager) (sw : gset subordinate)
    (resp : gmap subordinate (option manager)) (arbs : gmap subordinate Arbiter.t)
    (sub : subordinate) (a a' : Arbiter.t) :
  outstanding mw sw resp arbs ->
  arbs !! sub = Some a ->
  owners a' = owners a ->
  outstanding mw sw resp (<[ sub := a' ]> arbs).
Proof.
  intros (U1 & U2 & U3 & U4 & U5 & U6) Ha Ho.
  unfold outstanding. split; [exact U1|]. split; [exact U2|].
  split; [|split; [|split]].
  - intros s a0 m0. rewrite lookup_insert_Some.
    intros [[<- <-]|[Hne H0]] Hin; [rewrite Ho in Hin|]; eauto.
  - intros s a0. rewrite lookup_insert_Some.
    intros [[<- <-]|[Hne H0]]; [rewrite Ho|]; eauto.
  - intros s1 s2 a1 a2 m0. rewrite !lookup_insert_Some.
    intros [[<- <-]|[Hne1 H1]] [[<- <-]|[Hne2 H2]] Hin1 Hin2;
      try rewrite Ho in Hin1; try rewrite Ho in Hin2; eauto.
  - intros m0 Hm0. destruct (U6 m0 Hm0) as [(s & a0 & H0 & Hin)|H]; [|auto]. left.
    destruct (decide (sub = s)) as [<-|Hne].
    + exists sub, a'. rewrite lookup_insert_eq. split; [reflexivity|].
      rewrite Ho. congruence.
    + exists s, a0. rewrite lookup_insert_ne by exact Hne. auto.
Qed.

Lemma outstanding_serve (mw : gset manager) (sw : gset subordinate)
    (resp : gmap subordinate (option manager)) (arbs : gmap subordinate Arbiter.t)
    (sub : subordinate) (a a' : Arbiter.t) (m : manager) (t : list manager) :
  outstanding mw sw resp arbs ->
  arbs !! sub = Some a ->
  sub ∉ sw ->
  owners a = m :: t ->
  owners a' = t ->
  outstanding mw ({[ sub ]} ∪ sw) (<[ sub := Some m ]> resp) (<[ sub := a' ]> arbs).
Proof.
  intros (U1 & U2 & U3 & U4 & U5 & U6) Ha Hsub Ho Ho'.
  pose proof (U4 sub a Ha) as Hnd. rewrite Ho in Hnd.
  apply NoDup_cons in Hnd. destruct Hnd as [Hmt Hnd].
  assert (m ∈ owners a) as Hma by (rewrite Ho; left).
  destruct (U3 sub a m Ha Hma) as [Hmw Hfree].
  assert (forall x, x ∈ t -> x ∈ owners a) as Hsubset by (intros x Hx; rewrite Ho; right; exact Hx).
  assert (forall s, s ∈ sw -> s <> sub) as Hne by (intros s Hs ->; contradiction).
  unfold outstanding. split; [|split; [|split; [|split; [|split]]]].
  - intros s Hs. apply elem_of_union in Hs. destruct Hs as [Hs|Hs].
    + apply elem_of_singleton in Hs. subst s. exists m.
      rewrite lookup_insert_eq. auto.
    + rewrite lookup_insert_ne by (intros ->; contradiction). auto.
  - intros s1 s2 m0 Hs1 Hs2.
    apply elem_of_union in Hs1, Hs2.
    destruct Hs1 as [Hs1|Hs1]; destruct Hs2 as [Hs2|Hs2];
      try (apply elem_of_singleton in Hs1; subst s1);
      try (apply elem_of_singleton in Hs2; subst s2).
    + reflexivity.
    + rewrite lookup_insert_eq. rewrite lookup_insert_ne by (intros ->; contradiction).
      intros [= <-] H2. exfalso. exact (Hfree s2 Hs2 H2).
    + rewrite lookup_insert_eq. rewrite lookup_insert_ne by (intros ->; contradiction).
      intros H1 [= <-]. exfalso. exact (Hfree s1 Hs1 H1).
    + rewrite !lookup_insert_ne by (intros ->; contradiction). eauto.
  - intros s a0 m0. rewrite lookup_insert_Some.
    intros [[<- <-]|[Hne0 H0]] Hin.
    + rewrite Ho' in Hin. destruct (U3 sub a m0 Ha (Hsubset _ Hin)) as [H1 H2].
      split; [exact H1|]. intros s' Hs'. apply elem_of_union in Hs'.
      destruct Hs' as [Hs'|Hs'].
      * apply elem_of_singleton in Hs'. subst s'. rewrite lookup_insert_eq.
        intros [= E]. subst m0. contradiction.
      * rewrite lookup_insert_ne by (intros ->; contradiction). auto.
    + destruct (U3 s a0 m0 H0 Hin) as [H1 H2].
      split; [exact H1|]. intros s' Hs'. apply elem_of_union in Hs'.
      destruct Hs' as [Hs'|Hs'].
      * apply elem_of_singleton in Hs'. subst s'. rewrite lookup_insert_eq.
        intros [= E]. subst m0. apply Hne0. symmetry.
        exact (U5 s sub a0 a m H0 Ha Hin Hma).
      * rewrite lookup_insert_ne by (intros ->; contradiction). auto.
  - intros s a0. rewrite lookup_insert_Some.
    intros [[<- <-]|[Hne0 H0]]; [rewrite Ho'; exact Hnd | eauto].
  - intros s1 s2 a1 a2 m0. rewrite !lookup_insert_Some.
    intros [[<- <-]|[Hne1 H1]] [[<- <-]|[Hne2 H2]] Hin1 Hin2;
      try rewrite Ho' in Hin1; try rewrite Ho' in Hin2; eauto.
  - intros m0 Hm0. destruct (U6 m0 Hm0) as [(s & a0 & H0 & Hin)|(s & Hs & Hr)].
    + destruct (decide (sub = s)) as [<-|Hne0].
      * assert (a0 = a) as -> by congruence. rewrite Ho in Hin.
        apply elem_of_cons in Hin. destruct Hin as [->|Hin].
        -- right. exists sub. rewrite lookup_insert_eq.
           split; [apply elem_of_union; left; apply elem_of_singleton|]; reflexivity.
        -- left. exists sub, a'. rewrite lookup_insert_eq. rewrite Ho'. auto.
      * left. exists s, a0. rewrite lookup_insert_ne by exact Hne0. auto.
    + right. exists s. rewrite lookup_insert_ne by (intros ->; contradiction).
      split; [apply elem_of_union; auto | exact Hr].
Qed.

(** What a step of the subordinate loop does. *)
Lemma proc_cmd_subordinate_Done (sub : subordinate) (i : interconnect)
    (put : gmap subordinate ICMD.t) (a : Arbiter.t) :
  arbiters (fabric_of (registry_of i)) !! sub = Some a ->
  exists i',
    proc_cmd_subordinate sub (i, put)
    = Done (i', <[ sub := (Arbiter.get_cmd a).1.1 ]> put)
    /\ same_maps (fabric_of (registry_of i)) (fabric_of (registry_of i'))
    /\ arbiters (fabric_of (registry_of i'))
       = <[ sub := (Arbiter.get_cmd a).2 ]> (arbiters (fabric_of (registry_of i)))
    /\ managers_ready (fabric_of (registry_of i'))
       = managers_ready (fabric_of (registry_of i))
    /\ managers_waiting (fabric_of (registry_of i'))
       = managers_waiting (fabric_of (registry_of i))
    /\ subordinates_ready i' = subordinates_ready i
    /\ rsp i' = rsp i
    /\ match head (owners a) with
       | Some m =>
           subordinates_waiting (registry_of i')
           = {[ sub ]} ∪ subordinates_waiting (registry_of i)
           /\ subordinates_manager_resp i'
              = <[ sub := Some m ]> (subordinates_manager_resp i)
       | None =>
           subordinates_waiting (registry_of i') = subordinates_waiting (registry_of i)
           /\ subordinates_manager_resp i' = subordinates_manager_resp i
       end.
Proof.
  intros Ha. unfold proc_cmd_subordinate. cbn [fst snd]. rewrite Ha.
  destruct (get_cmd_owners a) as [Hh _]. rewrite <- Hh.
  assert (forall f', arbiters f' = <[ sub := (Arbiter.get_cmd a).2 ]>
                                     (arbiters (fabric_of (registry_of i))) ->
                     manager_to_id f' = manager_to_id (fabric_of (registry_of i)) ->
                     manager_address_map f'
                     = manager_address_map (fabric_of (registry_of i)) ->
                     manager_id_subordinate_map f'
                     = manager_id_subordinate_map (fabric_of (registry_of i)) ->
                     manager_default_subordinate f'
                     = manager_default_subordinate (fabric_of (registry_of i)) ->
                     same_maps (fabric_of (registry_of i)) f') as Hsm.
  { intros f' E1 E2 E3 E4 E5. unfold same_maps. rewrite E1, E2, E3, E4, E5.
    repeat split; try reflexivity.
    - rewrite lookup_insert_is_Some. intros [<-|[_ H]]; [rewrite Ha; eauto | exact H].
    - intros H. rewrite lookup_insert_is_Some. destruct (decide (sub = sub0)); auto. }
  destruct ((Arbiter.get_cmd a).1.2) as [m|]; eexists; (split; [reflexivity|]); cbn;
    (split; [apply Hsm; reflexivity|]); auto 10.
Qed.

Lemma proc_cmd_subordinates_outstanding (order : list subordinate) (i : interconnect)
    (put : gmap subordinate ICMD.t) :
  NoDup order ->
  (forall sub, sub ∈ order ->
               is_Some (arbiters (fabric_of (registry_of i)) !! sub)
               /\ sub ∉ subordinates_waiting (registry_of i)) ->
  outstanding (managers_waiting (fabric_of (registry_of i)))
              (subordinates_waiting (registry_of i))
              (subordinates_manager_resp i)
              (arbiters (fabric_of (registry_of i))) ->
  exists i' put',
    proc_cmd_subordinates order (i, put) = Done (i', put')
    /\ same_maps (fabric_of (registry_of i)) (fabric_of (registry_of i'))
    /\ managers_ready (fabric_of (registry_of i'))
       = managers_ready (fabric_of (registry_of i))
    /\ managers_waiting (fabric_of (registry_of i'))
       = managers_waiting (fabric_of (registry_of i))
    /\ subordinates_ready i' = subordinates_ready i
    /\ rsp i' = rsp i
    /\ (forall x, x ∈ subordinates_waiting (registry_of i') ->
                  x ∈ subordinates_waiting (registry_of i) \/ x ∈ order)
    /\ (forall x, x ∈ subordinates_waiting (registry_of i) ->
                  x ∈ subordinates_waiting (registry_of i'))
    /\ outstanding (managers_waiting (fabric_of (registry_of i')))
                   (subordinates_waiting (registry_of i'))
                   (subordinates_manager_resp i')
                   (arbiters (fabric_of (registry_of i'))).
Proof.
  revert i put. induction order as [|sub order IH]; intros i put Hnd Hall Hout; cbn.
  - exists i, put. split; [reflexivity|]. split; [apply same_maps_refl|]. auto 10.
  - apply NoDup_cons in Hnd. destruct Hnd as [Hsub Hnd].
    destruct (Hall sub) as [[a Ha] Hsw]; [left|].
    destruct (proc_cmd_subordinate_Done sub i put a Ha)
      as (i1 & -> & Hsm & Harb & Hmr & Hmw & Hsr & Hrsp & Hcase).
    cbn.
    assert ((forall x, x ∈ subordinates_waiting (registry_of i1) ->
                       x ∈ subordinates_waiting (registry_of i) \/ x = sub)
            /\ (forall x, x ∈ subordinates_waiting (registry_of i) ->
                          x ∈ subordinates_waiting (registry_of i1))
            /\ outstanding (managers_waiting (fabric_of (registry_of i1)))
                           (subordinates_waiting (registry_of i1))
                           (subordinates_manager_resp i1)
                           (arbiters (fabric_of (registry_of i1))))
      as (Hsw1 & Hsw2 & Hout1).
    { rewrite Hmw, Harb. destruct (get_cmd_owners a) as [_ Ht].
      destruct (owners a) as [|m t] eqn:Eo; cbn in Hcase; destruct Hcase as [-> ->].
      - split; [auto|]. split; [auto|].
        eapply outstanding_owners; eauto. rewrite Ht, Eo. reflexivity.
      - split; [|split].
        + intros x Hx. apply elem_of_union in Hx. destruct Hx as [Hx|Hx]; [|auto].
          apply elem_of_singleton in Hx. auto.
        + intros x Hx. apply elem_of_union. auto.
        + eapply outstanding_serve; eauto. }
    destruct (IH i1 (<[ sub := (Arbiter.get_cmd a).1.1 ]> put) Hnd)
      as (i' & put' & -> & Hsm' & Hmr' & Hmw' & Hsr' & Hrsp' & Hsw1' & Hsw2' & Hout').
    { intros s Hs. destruct (Hall s) as [H1 H2]; [right; exact Hs|].
      split; [apply Hsm; exact H1|].
      intros Hin. destruct (Hsw1 s Hin) as [H|H]; [contradiction|]. subst s. contradiction. }
    { exact Hout1. }
    exists i', put'. split; [reflexivity|]. split; [eapply same_maps_trans; eauto|].
    split; [congruence|]. split; [congruence|]. split; [congruence|].
    split; [congruence|]. split; [|split; [|exact Hout']].
    + intros x Hx. destruct (Hsw1' x Hx) as [H|H].
      * destruct (Hsw1 x H) as [H'|H']; [auto|]. subst x. right. left.
      * right. right. exact H.
    + intros x Hx. auto.
Qed.


Lemma enumeration {A : Type} `{Countable A} (order : list A) (X : gset A) :
  order ≡ₚ elements X ->
  NoDup order /\ forall x, x ∈ order <-> x ∈ X.
Proof.
  intros Hp. split.
  - rewrite Hp. apply NoDup_elements.
  - intros x. rewrite Hp. apply elem_of_elements.
Qed.

Lemma collected_ready (r : SRESP.t) :
  (collected r).2 = HREADY.Working <-> SRESP.hReadyOut r = HREADYOUT.Ready.
Proof.
  unfold collected. cbn.
  destruct (decide (SRESP.hReadyOut r = HREADYOUT.Ready)); split;
    intros; [assumption|reflexivity|discriminate|contradiction].
Qed.

(** The first loop of [proc_rsp] over subordinates that answer to
    different managers. *)
Lemma proc_rsp_loop_Done (get_rsp : subordinate -> SRESP.t) (order : list subordinate)
    (i : interconnect) :
  NoDup order ->
  (forall sub, sub ∈ order ->
               exists m, subordinates_manager_resp i !! sub = Some (Some m)) ->
  (forall s1 s2 m, s1 ∈ order -> s2 ∈ order ->
                   subordinates_manager_resp i !! s1 = Some (Some m) ->
                   subordinates_manager_resp i !! s2 = Some (Some m) -> s1 = s2) ->
  exists i',
    proc_rsp_loop get_rsp order i = Done i'
    /\ registry_of i' = registry_of i
    /\ (forall x, x ∈ subordinates_ready i'
                  <-> x ∈ subordinates_ready i
                      \/ (x ∈ order /\ SRESP.hReadyOut (get_rsp x) = HREADYOUT.Ready))
    /\ (forall x, ~ (x ∈ order /\ SRESP.hReadyOut (get_rsp x) = HREADYOUT.Ready) ->
                  subordinates_manager_resp i' !! x = subordinates_manager_resp i !! x)
    /\ (forall x, x ∈ order -> SRESP.hReadyOut (get_rsp x) = HREADYOUT.Ready ->
                  subordinates_manager_resp i' !! x = Some None)
    /\ (forall sub m, sub ∈ order ->
                      subordinates_manager_resp i !! sub = Some (Some m) ->
                      rsp i' !! m = Some (collected (get_rsp sub)))
    /\ (forall m, (forall sub, sub ∈ order ->
                               subordinates_manager_resp i !! sub <> Some (Some m)) ->
                  rsp i' !! m = rsp i !! m)
    /\ (forall m e, rsp i' !! m = Some e ->
                    rsp i !! m = Some e
                    \/ exists sub, sub ∈ order
                                   /\ subordinates_manager_resp i !! sub = Some (Some m)).
Proof.
  revert i. induction order as [|s0 order IH]; intros i Hnd Hall Huniq; cbn.
  - exists i. split; [reflexivity|]. split; [reflexivity|].
    split; [|split; [|split; [|split; [|split]]]].
    + intros x. split; [auto|]. intros [H|[H _]]; [exact H|inversion H].
    + reflexivity.
    + intros x H. inversion H.
    + intros sub m H. inversion H.
    + reflexivity.
    + auto.
  - apply NoDup_cons in Hnd. destruct Hnd as [Hs0 Hnd].
    destruct (Hall s0) as [m0 Hm0]; [left|].
    unfold proc_rsp_subordinate at 1. rewrite Hm0.
    fold (collected (get_rsp s0)).
    set (i1 := if decide (SRESP.hReadyOut (get_rsp s0) = HREADYOUT.Ready)
               then {| registry_of := registry_of i;
                       subordinates_ready := {[ s0 ]} ∪ subordinates_ready i;
                       subordinates_manager_resp :=
                         <[ s0 := None ]> (subordinates_manager_resp i);
                       rsp := <[ m0 := collected (get_rsp s0) ]> (rsp i) |}
               else {| registry_of := registry_of i;
                       subordinates_ready := subordinates_ready i;
                       subordinates_manager_resp := subordinates_manager_resp i;
                       rsp := <[ m0 := collected (get_rsp s0) ]> (rsp i) |}).
    assert ((if decide (SRESP.hReadyOut (get_rsp s0) = HREADYOUT.Ready)
             then Done {| registry_of := registry_of i;
                          subordinates_ready := {[ s0 ]} ∪ subordinates_ready i;
                          subordinates_manager_resp :=
                            <[ s0 := None ]> (subordinates_manager_resp i);
                          rsp := <[ m0 := collected (get_rsp s0) ]> (rsp i) |}
             else Done {| registry_of := registry_of i;
                          subordinates_ready := subordinates_ready i;
                          subordinates_manager_resp := subordinates_manager_resp i;
                          rsp := <[ m0 := collected (get_rsp s0) ]> (rsp i) |})
            = Done i1) as ->.
    { unfold i1. destruct (decide _); reflexivity. }
    cbn.
    assert (registry_of i1 = registry_of i) as Hreg1
        by (unfold i1; destruct (decide _); reflexivity).
    assert (rsp i1 = <[ m0 := collected (get_rsp s0) ]> (rsp i)) as Hrsp1
        by (unfold i1; destruct (decide _); reflexivity).
    assert (forall x, x ∈ subordinates_ready i1
                      <-> x ∈ subordinates_ready i
                          \/ (x = s0 /\ SRESP.hReadyOut (get_rsp s0) = HREADYOUT.Ready))
      as Hsr1.
    { intros x. unfold i1. destruct (decide _) as [Hr|Hr]; cbn.
      - rewrite elem_of_union, elem_of_singleton. tauto.
      - tauto. }
    assert (forall x, x <> s0 ->
                      subordinates_manager_resp i1 !! x = subordinates_manager_resp i !! x)
      as Hresp1.
    { intros x Hx. unfold i1. destruct (decide _); cbn; [|reflexivity].
      apply lookup_insert_ne. congruence. }
    assert (SRESP.hReadyOut (get_rsp s0) = HREADYOUT.Ready ->
            subordinates_manager_resp i1 !! s0 = Some None) as Hresp1r.
    { intros Hr. unfold i1. destruct (decide _); [|contradiction]. cbn.
      apply lookup_insert_eq. }
    assert (SRESP.hReadyOut (get_rsp s0) <> HREADYOUT.Ready ->
            subordinates_manager_resp i1 !! s0 = subordinates_manager_resp i !! s0)
      as Hresp1n.
    { intros Hr. unfold i1. destruct (decide _); [contradiction|]. reflexivity. }
    assert (forall x, x ∈ order -> x <> s0) as Hne by (intros x Hx ->; contradiction).
    destruct (IH i1 Hnd) as (i' & -> & Hreg & Hsr & Hkeep & Hnone & Hrsp & Hrsp' & Hfrom).
    { intros sub Hsub. rewrite Hresp1 by auto. apply Hall. right. exact Hsub. }
    { intros s1 s2 m H1 H2. rewrite !Hresp1 by auto.
      apply Huniq; right; assumption. }
    exists i'. split; [reflexivity|]. split; [congruence|].
    split; [|split; [|split; [|split; [|split]]]].
    + intros x. rewrite Hsr, Hsr1, elem_of_cons. split.
      * intros [[H|[-> H]]|[H1 H2]]; auto.
      * intros [H|[[->|H1] H2]]; auto.
    + intros x Hx. rewrite Hkeep.
      * destruct (decide (x = s0)) as [->|Hx0]; [|auto].
        apply Hresp1n. intros Hr. apply Hx. split; [left|exact Hr].
      * intros [H1 H2]. apply Hx. split; [right; exact H1|exact H2].
    + intros x Hx Hr. apply elem_of_cons in Hx. destruct Hx as [->|Hx]; [|auto].
      rewrite Hkeep; [auto|]. intros [H1 _]. contradiction.
    + intros sub m Hsub Hm. apply elem_of_cons in Hsub. destruct Hsub as [->|Hsub].
      * assert (m = m0) as -> by congruence.
        rewrite Hrsp'.
        -- rewrite Hrsp1. apply lookup_insert_eq.
        -- intros sub Hsub. rewrite Hresp1 by auto. intros Hm'.
           apply (Hne sub Hsub). apply (Huniq sub s0 m0); [right|left| |]; assumption.
      * apply Hrsp; [exact Hsub|]. rewrite Hresp1 by auto. exact Hm.
    + intros m Hm. rewrite Hrsp'.
      * rewrite Hrsp1. apply lookup_insert_ne. intros <-.
        apply (Hm s0); [left|exact Hm0].
      * intros sub Hsub. rewrite Hresp1 by auto. apply Hm. right. exact Hsub.
    + intros m e He. destruct (Hfrom m e He) as [H|(sub & Hsub & Hm)].
      * rewrite Hrsp1 in H. apply lookup_insert_Some in H.
        destruct H as [[<- _]|[_ H]]; [|auto].
        right. exists s0. split; [left|exact Hm0].
      * right. exists sub. split; [right; exact Hsub|].
        rewrite Hresp1 in Hm by auto. exact Hm.
Qed.


(** [proc_rsp] on a sound interconnect. *)
Lemma proc_rsp_sound (get_rsp : subordinate -> SRESP.t) (order : list subordinate)
    (i : interconnect) :
  sound i ->
  order ≡ₚ elements (subordinates_waiting (registry_of i)) ->
  exists i' delivered,
    proc_rsp get_rsp order i = Done (i', delivered)
    /\ sound i'
    /\ arbiters (fabric_of (registry_of i')) = arbiters (fabric_of (registry_of i))
    /\ (forall sub m,
          sub ∈ subordinates_waiting (registry_of i) ->
          subordinates_manager_resp i !! sub = Some (Some m) ->
          delivered !! m = Some (collected (get_rsp sub))
          /\ (SRESP.hReadyOut (get_rsp sub) = HREADYOUT.Ready ->
              sub ∈ subordinates_ready i'
              /\ (sub ∉ subordinates_waiting (registry_of i'))
              /\ m ∈ managers_ready (fabric_of (registry_of i'))
              /\ (m ∉ managers_waiting (fabric_of (registry_of i'))))
          /\ (SRESP.hReadyOut (get_rsp sub) <> HREADYOUT.Ready ->
              sub ∈ subordinates_waiting (registry_of i')
              /\ subordinates_manager_resp i' !! sub = Some (Some m)
              /\ m ∈ managers_waiting (fabric_of (registry_of i'))))
    /\ (forall m,
          (forall sub, sub ∈ subordinates_waiting (registry_of i) ->
                       subordinates_manager_resp i !! sub <> Some (Some m)) ->
          delivered !! m = None
          /\ (m ∈ managers_ready (fabric_of (registry_of i'))
              <-> m ∈ managers_ready (fabric_of (registry_of i)))
          /\ (m ∈ managers_waiting (fabric_of (registry_of i'))
              <-> m ∈ managers_waiting (fabric_of (registry_of i))))
    /\ (forall m,
          m ∈ managers_ready (fabric_of (registry_of i'))
          \/ m ∈ managers_waiting (fabric_of (registry_of i'))
          <-> m ∈ managers_ready (fabric_of (registry_of i))
              \/ m ∈ managers_waiting (fabric_of (registry_of i))).
Proof.
  intros (Hrt & Hreg & Harb & Hrsp0 & Hmd & Hsd & Hout) Hperm.
  destruct (enumeration order _ Hperm) as [Hnd Hin].
  pose proof Hout as (U1 & U2 & U3 & U4 & U5 & U6).
  destruct (proc_rsp_loop_Done get_rsp order i Hnd)
    as (i1 & Hl & Hr1 & Hsr1 & Hkeep & Hnone & Hd1 & Hd2 & Hd3).
  { intros sub Hsub. apply Hin in Hsub. destruct (U1 sub Hsub) as (m & Hm & _). eauto. }
  { intros s1 s2 m H1 H2. apply Hin in H1, H2. eauto. }
  unfold proc_rsp. rewrite Hl. cbn [mbind checked_bind].
  eexists. eexists. split; [reflexivity|].
  set (ready := fun x => SRESP.hReadyOut (get_rsp x) = HREADYOUT.Ready) in *.
  set (SW := subordinates_waiting (registry_of i)) in *.
  set (MW := managers_waiting (fabric_of (registry_of i))) in *.
  set (MR := managers_ready (fabric_of (registry_of i))) in *.
  set (resp := subordinates_manager_resp i) in *.
  assert (forall m, m ∈ dom (filter (fun e : manager * (IRESP.t * HREADY.t) =>
                                       e.2.2 = HREADY.Working) (rsp i1))
                    <-> exists sub, sub ∈ SW /\ resp !! sub = Some (Some m) /\ ready sub)
    as Hdom.
  { intros m. rewrite elem_of_dom. unfold is_Some.
    setoid_rewrite map_lookup_filter_Some. cbn. split.
    - intros (e & He & Hw).
      destruct (Hd3 m e He) as [H|(sub & Hsub & Hm)].
      + rewrite Hrsp0, lookup_empty in H. discriminate.
      + exists sub. split; [apply Hin, Hsub|]. split; [exact Hm|].
        rewrite (Hd1 sub m Hsub Hm) in He. inversion He; subst e.
        apply collected_ready, Hw.
    - intros (sub & Hsub & Hm & Hr). exists (collected (get_rsp sub)).
      split; [apply Hd1; [apply Hin|]; assumption | apply collected_ready, Hr]. }
  rewrite elem_of_disjoint in Hmd, Hsd.
  assert (forall x, x ∈ SW ∖ subordinates_ready i1 <-> x ∈ SW /\ ~ ready x) as Hsw'.
  { intros x. rewrite elem_of_difference, Hsr1. split.
    - intros [H1 H2]. split; [exact H1|]. intros Hr. apply H2. right.
      split; [apply Hin, H1|exact Hr].
    - intros [H1 H2]. split; [exact H1|]. intros [H|[_ H]]; [|contradiction].
      exact (Hsd x H H1). }
  assert (forall m, m ∈ dom (filter (fun e : manager * (IRESP.t * HREADY.t) =>
                                       e.2.2 = HREADY.Working) (rsp i1)) ∪ MR
                    <-> (exists sub, sub ∈ SW /\ resp !! sub = Some (Some m) /\ ready sub)
                        \/ m ∈ MR) as Hmr'.
  { intros m. rewrite elem_of_union, Hdom. tauto. }
  assert (forall m, m ∈ MW ∖ (dom (filter (fun e : manager * (IRESP.t * HREADY.t) =>
                                             e.2.2 = HREADY.Working) (rsp i1)) ∪ MR)
                    <-> m ∈ MW
                        /\ ~ exists sub, sub ∈ SW /\ resp !! sub = Some (Some m)
                                         /\ ready sub) as Hmw'.
  { intros m. rewrite elem_of_difference, Hmr'. split; [tauto|].
    intros [H1 H2]. split; [exact H1|]. intros [H|H]; [auto|]. exact (Hmd m H H1). }
  assert (forall x, x ∈ SW -> ~ ready x ->
                    subordinates_manager_resp i1 !! x = resp !! x) as Hresp'.
  { intros x Hx Hr. apply Hkeep. tauto. }
  rewrite Hr1. fold SW MW MR.
  cbn [registry_of subordinates_ready subordinates_manager_resp rsp fabric_of
       subordinates_waiting managers_ready managers_waiting arbiters with_fabric
       with_managers fst snd].
  split; [|split; [reflexivity|split; [|split]]].
  - unfold sound.
    cbn [registry_of subordinates_ready subordinates_manager_resp rsp fabric_of
         subordinates_waiting managers_ready managers_waiting arbiters with_fabric
         with_managers manager_address_map].
    split; [|split; [|split; [|split; [reflexivity|split; [|split]]]]].
    + eapply routable_same_maps; [exact Hrt|]. unfold same_maps. cbn. tauto.
    + intros m. rewrite Hmr', Hmw'.
      intros [[(sub & Hs & Hm & _)|H]|[H _]]; [|auto|auto].
      destruct (U1 sub Hs) as (m' & Hm' & Hmw). apply Hreg. right. congruence.
    + intros x. rewrite Hsr1, Hsw'. intros [[H|[H _]]|[H _]]; [auto| |auto].
      apply Harb. right. apply Hin, H.
    + apply elem_of_disjoint. intros m. rewrite Hmr', Hmw'.
      intros [H|H] [H1 H2]; [contradiction|]. exact (Hmd m H H1).
    + apply elem_of_disjoint. intros x. rewrite Hsr1, Hsw'.
      intros [H|[_ H]] [H1 H2]; [|contradiction]. exact (Hsd x H H1).
    + unfold outstanding. split; [|split; [|split; [|split; [|split]]]].
      * intros sub. rewrite Hsw'. intros [Hs Hr].
        destruct (U1 sub Hs) as (m & Hm & Hmw). exists m.
        rewrite Hresp' by assumption. split; [exact Hm|].
        apply Hmw'. split; [exact Hmw|].
        intros (sub' & Hs' & Hm' & Hr'). apply Hr.
        rewrite (U2 sub sub' m Hs Hs' Hm Hm'). exact Hr'.
      * intros s1 s2 m. rewrite !Hsw'. intros [H1 R1] [H2 R2].
        rewrite !Hresp' by assumption. eauto.
      * intros sub a m Ha Hm. destruct (U3 sub a m Ha Hm) as [Hmw Hfree].
        split.
        -- apply Hmw'. split; [exact Hmw|]. intros (sub' & Hs' & Hm' & _).
           exact (Hfree sub' Hs' Hm').
        -- intros sub'. rewrite Hsw'. intros [Hs' Hr'].
           rewrite Hresp' by assumption. auto.
      * exact U4.
      * exact U5.
      * intros m. rewrite Hmw'. intros [Hmw Hns].
        destruct (U6 m Hmw) as [H|(sub & Hs & Hm)]; [auto|]. right.
        exists sub. assert (~ ready sub) as Hr by (intros Hr; apply Hns; eauto).
        rewrite Hsw', Hresp' by assumption. auto.
  - intros sub m Hs Hm. split; [apply Hd1; [apply Hin|]; assumption|]. split.
    + intros Hr. rewrite Hsr1, Hsw', Hmr', Hmw'.
      split; [right; split; [apply Hin, Hs|exact Hr]|].
      split; [tauto|]. split; [left; eauto|]. intros [_ H]. apply H. eauto.
    + intros Hr. rewrite Hsw', Hmw', Hresp' by assumption.
      split; [auto|]. split; [exact Hm|].
      destruct (U1 sub Hs) as (m' & Hm' & Hmw).
      split; [congruence|]. intros (sub' & Hs' & Hm'' & Hr'). apply Hr.
      rewrite (U2 sub sub' m Hs Hs' Hm Hm''). exact Hr'.
  - intros m Hm. split; [|split].
    + rewrite Hd2, Hrsp0; [apply lookup_empty|].
      intros sub Hsub. apply Hm, Hin, Hsub.
    + rewrite Hmr'. split; [|auto]. intros [(sub & Hs & Hm' & _)|H]; [|exact H].
      exfalso. exact (Hm sub Hs Hm').
    + rewrite Hmw'. split; [tauto|]. intros H. split; [exact H|].
      intros (sub & Hs & Hm' & _). exact (Hm sub Hs Hm').
  - intros m. split.
    + rewrite Hmr', Hmw'. intros [[(sub & Hs & Hm & _)|H]|[H _]]; [|auto|auto].
      destruct (U1 sub Hs) as (m' & Hm' & Hmw). right. congruence.
    + intros [H|H].
      * left. apply Hmr'. auto.
      * match goal with
        | |- ?a ∈ ?X \/ _ => destruct (decide (a ∈ X)) as [Hin'|Hout']
        end; [left; exact Hin'|].
        right. apply elem_of_difference. auto.
Qed.


Lemma proc_cmd_managers_outstanding (get_cmd : manager -> MCMD.t) (order : list manager)
    (st : state) (sw : gset subordinate) (resp : gmap subordinate (option manager)) :
  routable st ->
  NoDup order ->
  (forall m, m ∈ order ->
             is_Some (manager_address_map st !! m) /\ m ∉ managers_waiting st) ->
  outstanding (managers_waiting st) sw resp (arbiters st) ->
  exists st',
    proc_cmd_managers get_cmd order st = Ok st'
    /\ same_maps st st'
    /\ (forall m, m ∈ managers_ready st'
                  <-> m ∈ managers_ready st /\ (m ∉ order)
                      /\ (m ∉ managers_waiting st))
    /\ (forall m, m ∈ managers_waiting st' <-> m ∈ order \/ m ∈ managers_waiting st)
    /\ outstanding (managers_waiting st') sw resp (arbiters st').
Proof.
  intros Hr Hnd Hall Hout.
  destruct (proc_cmd_loop_outstanding get_cmd order st sw resp Hr Hnd Hall Hout)
    as (st1 & Hl & Hsm & Hrd & Hwt & Hout1).
  unfold proc_cmd_managers. rewrite Hl. cbn [mbind result_bind].
  eexists. split; [reflexivity|]. cbn [managers_ready managers_waiting arbiters].
  split; [|split; [|split; [exact Hwt|exact Hout1]]].
  - destruct Hsm as (A1 & A2 & A3 & A4 & A5). unfold same_maps. cbn. auto.
  - intros m. rewrite elem_of_difference, Hrd, Hwt. tauto.
Qed.

(** [proc_cmd] on a sound interconnect. *)
Lemma proc_cmd_sound (get_cmd : manager -> MCMD.t) (managers : list manager)
    (subordinates : list subordinate) (i : interconnect) :
  sound i ->
  managers ≡ₚ elements (managers_ready (fabric_of (registry_of i))) ->
  subordinates ≡ₚ elements (subordinates_ready i) ->
  exists i' put,
    proc_cmd get_cmd managers subordinates i = Done (i', put)
    /\ sound i'
    /\ (forall m, m ∉ managers_ready (fabric_of (registry_of i')))
    /\ (forall m, m ∈ managers_waiting (fabric_of (registry_of i'))
                  <-> m ∈ managers_ready (fabric_of (registry_of i))
                      \/ m ∈ managers_waiting (fabric_of (registry_of i)))
    /\ manager_address_map (fabric_of (registry_of i'))
       = manager_address_map (fabric_of (registry_of i)).
Proof.
  intros (Hrt & Hreg & Harb & Hrsp0 & Hmd & Hsd & Hout) Hpm Hps.
  destruct (enumeration managers _ Hpm) as [Hndm Hinm].
  destruct (enumeration subordinates _ Hps) as [Hnds Hins].
  rewrite elem_of_disjoint in Hmd, Hsd.
  destruct (proc_cmd_managers_outstanding get_cmd managers (fabric_of (registry_of i))
              (subordinates_waiting (registry_of i)) (subordinates_manager_resp i)
              Hrt Hndm) as (f1 & Hf1 & Hsm1 & Hmr1 & Hmw1 & Hout1).
  { intros m Hm. apply Hinm in Hm. split; [apply Hreg; auto|].
    intros Hw. exact (Hmd m Hm Hw). }
  { exact Hout. }
  unfold proc_cmd. rewrite Hf1.
  set (i1 := {| registry_of :=
                  with_fabric f1 (subordinates_waiting (registry_of i)) (registry_of i);
                subordinates_ready := subordinates_ready i;
                subordinates_manager_resp := subordinates_manager_resp i;
                rsp := rsp i |}).
  destruct (proc_cmd_subordinates_outstanding subordinates i1 ∅ Hnds)
    as (i2 & put & Hl2 & Hsm2 & Hmr2 & Hmw2 & Hsr2 & Hrsp2 & Hsw2a & Hsw2b & Hout2).
  { intros sub Hsub. apply Hins in Hsub. cbn. split.
    - destruct Hsm1 as (_ & _ & _ & _ & A5). apply A5. apply Harb. auto.
    - intros Hw. exact (Hsd sub Hsub Hw). }
  { cbn. exact Hout1. }
  rewrite Hl2. cbn [mbind checked_bind fst snd]. subst i1.
  cbn [registry_of fabric_of with_fabric subordinates_waiting subordinates_ready
       subordinates_manager_resp rsp] in Hsm2, Hmr2, Hmw2, Hsr2, Hrsp2, Hsw2a, Hsw2b.
  eexists. eexists. split; [reflexivity|].
  cbn [registry_of subordinates_ready subordinates_manager_resp rsp].
  assert (same_maps (fabric_of (registry_of i)) (fabric_of (registry_of i2))) as Hsm
      by (eapply same_maps_trans; eauto).
  split; [|split; [|split]].
  - unfold sound. cbn [registry_of subordinates_ready subordinates_manager_resp rsp].
    split; [|split; [|split; [|split; [|split; [|split]]]]].
    + eapply routable_same_maps; eauto.
    + intros m. rewrite Hmr2, Hmw2, Hmr1, Hmw1.
      destruct Hsm as (_ & -> & _). intros [[H _]|[H|H]]; apply Hreg; auto.
      left. apply Hinm, H.
    + intros sub. rewrite elem_of_difference, Hsr2. intros H.
      destruct Hsm as (_ & _ & _ & _ & A5). apply A5, Harb.
      destruct H as [[H _]|H]; [auto|].
      destruct (Hsw2a sub H) as [H'|H']; [auto|]. left. apply Hins, H'.
    + congruence.
    + apply elem_of_disjoint. intros m. rewrite Hmr2, Hmw2, Hmr1, Hmw1. tauto.
    + apply elem_of_disjoint. intros sub. rewrite elem_of_difference. tauto.
    + exact Hout2.
  - intros m. rewrite Hmr2, Hmr1. intros (H1 & H2 & _). apply H2, Hinm, H1.
  - intros m. rewrite Hmw2, Hmw1, Hinm. tauto.
  - destruct Hsm as (_ & -> & _). reflexivity.
Qed.

(** A call of [process] with the reset line down on a sound interconnect
    returns, and leaves a sound interconnect in which every manager
    waits. *)
Lemma process_sound (pick_m : gset manager -> list manager)
    (pick_s : gset subordinate -> list subordinate)
    (get_rsp : subordinate -> SRESP.t) (get_cmd : manager -> MCMD.t)
    (i : interconnect) :
  (forall X, pick_m X ≡ₚ elements X) ->
  (forall X, pick_s X ≡ₚ elements X) ->
  sound i ->
  exists i',
    process pick_m pick_s get_rsp get_cmd false i = Done i'
    /\ sound i'
    /\ (forall m, m ∉ managers_ready (fabric_of (registry_of i')))
    /\ (forall m, m ∈ managers_waiting (fabric_of (registry_of i'))
                  <-> m ∈ managers_ready (fabric_of (registry_of i))
                      \/ m ∈ managers_waiting (fabric_of (registry_of i)))
    /\ manager_address_map (fabric_of (registry_of i'))
       = manager_address_map (fabric_of (registry_of i)).
Proof.
  intros Hpm Hps Hs.
  destruct (proc_rsp_sound get_rsp (pick_s (subordinates_waiting (registry_of i))) i
              Hs (Hps _)) as (i1 & delivered & H1 & Hs1 & _ & _ & _ & Hcons).
  destruct (proc_cmd_sound get_cmd
              (pick_m (managers_ready (fabric_of (registry_of i1))))
              (pick_s (subordinates_ready i1)) i1 Hs1 (Hpm _) (Hps _))
    as (i2 & put & H2 & Hs2 & Hmr2 & Hmw2 & Ham2).
  unfold process. rewrite H1. cbn [mbind checked_bind fst snd]. rewrite H2.
  cbn [mbind checked_bind fst snd].
  exists i2. split; [reflexivity|]. split; [exact Hs2|]. split; [exact Hmr2|].
  split.
  - intros m. rewrite Hmw2. apply Hcons.
  - rewrite Ham2.
    assert (same_maps (fabric_of (registry_of i)) (fabric_of (registry_of i1))) as Hsm.
    { revert H1. unfold proc_rsp.
      destruct (proc_rsp_loop get_rsp _ i) as [i0| |] eqn:El; cbn; try discriminate.
      intros [= <- _]. cbn.
      destruct (proc_rsp_loop_Done get_rsp
                  (pick_s (subordinates_waiting (registry_of i))) i)
        as (i0' & El' & Hr0 & _).
      - apply (enumeration _ _ (Hps _)).
      - intros sub Hsub. apply (enumeration _ _ (Hps _)) in Hsub.
        destruct Hs as (_ & _ & _ & _ & _ & _ & U1 & _).
        destruct (U1 sub Hsub) as (m & Hm & _). eauto.
      - intros s1 s2 m Hs1' Hs2'. apply (enumeration _ _ (Hps _)) in Hs1', Hs2'.
        destruct Hs as (_ & _ & _ & _ & _ & _ & _ & U2 & _). eauto.
      - rewrite El in El'. inversion El'; subst i0'. rewrite Hr0.
        unfold same_maps. cbn. tauto. }
    destruct Hsm as (_ & -> & _). reflexivity.
Qed.


Lemma prep_default_waiting (order : list subordinate) (r : registry) :
  (forall sub, sub ∈ subordinates_waiting (prep_default order r)
               <-> sub ∈ order \/ sub ∈ subordinates_waiting r)
  /\ (forall sub a, arbiters (fabric_of (prep_default order r)) !! sub = Some a ->
                    a = Arbiter.init \/ arbiters (fabric_of r) !! sub = Some a).
Proof.
  revert r. induction order as [|d order IH]; intros r; cbn.
  - split; [|auto]. intros sub. split; [auto|]. intros [H|H]; [inversion H|exact H].
  - match goal with
    | |- context [fold_left ?F order ?R] =>
        specialize (IH R); change (fold_left F order R) with (prep_default order R) in *
    end.
    cbn in IH. destruct IH as (Hw & Ha). split.
    + intros sub. rewrite Hw, elem_of_union, elem_of_singleton, elem_of_cons. tauto.
    + intros sub a H. destruct (Ha sub a H) as [H'|H']; [auto|].
      apply lookup_insert_Some in H'. destruct H' as [[_ <-]|[_ H']]; auto.
Qed.

(** The sets and the queues of a built interconnect: the managers in its
    sets are registered, its waiting subordinates have arbiters, and the
    queues are empty. *)
Lemma built_sets (r : registry) :
  built r ->
  (forall m, m ∈ managers_ready (fabric_of r) \/ m ∈ managers_waiting (fabric_of r)
             <-> is_Some (manager_address_map (fabric_of r) !! m))
  /\ (forall sub, sub ∈ subordinates_waiting r ->
                  is_Some (arbiters (fabric_of r) !! sub))
  /\ (forall sub a, arbiters (fabric_of r) !! sub = Some a ->
                    Arbiter.command_queue a = nil).
Proof.
  induction 1 as [|m w oid d r r' _ IH Hreg|sub w r r' _ IH Hreg
                  |m sub a sz r r' _ IH Hreg].
  - cbn. split; [|split].
    + intros m. rewrite lookup_empty. split.
      * intros [H|H]; exfalso; exact (not_elem_of_empty m H).
      * intros [? ?]; discriminate.
    + intros sub H. exfalso. exact (not_elem_of_empty sub H).
    + intros sub a. rewrite lookup_empty. discriminate.
  - destruct IH as (Hm & Hs & Hq).
    destruct (register_manager_Done _ _ _ _ _ _ Hreg)
      as (_ & _ & Ham & _ & _ & Harb & Hmr & Hmw & Hsw & _).
    rewrite Ham, Harb, Hmr, Hmw, Hsw. split; [|auto].
    intros m'. rewrite lookup_insert_is_Some, elem_of_union, elem_of_singleton, <- Hm.
    destruct (decide (m = m')) as [->|]; [tauto | intuition congruence].
  - destruct IH as (Hm & Hs & Hq).
    destruct (register_subordinate_Done _ _ _ _ Hreg)
      as (_ & Harb & _ & _ & _ & Ham & _ & _ & Hmr & Hmw & Hsw & _).
    rewrite Ham, Harb, Hmr, Hmw, Hsw. split; [exact Hm|]. split.
    + intros s. rewrite elem_of_union, elem_of_singleton, lookup_insert_is_Some.
      intros [->|H]; [auto|]. destruct (decide (sub = s)); auto.
    + intros s a. rewrite lookup_insert_Some. intros [[_ <-]|[_ H]]; [reflexivity|eauto].
  - destruct IH as (Hm & Hs & Hq).
    destruct (register_region_Done _ _ _ _ _ _ Hreg)
      as (regions & Hreg' & _ & _ & _ & Ham & _ & Harb & _ & _ & _ & _ & Hmr & Hmw
          & Hsw & _).
    rewrite Ham, Harb, Hmr, Hmw, Hsw. split; [|auto].
    intros m'. rewrite lookup_insert_is_Some, Hm.
    destruct (decide (m = m')) as [<-|]; [|tauto].
    rewrite Hreg'. split; [auto|]. intros _. eauto.
Qed.

(** The first [process], under reset, leaves a sound interconnect in
    which every registered manager is ready. *)
Lemma first_process_sound (r : registry) (order : list subordinate) :
  built r ->
  order ≡ₚ default_subordinates r ->
  sound (first_process order true r)
  /\ (forall m, m ∈ managers_ready (fabric_of (registry_of (first_process order true r)))
                <-> is_Some (manager_address_map (fabric_of r) !! m))
  /\ manager_address_map (fabric_of (registry_of (first_process order true r)))
     = manager_address_map (fabric_of r).
Proof.
  intros Hb Hperm.
  pose proof (built_prep_routable r order Hb Hperm) as Hrt.
  destruct (built_sets r Hb) as (Hm & Hs & Hq).
  destruct (prep_default_fabric order r) as (_ & Ham & _ & _ & Hmr & Hmw & Harb).
  destruct (prep_default_waiting order r) as (Hsw & Hinit).
  cbn in Ham, Hmr, Hmw, Harb.
  unfold first_process, do_reset, started.
  cbn [registry_of subordinates_ready fabric_of with_fabric with_managers
       managers_ready managers_waiting subordinates_waiting].
  set (p := prep_default order r) in *.
  assert (forall sub a, arbiters (fabric_of p) !! sub = Some a -> owners a = nil) as Hown.
  { intros sub a Ha. unfold owners.
    destruct (Hinit sub a Ha) as [->|H]; [reflexivity|]. rewrite (Hq sub a H). reflexivity. }
  split; [|split].
  - unfold sound.
    cbn [registry_of subordinates_ready subordinates_manager_resp rsp fabric_of
         with_fabric with_managers managers_ready managers_waiting
         subordinates_waiting manager_address_map arbiters].
    split; [|split; [|split; [|split; [reflexivity|split; [|split]]]]].
    + eapply routable_same_maps; [exact Hrt|]. unfold same_maps. cbn. tauto.
    + intros m. rewrite Ham, Hmr, Hmw, elem_of_difference, elem_of_union, <- Hm. tauto.
    + intros sub. rewrite elem_of_difference, !elem_of_union, Hsw.
      intros [[[H|H]|H]|[[H|H] _]].
      * apply Harb. auto.
      * apply Harb. left. apply Hs, H.
      * exfalso. exact (not_elem_of_empty sub H).
      * apply Harb. auto.
      * apply Harb. left. apply Hs, H.
    + apply elem_of_disjoint. intros m. rewrite elem_of_difference. tauto.
    + apply elem_of_disjoint. intros sub. rewrite elem_of_difference. tauto.
    + unfold outstanding. split; [|split; [|split; [|split; [|split]]]].
      * intros sub. rewrite elem_of_difference, elem_of_union. tauto.
      * intros s1 s2 m. rewrite elem_of_difference, elem_of_union. tauto.
      * intros sub a m Ha. rewrite (Hown sub a Ha). intros H. inversion H.
      * intros sub a Ha. rewrite (Hown sub a Ha). apply NoDup_nil_2.
      * intros s1 s2 a1 a2 m Ha1 _. rewrite (Hown s1 a1 Ha1). intros H. inversion H.
      * intros m. rewrite elem_of_difference, elem_of_union. tauto.
  - intros m. rewrite Hmr, Hmw, elem_of_union, <- Hm. tauto.
  - exact Ham.
Qed.

(** In service the interconnect is sound, and its managers are the
    registered ones. *)
Lemma serving_sound (i : interconnect) :
  serving i ->
  sound i
  /\ forall m, m ∈ managers_ready (fabric_of (registry_of i))
               \/ m ∈ managers_waiting (fabric_of (registry_of i))
               <-> is_Some (manager_address_map (fabric_of (registry_of i)) !! m).
Proof.
  induction 1 as [r order Hb Hperm|pick_m pick_s get_rsp get_cmd i i' Hpm Hps _ IH Hp].
  - destruct (first_process_sound r order Hb Hperm) as (Hs & Hmr & Ham).
    split; [exact Hs|]. intros m. rewrite Ham, <- Hmr. split; [|auto].
    intros [H|H]; [exact H|].
    destruct Hs as (_ & Hreg & _). rewrite Hmr, <- Ham. apply Hreg. auto.
  - destruct IH as (Hs & Hm).
    destruct (process_sound pick_m pick_s get_rsp get_cmd i Hpm Hps Hs)
      as (i2 & Hp2 & Hs2 & Hmr2 & Hmw2 & Ham2).
    rewrite Hp in Hp2. inversion Hp2; subst i2.
    split; [exact Hs2|]. intros m. rewrite Ham2, <- Hm, Hmw2.
    split; [|auto]. intros [H|H]; [|exact H]. exfalso. exact (Hmr2 m H).
Qed.


Lemma in_reset_serving : serving in_reset.
Proof.
  apply (serving_first with_region (default_subordinates with_region)).
  - exact with_region_built.
  - reflexivity.
Qed.

Lemma after_one_cycle_serving : serving after_one_cycle.
Proof.
  apply (serving_process elements elements (fun _ => SRESP.default)
           (fun _ => word_write 0x4010 3) in_reset).
  - reflexivity.
  - reflexivity.
  - exact in_reset_serving.
  - vm_compute. reflexivity.
Qed.







End Service.
